(** * lm-format-enforcer: the JSON-schema character-level parser

    A shallow embedding of [lmformatenforcer/jsonschemaparser.py] and
    the properties of its stack of parsing frames.

    Conventions of the embedding.
    - A Python [str] is a [list ascii]; a character argument is one
      [ascii] (code points 0..255).
    - Python objects live in a heap (a list of frames indexed by
      address); [object_stack] is a list of addresses with the TOP OF
      THE STACK AT THE HEAD (Python keeps it at the end of the list).
      The object frame's [current_key_parser] is an address, so the key
      parser it reads on [':'] is the very frame that sat on the stack.
    - The back reference [root] of every frame is replaced by explicit
      passing of the heap and the stack.
    - A raised exception is [Raise e]; the state is lost with it.
    - A Python [set] turned into a list has an unspecified order; the
      embedding keeps first occurrences in list order.  Every theorem
      about such a list speaks of membership only. *)

From Stdlib Require Import Ascii String Bool Lia.
From stdpp Require Import base list.

Local Open Scope char_scope.

(** ** Strings and small Python idioms *)

Abbreviation str := (list ascii).

Definition lit (s : string) : str := list_ascii_of_string s.

Fixpoint str_eqb (s t : str) : bool :=
  match s, t with
  | [], [] => true
  | a :: s', b :: t' => Ascii.eqb a b && str_eqb s' t'
  | _, _ => false
  end.

(** [c in s] for a one-character [c]. *)
Definition char_in (c : ascii) (s : str) : bool := existsb (Ascii.eqb c) s.

(** [x in l] for a list of strings. *)
Definition str_in (x : str) (l : list str) : bool := existsb (str_eqb x) l.

(** The double quote character. *)
Definition dquote : ascii := "034".

Definition digits : str := lit "0123456789".

(** [s.strip()] is the empty string, for a one-character [s]: the
    character is one of Python's whitespace characters. *)
Definition is_py_space (c : ascii) : bool :=
  existsb (Nat.eqb (nat_of_ascii c)) [9; 10; 11; 12; 13; 28; 29; 30; 31; 32; 133; 160]%nat.

(** [s.startswith(p)] *)
Fixpoint startswith (s p : str) : bool :=
  match p, s with
  | [], _ => true
  | b :: p', a :: s' => Ascii.eqb a b && startswith s' p'
  | _ :: _, [] => false
  end.

(** [list(set(l))]: duplicates removed. *)
Fixpoint py_set {A} (eqb : A -> A -> bool) (l : list A) : list A :=
  match l with
  | [] => []
  | x :: l' => x :: List.filter (fun y => negb (eqb x y)) (py_set eqb l')
  end.

(** [list(set(l).difference(m))] on strings. *)
Definition set_difference (l m : list str) : list str :=
  List.filter (fun k => negb (str_in k m)) (py_set str_eqb l).

(** [set(l).issuperset(m)] on strings. *)
Definition issuperset (l m : list str) : bool :=
  forallb (fun k => str_in k l) m.

(** [s.split(sep)]: the pieces of [s] between occurrences of [sep]
    (never an empty list). *)
Fixpoint split (sep : ascii) (s : str) : list str :=
  match s with
  | [] => [[]]
  | c :: s' =>
      if Ascii.eqb c sep then [] :: split sep s'
      else match split sep s' with
           | [] => [[c]]
           | w :: ws => (c :: w) :: ws
           end
  end.

(** [d[k]] and [k in d] on a dict kept as an association list. *)
Fixpoint dict_get {V} (d : list (str * V)) (k : str) : option V :=
  match d with
  | [] => None
  | (k', v) :: d' => if str_eqb k k' then Some v else dict_get d' k
  end.

Definition keys {V} (d : list (str * V)) : list str := List.map fst d.

(** ** Exceptions *)

Inductive PyError : Type :=
  | ValueError | KeyError | AttributeError | IndexError
  | UnsupportedType | NotImplementedError.

Inductive Result (A : Type) : Type :=
  | Ok (a : A)
  | Raise (e : PyError).
Arguments Ok {A} a.
Arguments Raise {A} e.

Definition bind {A B} (m : Result A) (k : A -> Result B) : Result B :=
  match m with
  | Ok a => k a
  | Raise e => Raise e
  end.

Notation "'try' x := m 'in' k" := (bind m (fun x => k))
  (at level 10, x name, m at level 100, k at level 200, only parsing).

(** ** The schema node

    Modelled from the spec: [JsonSchemaObject] is declared in
    [external/jsonschemaobject.py], which is not part of the sources
    at hand; the parser reads the fields below.  [extras] holds the
    schema's remaining top-level keys; the entries the parser reads
    ([definitions], [$defs]) map a name to a class dictionary, kept
    here as the schema node that the constructor of
    [JsonSchemaObject] builds from it. *)

Unset Elimination Schemes.
Inductive JsonSchemaObject : Type :=
  mkSchema (type : option str)
           (properties : option (list (str * JsonSchemaObject)))
           (additionalProperties : option JsonSchemaObject)
           (items : option JsonSchemaObject)
           (enum : option (list str))
           (ref : option str)
           (extras : list (str * list (str * JsonSchemaObject))).
Set Elimination Schemes.

Definition type (s : JsonSchemaObject) := let 'mkSchema t _ _ _ _ _ _ := s in t.
Definition properties (s : JsonSchemaObject) := let 'mkSchema _ p _ _ _ _ _ := s in p.
Definition additionalProperties (s : JsonSchemaObject) := let 'mkSchema _ _ a _ _ _ _ := s in a.
Definition items (s : JsonSchemaObject) := let 'mkSchema _ _ _ i _ _ _ := s in i.
Definition enum (s : JsonSchemaObject) := let 'mkSchema _ _ _ _ e _ _ := s in e.
Definition ref (s : JsonSchemaObject) := let 'mkSchema _ _ _ _ _ r _ := s in r.
Definition extras (s : JsonSchemaObject) := let 'mkSchema _ _ _ _ _ _ x := s in x.

(** [value_schema.type == name] *)
Definition type_is (s : JsonSchemaObject) (name : string) : bool :=
  match type s with
  | Some t => str_eqb t (lit name)
  | None => false
  end.

(** ** Frames *)

Abbreviation addr := nat.

Inductive ObjectParsingStage : Type :=
  | START_OBJECT | PARSING_KEY_OR_END | PARSING_VALUE
  | PARSING_SEPARATOR_OR_END | END_OBJECT.

(** [is_dictionary] is assigned once, in [__init__], from
    [schema_object], and neither is assigned again: it is kept as the
    function [is_dictionary] of the frame below. *)
Record ObjectParsingState : Type := mkObject {
  schema_object : JsonSchemaObject;
  current_stage : ObjectParsingStage;
  existing_keys : list str;
  current_key : option str;
  current_key_parser : option addr
}.

Definition is_dictionary (o : ObjectParsingState) : bool :=
  match properties (schema_object o) with
  | None => true
  | Some _ => false
  end.

(** The fields of [PrimitiveParsingState]; [stage] is never read or
    written after [__init__] and is left out. *)
Record PrimitiveParsingState : Type := mkPrimitive {
  parsed_string : str;
  ending_characters : str
}.

Record NumberParsingState : Type := mkNumber {
  number_base : PrimitiveParsingState;
  allow_floating_point : bool;
  seen_decimal_point : bool
}.

Record StringParsingState : Type := mkString {
  string_base : PrimitiveParsingState;
  allowed_strings : option (list str);
  seen_closing_quote : bool;
  seen_opening_quote : bool
}.

Record ListParsingState : Type := mkList {
  list_base : PrimitiveParsingState;
  list_member_type : option JsonSchemaObject;
  seen_list_opener : bool;
  seen_list_closer : bool
}.

Inductive Frame : Type :=
  | ObjectFrame (o : ObjectParsingState)
  | NumberFrame (n : NumberParsingState)
  | StringFrame (s : StringParsingState)
  | ListFrame (l : ListParsingState).

(** *** Constructors ([__init__]) *)

Definition Primitive_init (ending : str) : PrimitiveParsingState :=
  mkPrimitive [] ending.

Definition ObjectParsingState_init (schema : JsonSchemaObject) : ObjectParsingState :=
  mkObject schema START_OBJECT [] None None.

Definition NumberParsingState_init (ending : str) (allow_fp : bool) : NumberParsingState :=
  mkNumber (Primitive_init ending) allow_fp false.

Definition StringParsingState_init (ending : str) (allowed : option (list str))
    (require_opening_quote : bool) : StringParsingState :=
  mkString (Primitive_init ending) allowed false (negb require_opening_quote).

Definition ListParsingState_init (ending : str) (member : option JsonSchemaObject)
    : ListParsingState :=
  mkList (Primitive_init ending) member false false.

(** Truth value of an optional string or list ([if x:]). *)
Definition truthy {A} (x : option (list A)) : bool :=
  match x with
  | Some (_ :: _) => true
  | _ => false
  end.

(** ** The frame dispatcher *)

Definition get_parser (model_class : JsonSchemaObject)
    (value_schema : option JsonSchemaObject) (ending : str) : Result Frame :=
  match value_schema with
  | None => Raise AttributeError
  | Some vs =>
      if type_is vs "string" then
        Ok (StringFrame (StringParsingState_init ending (enum vs) true))
      else if type_is vs "object" then
        Ok (ObjectFrame (ObjectParsingState_init vs))
      else if match type vs with None => truthy (ref vs) | Some _ => false end then
        let value_class_name := List.last (split "/" (default [] (ref vs))) [] in
        try definitions :=
          match dict_get (extras model_class) (lit "definitions") with
          | Some d => Ok d
          | None =>
              match dict_get (extras model_class) (lit "$defs") with
              | Some d => Ok d
              | None => Raise ValueError
              end
          end in
        match dict_get definitions value_class_name with
        | None => Raise KeyError
        | Some class_dict => Ok (ObjectFrame (ObjectParsingState_init class_dict))
        end
      else if type_is vs "integer" then
        Ok (NumberFrame (NumberParsingState_init ending false))
      else if type_is vs "number" then
        Ok (NumberFrame (NumberParsingState_init ending true))
      else if type_is vs "array" then
        Ok (ListFrame (ListParsingState_init ending (items vs)))
      else Raise UnsupportedType
  end.

(** ** The heap and the stack *)

Abbreviation Heap := (list Frame).

(** The heap and [object_stack] (top of the stack first). *)
Definition State : Type := Heap * list addr.

(** [object_stack.append(f)] for a newly constructed frame [f]. *)
Definition push (f : Frame) (st : State) : State :=
  (st.1 ++ [f], length st.1 :: st.2).

(** Assignment to fields of the frame at address [a]. *)
Definition modify (a : addr) (g : Frame -> Frame) (h : Heap) : Heap :=
  match h !! a with
  | Some f => <[a := g f]> h
  | None => h
  end.

Definition base (f : Frame) : option PrimitiveParsingState :=
  match f with
  | ObjectFrame _ => None
  | NumberFrame n => Some (number_base n)
  | StringFrame s => Some (string_base s)
  | ListFrame l => Some (list_base l)
  end.

Definition set_base (g : PrimitiveParsingState -> PrimitiveParsingState) (f : Frame) : Frame :=
  match f with
  | ObjectFrame o => ObjectFrame o
  | NumberFrame n =>
      NumberFrame (mkNumber (g (number_base n)) (allow_floating_point n) (seen_decimal_point n))
  | StringFrame s =>
      StringFrame (mkString (g (string_base s)) (allowed_strings s)
                            (seen_closing_quote s) (seen_opening_quote s))
  | ListFrame l =>
      ListFrame (mkList (g (list_base l)) (list_member_type l)
                        (seen_list_opener l) (seen_list_closer l))
  end.

Definition set_parsed_string (g : str -> str) : Frame -> Frame :=
  set_base (fun b => mkPrimitive (g (parsed_string b)) (ending_characters b)).

Definition set_current_stage (st : ObjectParsingStage) (o : ObjectParsingState) :=
  mkObject (schema_object o) st (existing_keys o) (current_key o) (current_key_parser o).

(** ** [can_end] of the frames *)

Definition Number_can_end (n : NumberParsingState) : bool :=
  match parsed_string (number_base n) with
  | [] => false
  | c :: s => char_in (List.last s c) digits
  end.

Definition String_can_end (s : StringParsingState) : bool := seen_closing_quote s.

Definition List_can_end (l : ListParsingState) : bool := seen_list_closer l.

(** Dynamic dispatch of [self.can_end()] as the primitive base calls
    it; an object frame has no [can_end] of its own
    ([BaseParsingState.can_end] raises) and is never asked. *)
Definition can_end (f : Frame) : bool :=
  match f with
  | ObjectFrame _ => false
  | NumberFrame n => Number_can_end n
  | StringFrame s => String_can_end s
  | ListFrame l => List_can_end l
  end.

(** ** [get_allowed_characters] of the frames *)

Definition Object_get_allowed_characters (o : ObjectParsingState) : str :=
  let possible_keys :=
    match properties (schema_object o) with
    | Some p => keys p
    | None => []
    end in
  let required_keys : list str := [] in
  let can_end := issuperset (existing_keys o) required_keys in
  let can_parse_key := is_dictionary o || issuperset possible_keys (existing_keys o) in
  [" "] ++
  match current_stage o with
  | START_OBJECT => ["{"]
  | PARSING_KEY_OR_END =>
      (if can_end then ["}"] else []) ++ (if can_parse_key then [dquote] else [])
  | PARSING_VALUE =>
      (if can_end then ["}"] else []) ++ (if can_parse_key then [","] else [])
  | PARSING_SEPARATOR_OR_END =>
      (if can_end then ["}"] else []) ++ (if can_parse_key then [","] else [])
  | END_OBJECT => []
  end.

Definition Number_get_allowed_primitive_characters (n : NumberParsingState) : str :=
  digits
  ++ (match parsed_string (number_base n) with [] => ["-"] | _ => [] end)
  ++ (if allow_floating_point n && negb (seen_decimal_point n) then ["."] else []).

Definition free_form_characters : str :=
  lit "0123456789abcdefghijklmnopqrstuvwxyzABCDEFGHIJKLMNOPQRSTUVWXYZ!@#$%^&*()_+-=[]{};:,./<>? '"
  ++ [dquote].

Definition String_get_allowed_primitive_characters (s : StringParsingState) : str :=
  if negb (seen_opening_quote s) then [dquote]
  else if seen_closing_quote s then []
  else if truthy (allowed_strings s) then
    let parsed := parsed_string (string_base s) in
    let strings := default [] (allowed_strings s) in
    let allowed_continuations :=
      List.map (drop (length parsed))
               (List.filter (fun m => startswith m parsed) strings) in
    let allowed_next_characters :=
      flat_map (fun k => match k with [] => [] | c :: _ => [c] end)
               allowed_continuations in
    py_set Ascii.eqb allowed_next_characters
    ++ (if str_in parsed strings then [dquote] else [])
  else free_form_characters.

Definition List_get_allowed_primitive_characters (l : ListParsingState) : str :=
  if negb (seen_list_opener l) then ["["]
  else if negb (seen_list_closer l) then ["]"; ","]
  else [].

(** [PrimitiveParsingState.get_allowed_characters], with the dispatch
    of [_get_allowed_primitive_characters] and [can_end]. *)
Definition Primitive_get_allowed_characters (f : Frame) (b : PrimitiveParsingState) : str :=
  (match f with
   | ObjectFrame _ => []
   | NumberFrame n => Number_get_allowed_primitive_characters n
   | StringFrame s => String_get_allowed_primitive_characters s
   | ListFrame l => List_get_allowed_primitive_characters l
   end)
  ++ (if can_end f then ending_characters b else []).

Definition Frame_get_allowed_characters (f : Frame) : str :=
  match f with
  | ObjectFrame o => Object_get_allowed_characters o
  | _ => match base f with
         | Some b => Primitive_get_allowed_characters f b
         | None => []
         end
  end.

(** ** [add_character] of the frames

    Every function below runs as the method of the frame at address
    [self], which is the top of the stack [self :: rest] when the
    method starts.  [parent] delivers a character to the frame below,
    on the stack [rest]: it is what [finish_parser] calls after the
    pop. *)

Section Frames.

Variable model_class : JsonSchemaObject.
Variable parent : Heap -> ascii -> Result State.
Variable self : addr.
Variable rest : list addr.

(** [root.finish_parser(character_to_pass_to_parent)], called by the
    top frame. *)
Definition finish_parser (h : Heap) (character_to_pass_to_parent : option ascii)
    : Result State :=
  match rest, character_to_pass_to_parent with
  | _ :: _, Some c => parent h c
  | _, _ => Ok (h, rest)
  end.

(** The three tests of the [PARSING_KEY_OR_END] branch are written one
    after the other in the source; a character passes at most one of
    them, so they are chained here. *)
Definition Object_add_character (h : Heap) (o : ObjectParsingState) (c : ascii)
    : Result State :=
  let stay (o' : ObjectParsingState) : Result State :=
    Ok (<[self := ObjectFrame o']> h, self :: rest) in
  let leave : Result State :=
    finish_parser (<[self := ObjectFrame (set_current_stage END_OBJECT o)]> h) None in
  if is_py_space c then Ok (h, self :: rest)
  else
    match current_stage o with
    | START_OBJECT =>
        if Ascii.eqb c "{" then stay (set_current_stage PARSING_KEY_OR_END o)
        else Ok (h, self :: rest)
    | PARSING_KEY_OR_END =>
        if Ascii.eqb c "}" then leave
        else if Ascii.eqb c dquote then
          let possible_keys :=
            match properties (schema_object o) with
            | Some p => Some (set_difference (keys p) (existing_keys o))
            | None => None
            end in
          let key_parser := StringParsingState_init [":"] possible_keys false in
          let o' := mkObject (schema_object o) PARSING_KEY_OR_END (existing_keys o)
                             (current_key o) (Some (length h)) in
          Ok (push (StringFrame key_parser) (<[self := ObjectFrame o']> h, self :: rest))
        else if Ascii.eqb c ":" then
          try key :=
            match current_key_parser o with
            | None => Raise AttributeError
            | Some a =>
                match h !! a with
                | Some f =>
                    match base f with
                    | Some b => Ok (parsed_string b)
                    | None => Raise AttributeError
                    end
                | None => Raise AttributeError
                end
            end in
          let keys' := existing_keys o ++ [key] in
          try value :=
            match properties (schema_object o) with
            | None => Ok (additionalProperties (schema_object o), true)
            | Some p =>
                let possible_keys := set_difference (keys p) keys' in
                match dict_get p key with
                | Some v => Ok (Some v, negb (Nat.eqb (length possible_keys) 0))
                | None => Raise KeyError
                end
            end in
          let ending := ["}"] ++ (if value.2 then [","] else []) in
          try value_parser := get_parser model_class value.1 ending in
          let o' := mkObject (schema_object o) PARSING_VALUE keys' (Some key) None in
          Ok (push value_parser (<[self := ObjectFrame o']> h, self :: rest))
        else Ok (h, self :: rest)
    | PARSING_VALUE =>
        if Ascii.eqb c dquote then stay (set_current_stage PARSING_SEPARATOR_OR_END o)
        else if Ascii.eqb c "," then stay (set_current_stage PARSING_KEY_OR_END o)
        else if Ascii.eqb c "}" then leave
        else Ok (h, self :: rest)
    | PARSING_SEPARATOR_OR_END =>
        if Ascii.eqb c "," then stay (set_current_stage PARSING_KEY_OR_END o)
        else if Ascii.eqb c "}" then leave
        else Ok (h, self :: rest)
    | END_OBJECT => Ok (h, self :: rest)
    end.

(** [PrimitiveParsingState.add_character] *)
Definition Primitive_add_character (h : Heap) (f : Frame) (b : PrimitiveParsingState)
    (c : ascii) : Result State :=
  if can_end f && char_in c (ending_characters b) then finish_parser h (Some c)
  else Ok (modify self (set_parsed_string (fun s => s ++ [c])) h, self :: rest).

(** [NumberParsingState.add_character]: the assignment after the call
    of the base method is made on the frame [self], popped or not. *)
Definition Number_add_character (h : Heap) (n : NumberParsingState) (c : ascii)
    : Result State :=
  try st := Primitive_add_character h (NumberFrame n) (number_base n) c in
  if Ascii.eqb c "." then
    Ok (modify self (fun f =>
          match f with
          | NumberFrame n' =>
              NumberFrame (mkNumber (number_base n') (allow_floating_point n') true)
          | _ => f
          end) st.1, st.2)
  else Ok st.

(** [StringParsingState.add_character] *)
Definition String_add_character (h : Heap) (s : StringParsingState) (c : ascii)
    : Result State :=
  try st := Primitive_add_character h (StringFrame s) (string_base s) c in
  if Ascii.eqb c dquote then
    Ok (modify self (fun f =>
          match f with
          | StringFrame s' =>
              if negb (seen_opening_quote s') then
                StringFrame (mkString (mkPrimitive [] (ending_characters (string_base s')))
                                      (allowed_strings s') (seen_closing_quote s') true)
              else
                StringFrame (mkString (mkPrimitive (removelast (parsed_string (string_base s')))
                                                   (ending_characters (string_base s')))
                                      (allowed_strings s') true (seen_opening_quote s'))
          | _ => f
          end) st.1, st.2)
  else Ok st.

Definition set_seen_list_opener (f : Frame) : Frame :=
  match f with
  | ListFrame l => ListFrame (mkList (list_base l) (list_member_type l) true (seen_list_closer l))
  | _ => f
  end.

Definition set_seen_list_closer (f : Frame) : Frame :=
  match f with
  | ListFrame l => ListFrame (mkList (list_base l) (list_member_type l) (seen_list_opener l) true)
  | _ => f
  end.

(** [ListParsingState.add_character]: [seen_list_closer] and
    [list_member_type] are read again from the frame [self] after the
    call of the base method; a new item frame goes on top of whatever
    the stack is by then. *)
Definition List_add_character (h : Heap) (l : ListParsingState) (c : ascii)
    : Result State :=
  try st :=
    (if seen_list_closer l
     then Primitive_add_character h (ListFrame l) (list_base l) c
     else Ok (h, self :: rest)) in
  let now : ListParsingState :=
    match st.1 !! self with
    | Some (ListFrame l') => l'
    | _ => l
    end in
  if Ascii.eqb c "[" then
    try item := get_parser model_class (list_member_type now) ["]"; ","] in
    Ok (push item (modify self set_seen_list_opener st.1, st.2))
  else if Ascii.eqb c "]" then
    Ok (modify self set_seen_list_closer st.1, st.2)
  else if Ascii.eqb c "," then
    if negb (seen_list_closer now) then
      try item := get_parser model_class (list_member_type now) ["]"; ","] in
      Ok (push item st)
    else Ok st
  else Ok st.

End Frames.

(** [object_stack[-1].add_character(c)]: the method of the top frame,
    by the class of the frame.  The recursion is on the stack: the
    only call on another frame is the one [finish_parser] makes on the
    frame below after the pop.  An address outside the heap is not a
    Python object; the parser never holds one. *)
Fixpoint Frame_add_character (model_class : JsonSchemaObject) (stack : list addr)
    (h : Heap) (c : ascii) {struct stack} : Result State :=
  match stack with
  | [] => Raise IndexError
  | self :: rest =>
      let parent := Frame_add_character model_class rest in
      match h !! self with
      | None => Raise AttributeError
      | Some (ObjectFrame o) => Object_add_character model_class parent self rest h o c
      | Some (NumberFrame n) => Number_add_character parent self rest h n c
      | Some (StringFrame s) => String_add_character parent self rest h s c
      | Some (ListFrame l) => List_add_character model_class parent self rest h l c
      end
  end.

(** ** The parser root *)

Record JsonSchemaParser : Type := mkParser {
  model_class : JsonSchemaObject;
  heap : Heap;
  object_stack : list addr
}.

(** [JsonSchemaParser(json_schema)] without an existing stack. *)
Definition JsonSchemaParser_init (json_schema : JsonSchemaObject) : JsonSchemaParser :=
  mkParser json_schema [ObjectFrame (ObjectParsingState_init json_schema)] [0].

(** [deepcopy(self)]: the clone is built by
    [JsonSchemaParser(self.model_class, deepcopy(self.object_stack))],
    and the constructor takes [existing_stack or [ObjectParsingState(...)]]:
    a copied stack that is empty is replaced by a new stack holding one
    new object frame.  Otherwise the copy has the frames of the
    original, with the same references between them. *)
Definition deepcopy (p : JsonSchemaParser) : JsonSchemaParser :=
  match object_stack p with
  | [] => JsonSchemaParser_init (model_class p)
  | _ :: _ => p
  end.

Definition add_character (p : JsonSchemaParser) (new_character : ascii)
    : Result JsonSchemaParser :=
  let clone := deepcopy p in
  try st := Frame_add_character (model_class clone) (object_stack clone) (heap clone)
                                new_character in
  Ok (mkParser (model_class clone) st.1 st.2).

Definition get_allowed_characters (p : JsonSchemaParser) : str :=
  match object_stack p with
  | [] => []
  | top :: _ =>
      match heap p !! top with
      | Some f => Frame_get_allowed_characters f
      | None => []
      end
  end.

Definition JsonSchemaParser_can_end (p : JsonSchemaParser) : bool :=
  match object_stack p with
  | [] => true
  | _ :: _ => false
  end.

(** Feeding a string, one character at a time. *)
Fixpoint feed (p : JsonSchemaParser) (s : str) : Result JsonSchemaParser :=
  match s with
  | [] => Ok p
  | c :: s' => try p' := add_character p c in feed p' s'
  end.

(** Test inputs are written with ['] for the double quote. *)
Definition json (s : string) : str :=
  List.map (fun c => if Ascii.eqb c "'" then dquote else c) (lit s).

(** ** The driver loop and the caller contract

    The caller commits a character only if it is one of
    [get_allowed_characters()].  [drive] is that loop; it gives [None]
    when a character is not allowed or [add_character] raised. *)
Fixpoint drive (p : JsonSchemaParser) (s : str) : option JsonSchemaParser :=
  match s with
  | [] => Some p
  | c :: s' =>
      if char_in c (get_allowed_characters p) then
        match add_character p c with
        | Ok p' => drive p' s'
        | Raise _ => None
        end
      else None
  end.

(** The parsers a caller that keeps the contract can hold. *)
Inductive reachable (schema : JsonSchemaObject) : JsonSchemaParser -> Prop :=
  | reachable_init : reachable schema (JsonSchemaParser_init schema)
  | reachable_step p c p' :
      reachable schema p ->
      In c (get_allowed_characters p) ->
      add_character p c = Ok p' ->
      reachable schema p'.

(** The frame on top of the stack. *)
Definition top_frame (p : JsonSchemaParser) : option Frame :=
  match object_stack p with
  | [] => None
  | top :: _ => heap p !! top
  end.

(** ** Schemas of the scenarios *)

Definition schema_of_type (t : string) : JsonSchemaObject :=
  mkSchema (Some (lit t)) None None None None None [].

Definition object_schema (props : list (str * JsonSchemaObject)) : JsonSchemaObject :=
  mkSchema (Some (lit "object")) (Some props) None None None None [].

(** [{ "type": "object", "properties": { "n": { "type": "integer" } } }] *)
Definition schema_n : JsonSchemaObject :=
  object_schema [(lit "n", schema_of_type "integer")].

(** [{ "type": "object", "properties": { "flag": { "type": "string",
    "enum": ["yes", "no"] } } }] *)
Definition schema_flag : JsonSchemaObject :=
  object_schema
    [(lit "flag",
      mkSchema (Some (lit "string")) None None None (Some [lit "yes"; lit "no"]) None [])].

(** [{ "type": "object", "properties": { "o": { "type": "object",
    "properties": {} } } }] *)
Definition schema_o : JsonSchemaObject :=
  object_schema [(lit "o", object_schema [])].

(** A value schema [{ "$ref": "#/definitions/Inner" }]. *)
Definition schema_ref_inner : JsonSchemaObject :=
  mkSchema None None None None None (Some (lit "#/definitions/Inner")) [].

(** A root schema whose [definitions] hold [Inner]. *)
Definition schema_with_definitions : JsonSchemaObject :=
  mkSchema (Some (lit "object")) (Some [(lit "v", schema_ref_inner)]) None None None None
           [(lit "definitions", [(lit "Inner", object_schema [(lit "x", schema_of_type "integer")])])].

(** ** JSON number literals (RFC 8259, section 6)

    [number = [ minus ] int [ frac ] [ exp ]], as the automaton that
    reads it. *)
Module JsonNumber.

Inductive state : Type :=
  | Start | Minus | Zero | Int | Dot | Frac | Exp | ExpSign | ExpDigits | Dead.

Definition is_digit (c : ascii) : bool := char_in c digits.

Definition step (q : state) (c : ascii) : state :=
  match q with
  | Start =>
      if Ascii.eqb c "-" then Minus
      else if Ascii.eqb c "0" then Zero
      else if is_digit c then Int else Dead
  | Minus =>
      if Ascii.eqb c "0" then Zero
      else if is_digit c then Int else Dead
  | Zero =>
      if Ascii.eqb c "." then Dot
      else if Ascii.eqb c "e" || Ascii.eqb c "E" then Exp else Dead
  | Int =>
      if is_digit c then Int
      else if Ascii.eqb c "." then Dot
      else if Ascii.eqb c "e" || Ascii.eqb c "E" then Exp else Dead
  | Dot => if is_digit c then Frac else Dead
  | Frac =>
      if is_digit c then Frac
      else if Ascii.eqb c "e" || Ascii.eqb c "E" then Exp else Dead
  | Exp =>
      if Ascii.eqb c "-" || Ascii.eqb c "+" then ExpSign
      else if is_digit c then ExpDigits else Dead
  | ExpSign => if is_digit c then ExpDigits else Dead
  | ExpDigits => if is_digit c then ExpDigits else Dead
  | Dead => Dead
  end.

Definition run (q : state) (s : str) : state := fold_left step s q.

Definition accepting (q : state) : bool :=
  match q with
  | Zero | Int | Frac | ExpDigits => true
  | _ => false
  end.

(** [s] is a JSON number literal. *)
Definition literal (s : str) : bool := accepting (run Start s).

(** [s] is a prefix of some JSON number literal. *)
Definition valid_prefix (s : str) : Prop := exists t, literal (s ++ t) = true.

End JsonNumber.

(** ** What the number frame keeps of a number *)

Definition is_digit (c : ascii) : bool := char_in c digits.

(** An optional leading minus sign, then digits and decimal points. *)
Definition number_shape (s : str) : bool :=
  match s with
  | [] => true
  | c :: t =>
      (is_digit c || Ascii.eqb c "-" || Ascii.eqb c ".")
      && forallb (fun d => is_digit d || Ascii.eqb d ".") t
  end.

(** The number of decimal points of a string. *)
Definition decimal_points (s : str) : nat :=
  length (List.filter (Ascii.eqb ".") s).

(** ** Invariants of the heap and the stack *)

(** Every ending character is one of [}], [,], []] and [:]. *)
Definition ending_ok (e : str) : Prop :=
  forall c, In c e -> In c (lit "},]:").

Definition Number_ok (n : NumberParsingState) : Prop :=
  let s := parsed_string (number_base n) in
  number_shape s = true
  /\ decimal_points s <= 1
  /\ (seen_decimal_point n = false -> decimal_points s = 0)
  /\ (allow_floating_point n = false -> decimal_points s = 0).

Definition good (f : Frame) : Prop :=
  match f with
  | ObjectFrame _ => True
  | NumberFrame n => ending_ok (ending_characters (number_base n)) /\ Number_ok n
  | StringFrame s => ending_ok (ending_characters (string_base s))
  | ListFrame l => ending_ok (ending_characters (list_base l))
  end.

(** Object and list frames are the ones that push frames above them. *)
Definition is_container (f : Frame) : Prop :=
  match f with
  | ObjectFrame _ | ListFrame _ => True
  | _ => False
  end.

Definition containers (h : Heap) (stack : list addr) : Prop :=
  forall a, In a stack -> exists f, h !! a = Some f /\ is_container f.

(** What an assignment to a field keeps of a frame: its class, and a
    list closer once seen. *)
Definition frame_le (f f' : Frame) : Prop :=
  match f, f' with
  | ObjectFrame _, ObjectFrame _ => True
  | NumberFrame _, NumberFrame _ => True
  | StringFrame _, StringFrame _ => True
  | ListFrame l, ListFrame l' => seen_list_closer l = true -> seen_list_closer l' = true
  | _, _ => False
  end.

Definition heap_le (h h' : Heap) : Prop :=
  forall a f, h !! a = Some f -> exists f', h' !! a = Some f' /\ frame_le f f'.

Definition stack_inv (st : State) : Prop :=
  match st.2 with
  | [] => True
  | top :: rest => (exists f, st.1 !! top = Some f) /\ containers st.1 rest
  end.

Definition Inv (p : JsonSchemaParser) : Prop :=
  Forall good (heap p) /\ stack_inv (heap p, object_stack p).

(** ** The enumeration of a string frame, in the words of the spec

    The next characters of the members of [strings] that continue
    [parsed], and the closing quote when [parsed] is a member. *)
Definition enum_next (strings : list str) (parsed : str) (c : ascii) : Prop :=
  (exists m tail, In m strings /\ m = parsed ++ c :: tail)
  \/ (c = dquote /\ In parsed strings).

(** ** Frames as the constructors leave them

    [fresh_frame ending f]: [f] is a frame as one of the four
    constructors called by [get_parser] builds it. *)
Definition fresh_frame (ending : str) (f : Frame) : Prop :=
  (exists allowed, f = StringFrame (StringParsingState_init ending allowed true))
  \/ (exists schema, f = ObjectFrame (ObjectParsingState_init schema))
  \/ (exists allow_fp, f = NumberFrame (NumberParsingState_init ending allow_fp))
  \/ (exists member, f = ListFrame (ListParsingState_init ending member)).

(** What a step of a frame keeps: the frames stay good, no frame
    changes class, and the stack keeps its shape. *)
Definition step_ok (h : Heap) (st : State) : Prop :=
  Forall good st.1 /\ heap_le h st.1 /\ stack_inv st.

(** The number frame after [parsed_string += c] and the test for the
    decimal point. *)
Definition number_after (n : NumberParsingState) (c : ascii) : NumberParsingState :=
  mkNumber (mkPrimitive (parsed_string (number_base n) ++ [c])
                        (ending_characters (number_base n)))
           (allow_floating_point n)
           (if Ascii.eqb c "." then true else seen_decimal_point n).

(** [{ "type": "object", "properties": { "a": { "type": "array",
    "items": { "type": "number" } } } }] *)
Definition schema_a : JsonSchemaObject :=
  object_schema
    [(lit "a",
      mkSchema (Some (lit "array")) None None (Some (schema_of_type "number")) None None [])].

(** The parser after a run of the driver, for the examples. *)
Definition after (schema : JsonSchemaObject) (s : string) : JsonSchemaParser :=
  default (JsonSchemaParser_init schema) (drive (JsonSchemaParser_init schema) (json s)).

(** ** What one character changes

    The string frame after [parsed_string += c] and the handling of
    the quote ([StringParsingState.add_character] when the base method
    does not pop). *)
Definition string_after (s : StringParsingState) (c : ascii) : StringParsingState :=
  let parsed := parsed_string (string_base s) ++ [c] in
  let ending := ending_characters (string_base s) in
  if Ascii.eqb c dquote then
    if negb (seen_opening_quote s) then
      mkString (mkPrimitive [] ending) (allowed_strings s) (seen_closing_quote s) true
    else
      mkString (mkPrimitive (removelast parsed) ending) (allowed_strings s) true
               (seen_opening_quote s)
  else
    mkString (mkPrimitive parsed ending) (allowed_strings s)
             (seen_closing_quote s) (seen_opening_quote s).

(** The assignments to [current_stage] in [ObjectParsingState.add_character]. *)
Inductive stage_step : ObjectParsingStage -> ObjectParsingStage -> Prop :=
  | stage_open : stage_step START_OBJECT PARSING_KEY_OR_END
  | stage_key_end : stage_step PARSING_KEY_OR_END END_OBJECT
  | stage_value_separator : stage_step PARSING_VALUE PARSING_SEPARATOR_OR_END
  | stage_value_key : stage_step PARSING_VALUE PARSING_KEY_OR_END
  | stage_value_end : stage_step PARSING_VALUE END_OBJECT
  | stage_separator_key : stage_step PARSING_SEPARATOR_OR_END PARSING_KEY_OR_END
  | stage_separator_end : stage_step PARSING_SEPARATOR_OR_END END_OBJECT.

(** Every way a method changes the frame it runs on, when the top
    frame receives an allowed character. *)
Inductive frame_update : Frame -> Frame -> Prop :=
  | update_stage o st :
      stage_step (current_stage o) st ->
      frame_update (ObjectFrame o) (ObjectFrame (set_current_stage st o))
  | update_key_parser o a :
      current_stage o = PARSING_KEY_OR_END ->
      frame_update (ObjectFrame o)
        (ObjectFrame (mkObject (schema_object o) PARSING_KEY_OR_END (existing_keys o)
                               (current_key o) (Some a)))
  | update_value o key :
      current_stage o = PARSING_KEY_OR_END ->
      (forall p, properties (schema_object o) = Some p -> In key (keys p)) ->
      frame_update (ObjectFrame o)
        (ObjectFrame (mkObject (schema_object o) PARSING_VALUE (existing_keys o ++ [key])
                               (Some key) None))
  | update_list_parsed l c :
      frame_update (ListFrame l) (set_parsed_string (fun s => s ++ [c]) (ListFrame l))
  | update_list_opener l :
      frame_update (ListFrame l) (set_seen_list_opener (ListFrame l))
  | update_list_closer l :
      frame_update (ListFrame l) (set_seen_list_closer (ListFrame l))
  | update_number n c :
      In c (Number_get_allowed_primitive_characters n) ->
      frame_update (NumberFrame n) (NumberFrame (number_after n c))
  | update_string s c :
      In c (String_get_allowed_primitive_characters s) ->
      frame_update (StringFrame s) (StringFrame (string_after s c)).

Inductive frame_updates : Frame -> Frame -> Prop :=
  | updates_refl f : frame_updates f f
  | updates_step f g k : frame_updates f g -> frame_update g k -> frame_updates f k.

(** The ending characters the code passes to a constructor. *)
Definition endings : list str := [[":"]; ["}"]; ["}"; ","]; ["]"; ","]].

(** The frames the code constructs: the key parser of an object frame
    and the frames of the dispatcher; the root frame is one of the
    latter. *)
Definition initial (f : Frame) : Prop :=
  (exists allowed, f = StringFrame (StringParsingState_init [":"] allowed false))
  \/ (exists ending, In ending [["}"]; ["}"; ","]; ["]"; ","]] /\ fresh_frame ending f).

(** Every frame of [h'] is a frame of [h] after some updates, or a
    frame constructed since. *)
Definition heap_evolves (h h' : Heap) : Prop :=
  forall a f',
    h' !! a = Some f' ->
    (exists f, h !! a = Some f /\ frame_updates f f')
    \/ (length h <= a /\ exists f, initial f /\ frame_updates f f').

(** What a step leaves of the heap and of the stack: frames are
    updated or added, at most one is added, and the stack is a suffix
    of the old one, with at most one frame pushed on it. *)
Definition footprint (h : Heap) (stack : list addr) (st : State) : Prop :=
  heap_evolves h st.1
  /\ length h <= length st.1 <= S (length h)
  /\ (st.2 `suffix_of` stack \/ exists a tl, st.2 = a :: tl /\ tl `suffix_of` stack).

(** ** Invariants of single frames *)

(** The ending characters of a frame are among the ones the code
    passes to the constructors. *)
Definition ending_known (f : Frame) : Prop :=
  match base f with
  | Some b => In (ending_characters b) endings
  | None => True
  end.

(** The keys an object frame has seen are names of its properties map,
    when it has one. *)
Definition keys_known (f : Frame) : Prop :=
  match f with
  | ObjectFrame o =>
      forall p, properties (schema_object o) = Some p ->
                forall k, In k (existing_keys o) -> In k (keys p)
  | _ => True
  end.

(** A number frame that has seen a decimal point holds one in its
    string. *)
Definition point_seen (f : Frame) : Prop :=
  match f with
  | NumberFrame n =>
      seen_decimal_point n = true -> In "." (parsed_string (number_base n))
  | _ => True
  end.

(** The string of a string frame holds no quote, and is empty before
    the opening quote. *)
Definition quote_free (f : Frame) : Prop :=
  match f with
  | StringFrame s =>
      ~ In dquote (parsed_string (string_base s))
      /\ (seen_opening_quote s = false -> parsed_string (string_base s) = [])
  | _ => True
  end.

(** A string frame with an enumeration: no closing quote before the
    opening one; between the quotes the string begins a member. *)
Definition enum_prefix (f : Frame) : Prop :=
  match f with
  | StringFrame s =>
      (seen_opening_quote s = false -> seen_closing_quote s = false)
      /\ forall members,
           allowed_strings s = Some members -> members <> [] ->
           seen_opening_quote s = true ->
           seen_closing_quote s = false ->
           exists m tail, In m members /\ m = parsed_string (string_base s) ++ tail
  | _ => True
  end.

(** A string frame with an enumeration whose members hold no quote:
    after the closing quote the string is a member. *)
Definition enum_member (f : Frame) : Prop :=
  match f with
  | StringFrame s =>
      (seen_opening_quote s = false -> seen_closing_quote s = false)
      /\ forall members,
           allowed_strings s = Some members -> members <> [] ->
           (forall m, In m members -> ~ In dquote m) ->
           seen_closing_quote s = true ->
           In (parsed_string (string_base s)) members
  | _ => True
  end.

(** ** More schemas for the examples *)

(** [{ "type": "object", "properties": {} }] *)
Definition schema_empty : JsonSchemaObject := object_schema [].

(** [{ "type": "object", "properties": { "a": { "type": "array" } } }]:
    an array without [items]. *)
Definition schema_array_without_items : JsonSchemaObject :=
  object_schema [(lit "a", schema_of_type "array")].

(** The names of the types the dispatcher knows. *)
Definition supported_types : list str :=
  [lit "string"; lit "object"; lit "integer"; lit "number"; lit "array"].

(** [{ "type": "object", "additionalProperties": { "type": "string" } }]:
    a dictionary schema. *)
Definition schema_dictionary : JsonSchemaObject :=
  mkSchema (Some (lit "object")) None (Some (schema_of_type "string")) None None None [].

(** ** Lists and their items *)

(** [{ "type": "object", "properties": { "a": { "type": "array",
    "items": { "type": "boolean" } } } }]: an array whose items the
    dispatcher does not support. *)
Definition schema_array_of_booleans : JsonSchemaObject :=
  object_schema
    [(lit "a",
      mkSchema (Some (lit "array")) None None (Some (schema_of_type "boolean")) None None [])].

(** A frame that has all of its value: an object frame at the end, a
    number frame that can end, a string or list frame that has seen
    its closer. *)
Definition ended (f : Frame) : Prop :=
  match f with
  | ObjectFrame o => current_stage o = END_OBJECT
  | NumberFrame n => Number_can_end n = true
  | StringFrame s => seen_closing_quote s = true
  | ListFrame l => seen_list_closer l = true
  end.

(** [built_as f0 f]: [f] has the class of [f0] and the fields the
    constructor of [f0] received (the schema, the ending characters,
    the enumeration, the item schema). *)
Definition built_as (f0 f : Frame) : Prop :=
  match f0, f with
  | ObjectFrame o0, ObjectFrame o => schema_object o = schema_object o0
  | NumberFrame n0, NumberFrame n =>
      allow_floating_point n = allow_floating_point n0
      /\ ending_characters (number_base n) = ending_characters (number_base n0)
  | StringFrame s0, StringFrame s =>
      allowed_strings s = allowed_strings s0
      /\ ending_characters (string_base s) = ending_characters (string_base s0)
  | ListFrame l0, ListFrame l =>
      list_member_type l = list_member_type l0
      /\ ending_characters (list_base l) = ending_characters (list_base l0)
  | _, _ => False
  end.

(** Addresses of a stack, the newest on top. *)
Fixpoint descending (stack : list addr) : Prop :=
  match stack with
  | [] => True
  | a :: below => (forall b, In b below -> b < a) /\ descending below
  end.

(** The list frame [l] at address [a]: before its opener it is the
    newest frame and the top of the stack; after it, the next frame of
    the heap is its first item, built by the dispatcher for the item
    schema; after its closer, that first item is off the stack, and
    the list frame is on top if it is on the stack at all. *)
Definition list_ok (root : JsonSchemaObject) (h : Heap) (stack : list addr)
    (a : addr) (l : ListParsingState) : Prop :=
  (seen_list_opener l = false ->
   seen_list_closer l = false /\ S a = length h /\ exists below, stack = a :: below)
  /\ (seen_list_opener l = true ->
      exists f0 item,
        get_parser root (list_member_type l) ["]"; ","] = Ok f0
        /\ h !! S a = Some item /\ built_as f0 item)
  /\ (seen_list_closer l = true ->
      seen_list_opener l = true
      /\ ~ In (S a) stack
      /\ (In a stack -> exists below, stack = a :: below)).

Definition items_ok (root : JsonSchemaObject) (h : Heap) (stack : list addr) : Prop :=
  descending stack
  /\ (forall a, In a stack -> a < length h)
  /\ (forall a f, h !! a = Some f -> ~ In a stack -> ended f)
  /\ (forall a l, h !! a = Some (ListFrame l) -> list_ok root h stack a l).

(** What the method of the frame [f] at address [a] may do to a list
    frame: [g] is the frame after the step, [items] the frames pushed
    (none or one) and [keep] tells whether the frame stays on the
    stack. *)
Definition flags_ok (root : JsonSchemaObject) (f g : Frame) (items : list Frame)
    (keep : bool) : Prop :=
  match f, g with
  | ListFrame l, ListFrame l' =>
      list_member_type l' = list_member_type l
      /\ ((seen_list_opener l' = seen_list_opener l
           /\ seen_list_closer l' = seen_list_closer l
           /\ (seen_list_opener l = false -> items = [])
           /\ (seen_list_closer l = true -> items = [] /\ keep = false)
           /\ (seen_list_closer l = false -> keep = true))
          \/ (seen_list_opener l = false /\ seen_list_opener l' = true
              /\ seen_list_closer l = false /\ seen_list_closer l' = false
              /\ keep = true
              /\ exists item,
                   items = [item]
                   /\ get_parser root (list_member_type l) ["]"; ","] = Ok item)
          \/ (seen_list_opener l = true /\ seen_list_opener l' = true
              /\ seen_list_closer l = false /\ seen_list_closer l' = true
              /\ keep = true /\ items = []))
  | ListFrame _, _ => False
  | _, _ => keep = false -> ended g /\ items = []
  end.

(** The heap and the stack after the method of the frame at address
    [a], the top of the stack [a :: below], has left [g] in its place,
    constructed [items] and kept itself on the stack or not. *)
Definition after_step (h : Heap) (a : addr) (below : list addr) (g : Frame)
    (items : list Frame) (keep : bool) : State :=
  (<[a := g]> h ++ items,
   match items with [] => [] | _ :: _ => [length h] end
   ++ (if keep then a :: below else below)).

(** A list frame as its constructor leaves it has seen neither bracket. *)
Definition unopened (f : Frame) : Prop :=
  forall l, f = ListFrame l -> seen_list_opener l = false /\ seen_list_closer l = false.

(* ================================================================= *)
(** * Properties *)

(** ** Helper lemmas on strings *)

Lemma char_in_In (c : ascii) (s : str) : char_in c s = true <-> In c s.
Proof.
  unfold char_in. rewrite existsb_exists. split.
  - intros (d & Hd & E). apply Ascii.eqb_eq in E. now subst.
  - intros H. exists c. split; [assumption | apply Ascii.eqb_refl].
Qed.

Lemma char_in_false (c : ascii) (s : str) : char_in c s = false <-> ~ In c s.
Proof.
  rewrite <- char_in_In. destruct (char_in c s); split; congruence.
Qed.

Lemma str_eqb_eq (s t : str) : str_eqb s t = true <-> s = t.
Proof.
  revert t. induction s as [|a s IH]; intros [|b t]; simpl; try (split; congruence).
  rewrite andb_true_iff, Ascii.eqb_eq, IH. split.
  - intros [-> ->]. reflexivity.
  - intros E. injection E. auto.
Qed.

Lemma str_in_In (x : str) (l : list str) : str_in x l = true <-> In x l.
Proof.
  unfold str_in. rewrite existsb_exists. split.
  - intros (y & Hy & E). apply str_eqb_eq in E. now subst.
  - intros H. exists x. split; [assumption | now apply str_eqb_eq].
Qed.

Lemma last_cons {A} (c : A) (s : list A) (d : A) :
  List.last (c :: s) d = List.last s c.
Proof.
  revert c d. induction s as [|b s IH]; intros c d; [reflexivity|].
  change (List.last (c :: b :: s) d) with (List.last (b :: s) d).
  now rewrite !IH.
Qed.

(** ** Scenario (a): feeding [{"n":42}] *)

(** C1. For the schema with the single integer property [n], feeding
    the characters of [{"n":42}] one at a time: before each of the
    eight characters the allowed characters are non-empty and contain
    the character about to be fed; after the final [}] the stack is
    empty and [can_end()] is true. *)
Theorem scenario_n_42 :
  (forall k, k < 8 ->
     exists p c,
       feed (JsonSchemaParser_init schema_n) (take k (json "{'n':42}")) = Ok p
       /\ json "{'n':42}" !! k = Some c
       /\ get_allowed_characters p <> []
       /\ In c (get_allowed_characters p))
  /\ exists p,
       feed (JsonSchemaParser_init schema_n) (json "{'n':42}") = Ok p
       /\ object_stack p = []
       /\ JsonSchemaParser_can_end p = true.
Proof.
  split.
  - intros k Hk.
    do 8 (destruct k as [|k];
          [ eexists; eexists; split; [vm_compute; reflexivity|];
            split; [vm_compute; reflexivity|];
            split; [vm_compute; discriminate | apply char_in_In; vm_compute; reflexivity] |]).
    lia.
  - eexists. split; [vm_compute; reflexivity|]. split; reflexivity.
Qed.

Lemma scenario_n_42_witness :
  3 < 8 /\
  exists p c,
    feed (JsonSchemaParser_init schema_n) (take 3 (json "{'n':42}")) = Ok p
    /\ json "{'n':42}" !! 3 = Some c
    /\ get_allowed_characters p <> []
    /\ In c (get_allowed_characters p).
Proof.
  split; [lia | apply (proj1 scenario_n_42 3); lia].
Defined.

(** ** Scenario (b): the allowed characters after [{"n":4] *)

(** C2, as the spec states it, fails: [n] is the only property, so no
    key can follow and [,] is not an ending character of the number. *)
Lemma scenario_n_4_comma_counterexample :
  ~ (exists p,
       feed (JsonSchemaParser_init schema_n) (json "{'n':4") = Ok p
       /\ (forall d, In d digits -> In d (get_allowed_characters p))
       /\ In "," (get_allowed_characters p)
       /\ In "}" (get_allowed_characters p)
       /\ ~ In "." (get_allowed_characters p)).
Proof.
  intros (p & Hp & _ & Hcomma & _).
  vm_compute in Hp. injection Hp as <-.
  vm_compute in Hcomma. intuition discriminate.
Qed.

(** C2 (amended). After [{"n":4] the allowed characters are exactly
    the ten digits and [}]: every digit and [}] are allowed, neither
    [,] nor [.] is. *)
Theorem scenario_n_4_allowed :
  exists p,
    feed (JsonSchemaParser_init schema_n) (json "{'n':4") = Ok p
    /\ (forall c, In c (get_allowed_characters p) <-> In c digits \/ c = "}")
    /\ ~ In "," (get_allowed_characters p)
    /\ ~ In "." (get_allowed_characters p).
Proof.
  eexists. split; [vm_compute; reflexivity|].
  split; [|split].
  - intros c. vm_compute. intuition congruence.
  - vm_compute. intuition discriminate.
  - vm_compute. intuition discriminate.
Qed.

(** ** Over-consumption *)

(** C3 (what the code does). A parser whose stack is empty does not
    refuse a further character: the copy made by [add_character]
    starts from a new stack holding one new object frame for the root
    schema, and that frame takes the character.  After [{] the new
    frame waits for a key, as at the start of a document. *)
Theorem add_character_after_can_end (p : JsonSchemaParser) (c : ascii) :
  JsonSchemaParser_can_end p = true ->
  exists p',
    add_character p c = Ok p'
    /\ add_character p c = add_character (JsonSchemaParser_init (model_class p)) c
    /\ object_stack p' = [0]
    /\ JsonSchemaParser_can_end p' = false
    /\ (c = "{" ->
        top_frame p' =
        Some (ObjectFrame (set_current_stage PARSING_KEY_OR_END
                             (ObjectParsingState_init (model_class p))))).
Proof.
  intros H. destruct p as [mc h stk]. destruct stk as [|a stk]; [|discriminate].
  unfold add_character, deepcopy. cbn -[is_py_space Ascii.eqb].
  unfold Object_add_character. cbn -[is_py_space Ascii.eqb].
  destruct (is_py_space c) eqn:Hs.
  - eexists. split; [reflexivity|]. repeat split.
    intros ->. discriminate.
  - destruct (Ascii.eqb c "{") eqn:Hc.
    + eexists. split; [reflexivity|]. repeat split.
    + eexists. split; [reflexivity|]. repeat split.
      intros ->. discriminate.
Qed.

Lemma add_character_after_can_end_witness :
  JsonSchemaParser_can_end (after schema_n "{'n':42}") = true /\
  exists p',
    add_character (after schema_n "{'n':42}") "{" = Ok p'
    /\ object_stack p' = [0]
    /\ JsonSchemaParser_can_end p' = false.
Proof.
  split; [reflexivity|].
  destruct (add_character_after_can_end (after schema_n "{'n':42}") "{" eq_refl)
    as (p' & H1 & _ & H2 & H3 & _).
  exists p'. auto.
Defined.

(** ** The number frame *)

(** C8. [can_end()] of a number frame is true exactly when
    [parsed_string] is non-empty and its last character is a digit. *)
Theorem Number_can_end_iff (n : NumberParsingState) :
  Number_can_end n = true <->
  exists s d, parsed_string (number_base n) = s ++ [d] /\ In d digits.
Proof.
  unfold Number_can_end. destruct (parsed_string (number_base n)) as [|c s].
  - split; [discriminate|]. intros (s & d & E & _). now destruct s.
  - rewrite char_in_In, <- (last_cons c s c). split.
    + intros H. exists (removelast (c :: s)), (List.last (c :: s) c).
      split; [|assumption]. now apply app_removelast_last.
    + intros (s' & d & -> & Hd). now rewrite last_last.
Qed.

(** ** The frame dispatcher and [$ref] *)

(** C9. For a value schema with no type and a non-empty [$ref]: when
    the extras of the root schema hold neither [definitions] nor
    [$defs] the dispatcher raises; when one of them is there
    ([definitions] first), the last path segment of the reference is
    looked up in it and the frame is a new object frame for the
    schema found. *)
Theorem get_parser_ref (root vs : JsonSchemaObject) (ending : str) :
  type vs = None ->
  truthy (ref vs) = true ->
  (dict_get (extras root) (lit "definitions") = None ->
   dict_get (extras root) (lit "$defs") = None ->
   get_parser root (Some vs) ending = Raise ValueError)
  /\ (forall definitions class_dict,
        dict_get (extras root) (lit "definitions") = Some definitions
        \/ (dict_get (extras root) (lit "definitions") = None
            /\ dict_get (extras root) (lit "$defs") = Some definitions) ->
        dict_get definitions (List.last (split "/" (default [] (ref vs))) []) = Some class_dict ->
        get_parser root (Some vs) ending
        = Ok (ObjectFrame (ObjectParsingState_init class_dict))).
Proof.
  intros Ht Hr. unfold get_parser, type_is. rewrite Ht, Hr. split.
  - intros -> ->. reflexivity.
  - intros defs cd [-> | [-> ->]] Hcd; cbn [bind]; now rewrite Hcd.
Qed.

Lemma get_parser_ref_witness :
  get_parser schema_n (Some schema_ref_inner) (lit "}") = Raise ValueError
  /\ get_parser schema_with_definitions (Some schema_ref_inner) (lit "}")
     = Ok (ObjectFrame (ObjectParsingState_init
                          (object_schema [(lit "x", schema_of_type "integer")]))).
Proof.
  split.
  - apply (proj1 (get_parser_ref schema_n schema_ref_inner (lit "}") eq_refl eq_refl));
      reflexivity.
  - apply (proj2 (get_parser_ref schema_with_definitions schema_ref_inner (lit "}")
                    eq_refl eq_refl)
             [(lit "Inner", object_schema [(lit "x", schema_of_type "integer")])]).
    + left. reflexivity.
    + reflexivity.
Defined.

(** ** Duplicate keys *)

(** C4 (what the code does). With the single property [o], after
    [{"o":{},] the object frame waits for a key, every property name is
    already in [existing_keys], and the quote is allowed all the same;
    the key parser then gets an empty enumeration, which it takes for
    no enumeration, so the key [o] is completed a second time and
    [{"o":{},"o":{}}] is accepted in full, each character being
    allowed when it is fed. *)
Theorem duplicate_key_accepted :
  (exists p o,
     drive (JsonSchemaParser_init schema_o) (json "{'o':{},") = Some p
     /\ top_frame p = Some (ObjectFrame o)
     /\ is_dictionary o = false
     /\ current_stage o = PARSING_KEY_OR_END
     /\ properties (schema_object o) = Some [(lit "o", object_schema [])]
     /\ existing_keys o = [lit "o"]
     /\ In dquote (get_allowed_characters p))
  /\ (exists p s,
        drive (JsonSchemaParser_init schema_o) (json "{'o':{},'") = Some p
        /\ top_frame p = Some (StringFrame s)
        /\ allowed_strings s = Some []
        /\ In "o" (get_allowed_characters p))
  /\ (exists p o,
        drive (JsonSchemaParser_init schema_o) (json "{'o':{},'o':") = Some p
        /\ heap p !! 0 = Some (ObjectFrame o)
        /\ existing_keys o = [lit "o"; lit "o"])
  /\ (exists p,
        drive (JsonSchemaParser_init schema_o) (json "{'o':{},'o':{}}") = Some p
        /\ JsonSchemaParser_can_end p = true).
Proof.
  split; [|split; [|split]].
  - eexists; eexists. split; [vm_compute; reflexivity|].
    split; [vm_compute; reflexivity|].
    repeat (split; [reflexivity|]).
    apply char_in_In. reflexivity.
  - eexists; eexists. split; [vm_compute; reflexivity|].
    split; [vm_compute; reflexivity|].
    split; [reflexivity|]. apply char_in_In. reflexivity.
  - eexists; eexists. split; [vm_compute; reflexivity|].
    split; [vm_compute; reflexivity|]. reflexivity.
  - eexists. split; [vm_compute; reflexivity|]. reflexivity.
Qed.

(** ** Assignments in the heap *)

Lemma modify_lookup (a : addr) (g : Frame -> Frame) (h : Heap) (f : Frame) :
  h !! a = Some f -> modify a g h = <[a := g f]> h.
Proof. intros E. unfold modify. now rewrite E. Qed.

Lemma modify_modify (a : addr) (g1 g2 : Frame -> Frame) (h : Heap) (f : Frame) :
  h !! a = Some f -> modify a g2 (modify a g1 h) = <[a := g2 (g1 f)]> h.
Proof.
  intros E. rewrite (modify_lookup a g1 h f E).
  rewrite (modify_lookup a g2 _ (g1 f)).
  - apply list_insert_insert_eq.
  - apply list_lookup_insert_eq. now apply lookup_lt_Some in E.
Qed.

Lemma bind_Ok {A} (m : Result A) : (try x := m in Ok x) = m.
Proof. now destruct m. Qed.

(** ** The enumeration of a string frame *)

Lemma py_set_In {A} (eqb : A -> A -> bool) (l : list A) (c : A) :
  (forall x y, eqb x y = true <-> x = y) ->
  In c (py_set eqb l) <-> In c l.
Proof.
  intros Heq. induction l as [|x l IH]; [reflexivity|].
  cbn [py_set In]. rewrite filter_In, IH. split.
  - intros [E | [H _]]; auto.
  - intros [E | H]; [now left|].
    destruct (eqb x c) eqn:Exc.
    + left. now apply Heq.
    + right. now split.
Qed.

Lemma startswith_spec (m p : str) :
  startswith m p = true <-> exists t, m = p ++ t.
Proof.
  revert m. induction p as [|b p IH]; intros m.
  - destruct m; (split; [intros _; eexists; reflexivity | reflexivity]).
  - destruct m as [|a m]; cbn [startswith].
    + split; [discriminate | intros (t & E); discriminate].
    + rewrite andb_true_iff, Ascii.eqb_eq, IH. split.
      * intros (-> & t & ->). now exists t.
      * intros (t & E). injection E as -> ->. split; [reflexivity | now exists t].
Qed.

Lemma enum_characters_In (strings : list str) (parsed : str) (c : ascii) :
  In c (flat_map (fun k : str => match k with [] => [] | d :: _ => [d] end)
          (List.map (drop (length parsed))
             (List.filter (fun m => startswith m parsed) strings)))
  <-> exists m tail, In m strings /\ m = parsed ++ c :: tail.
Proof.
  rewrite in_flat_map. split.
  - intros (k & Hk & Hc). apply in_map_iff in Hk as (m & <- & Hm).
    apply filter_In in Hm as (Hm & Hs). apply startswith_spec in Hs as (t & ->).
    rewrite drop_app_length in Hc. destruct t as [|d t]; [contradiction|].
    destruct Hc as [-> | []]. now exists (parsed ++ c :: t), t.
  - intros (m & t & Hm & ->). exists (c :: t). split; [|now left].
    apply in_map_iff. exists (parsed ++ c :: t). split; [apply drop_app_length|].
    apply filter_In. split; [assumption|]. apply startswith_spec. now eexists.
Qed.

(** C7, as the spec states it, fails before the opening quote: a new
    string value frame with the enumeration [yes], [no] allows the
    quote only, not the first characters of the members. *)
Lemma enum_before_opening_quote_counterexample :
  ~ (forall (s : StringParsingState) (strings : list str),
       allowed_strings s = Some strings ->
       strings <> [] ->
       seen_closing_quote s = false ->
       forall c,
         In c (Frame_get_allowed_characters (StringFrame s))
         <-> enum_next strings (parsed_string (string_base s)) c).
Proof.
  intros H.
  specialize (H (StringParsingState_init (lit "}") (Some [lit "yes"; lit "no"]) true)
                [lit "yes"; lit "no"] eq_refl).
  specialize (H ltac:(discriminate) eq_refl "y").
  assert (In "y" [dquote]) as [E | []]; [|discriminate E].
  apply H. left. exists (lit "yes"), (lit "es"). split; [now left | reflexivity].
Qed.

(** C7 (amended). For a string frame with a non-empty enumeration,
    after the opening quote and before the closing quote, the allowed
    characters are exactly the next characters of the members that
    continue [parsed_string], and the quote when [parsed_string] is
    itself a member.  For the schema with the property [flag] of
    enumeration [yes], [no], after the opening quote of the value and
    the character [y] the allowed characters are exactly [e]. *)
Theorem enum_allowed_characters :
  (forall (s : StringParsingState) (strings : list str),
     allowed_strings s = Some strings ->
     strings <> [] ->
     seen_opening_quote s = true ->
     seen_closing_quote s = false ->
     forall c,
       In c (Frame_get_allowed_characters (StringFrame s))
       <-> enum_next strings (parsed_string (string_base s)) c)
  /\ exists p,
       feed (JsonSchemaParser_init schema_flag) (json "{'flag':'y") = Ok p
       /\ get_allowed_characters p = ["e"].
Proof.
  split.
  - intros s strings Ha Hne Ho Hc c.
    unfold Frame_get_allowed_characters, Primitive_get_allowed_characters.
    cbn [base can_end]. unfold String_can_end, String_get_allowed_primitive_characters.
    rewrite Ho, Hc, Ha. cbn [negb truthy default].
    destruct strings as [|m0 strings]; [congruence|]. cbn [truthy].
    rewrite app_nil_r, in_app_iff, (py_set_In _ _ _ Ascii.eqb_eq), enum_characters_In.
    unfold enum_next. apply or_iff_compat_l.
    destruct (str_in _ _) eqn:Hin.
    + apply str_in_In in Hin. cbn [In]. intuition.
    + split; [intros []|]. intros [_ Hm]. apply str_in_In in Hm.
      unfold id in Hin. congruence.
  - eexists. split; vm_compute; reflexivity.
Qed.

Lemma enum_allowed_characters_witness :
  In "e" (Frame_get_allowed_characters
            (StringFrame (mkString (mkPrimitive (lit "y") (lit "}"))
                                   (Some [lit "yes"; lit "no"]) false true)))
  <-> enum_next [lit "yes"; lit "no"] (lit "y") "e".
Proof.
  apply (proj1 enum_allowed_characters
           (mkString (mkPrimitive (lit "y") (lit "}")) (Some [lit "yes"; lit "no"]) false true)
           [lit "yes"; lit "no"]);
    [reflexivity | discriminate | reflexivity | reflexivity].
Defined.

(** ** The list frame and its first item *)

Lemma get_parser_fresh (root : JsonSchemaObject) (vs : option JsonSchemaObject)
    (ending : str) (f : Frame) :
  get_parser root vs ending = Ok f -> fresh_frame ending f.
Proof.
  unfold get_parser, fresh_frame. destruct vs as [vs|]; [|discriminate].
  destruct (type_is vs "string"); [intros [= <-]; left; eauto|].
  destruct (type_is vs "object"); [intros [= <-]; right; left; eauto|].
  destruct (match type vs with Some _ => false | None => truthy (ref vs) end).
  - destruct (dict_get (extras root) (lit "definitions")) as [d|]; cbn [bind].
    + destruct (dict_get d _); [intros [= <-]; right; left; eauto | discriminate].
    + destruct (dict_get (extras root) (lit "$defs")) as [d|]; cbn [bind]; [|discriminate].
      destruct (dict_get d _); [intros [= <-]; right; left; eauto | discriminate].
  - destruct (type_is vs "integer"); [intros [= <-]; right; right; left; eauto|].
    destruct (type_is vs "number"); [intros [= <-]; right; right; left; eauto|].
    destruct (type_is vs "array"); [intros [= <-]; right; right; right; eauto|].
    discriminate.
Qed.

Lemma fresh_frame_allowed (ending : str) (f : Frame) :
  fresh_frame ending f ->
  Frame_get_allowed_characters f <> []
  /\ ~ In "]" (Frame_get_allowed_characters f).
Proof.
  intros [(a & ->) | [(s & ->) | [(b & ->) | (m & ->)]]].
  - split; [discriminate|]. cbn. intuition discriminate.
  - split; [discriminate|]. cbn. intuition discriminate.
  - split; [discriminate|]. destruct b; cbn; intuition discriminate.
  - split; [discriminate|]. cbn. intuition discriminate.
Qed.

(** The first character a new frame receives never takes it off the
    stack. *)
Lemma fresh_frame_stays (root : JsonSchemaObject) (ending : str) (f : Frame)
    (self : addr) (rest : list addr) (h : Heap) (c : ascii) (st : State) :
  fresh_frame ending f ->
  h !! self = Some f ->
  Frame_add_character root (self :: rest) h c = Ok st ->
  st.2 = self :: rest \/ exists a, st.2 = a :: self :: rest.
Proof.
  intros Hf E. cbn [Frame_add_character]. rewrite E.
  destruct Hf as [(a & ->) | [(s & ->) | [(b & ->) | (m & ->)]]].
  - unfold String_add_character, Primitive_add_character. cbn [can_end String_can_end
      StringParsingState_init seen_closing_quote andb bind].
    destruct (Ascii.eqb c dquote); intros [= <-]; now left.
  - unfold Object_add_character. cbn [ObjectParsingState_init current_stage].
    destruct (is_py_space c); [intros [= <-]; now left|].
    destruct (Ascii.eqb c "{"); intros [= <-]; now left.
  - unfold Number_add_character, Primitive_add_character. cbn [can_end Number_can_end
      NumberParsingState_init number_base Primitive_init parsed_string andb bind].
    destruct (Ascii.eqb c "."); intros [= <-]; now left.
  - unfold List_add_character. cbn [ListParsingState_init seen_list_closer bind fst snd].
    rewrite E. cbn [seen_list_closer list_member_type negb].
    destruct (Ascii.eqb c "[").
    { destruct (get_parser _ _ _); cbn [bind]; [|discriminate].
      intros [= <-]. right. eexists. reflexivity. }
    destruct (Ascii.eqb c "]"); [intros [= <-]; now left|].
    destruct (Ascii.eqb c ","); [|intros [= <-]; now left].
    destruct (get_parser _ _ _); cbn [bind]; [|discriminate].
    intros [= <-]. right. eexists. reflexivity.
Qed.

(** ** Invariants of a run that keeps the caller contract *)

Lemma frame_le_refl (f : Frame) : frame_le f f.
Proof. destruct f; cbn; auto. Qed.

Lemma frame_le_trans (f g k : Frame) : frame_le f g -> frame_le g k -> frame_le f k.
Proof. destruct f, g, k; cbn; auto; contradiction. Qed.

Lemma frame_le_container (f g : Frame) : frame_le f g -> is_container f -> is_container g.
Proof. destruct f, g; cbn; auto. Qed.

Lemma heap_le_refl (h : Heap) : heap_le h h.
Proof. intros a f E. exists f. split; [assumption | apply frame_le_refl]. Qed.

Lemma heap_le_trans (h1 h2 h3 : Heap) : heap_le h1 h2 -> heap_le h2 h3 -> heap_le h1 h3.
Proof.
  intros H12 H23 a f E. destruct (H12 a f E) as (g & Eg & Lg).
  destruct (H23 a g Eg) as (k & Ek & Lk). exists k. split; [assumption|].
  now apply frame_le_trans with g.
Qed.

Lemma heap_le_insert (h : Heap) (a : addr) (f g : Frame) :
  h !! a = Some f -> frame_le f g -> heap_le h (<[a := g]> h).
Proof.
  intros E L b k Eb. destruct (decide (a = b)) as [<- | Hne].
  - exists g. rewrite list_lookup_insert_eq by now apply lookup_lt_Some in E.
    split; [reflexivity|]. congruence.
  - exists k. rewrite list_lookup_insert_ne by assumption.
    split; [assumption | apply frame_le_refl].
Qed.

Lemma heap_le_app (h : Heap) (f : Frame) : heap_le h (h ++ [f]).
Proof.
  intros a k E. exists k. split; [now apply lookup_app_l_Some | apply frame_le_refl].
Qed.

Lemma containers_le (h h' : Heap) (stack : list addr) :
  heap_le h h' -> containers h stack -> containers h' stack.
Proof.
  intros L C a Ha. destruct (C a Ha) as (f & E & Hf).
  destruct (L a f E) as (g & Eg & Lg). exists g. split; [assumption|].
  now apply frame_le_container with f.
Qed.

Lemma stack_inv_le (h h' : Heap) (stack : list addr) :
  heap_le h h' -> stack_inv (h, stack) -> stack_inv (h', stack).
Proof.
  unfold stack_inv. cbn [fst snd]. intros L. destruct stack as [|top rest]; [trivial|].
  intros [(f & E) C]. split.
  - destruct (L top f E) as (g & Eg & _). now exists g.
  - now apply containers_le with h.
Qed.

Lemma stack_inv_containers (h : Heap) (stack : list addr) :
  containers h stack -> stack_inv (h, stack).
Proof.
  unfold stack_inv. cbn [fst snd]. destruct stack as [|top rest]; [trivial|].
  intros C. split.
  - destruct (C top (or_introl eq_refl)) as (f & E & _). now exists f.
  - intros a Ha. apply C. now right.
Qed.

Lemma Forall_good_lookup (h : Heap) (a : addr) (f : Frame) :
  Forall good h -> h !! a = Some f -> good f.
Proof. intros H E. now apply (proj1 (Forall_lookup good h) H a f). Qed.

Lemma modify_ok (h : Heap) (a : addr) (g : Frame -> Frame) :
  (forall f, h !! a = Some f -> good f -> good (g f)) ->
  (forall f, frame_le f (g f)) ->
  Forall good h ->
  Forall good (modify a g h) /\ heap_le h (modify a g h).
Proof.
  intros Hg Hle Hgood. unfold modify. destruct (h !! a) as [f|] eqn:E.
  - split.
    + apply Forall_insert; [assumption|]. apply Hg; [reflexivity|].
      now apply Forall_good_lookup with h a.
    + now apply heap_le_insert with f.
  - split; [assumption | apply heap_le_refl].
Qed.

Lemma step_ok_modify (h : Heap) (st : State) (a : addr) (g : Frame -> Frame) :
  step_ok h st ->
  (forall f, st.1 !! a = Some f -> good f -> good (g f)) ->
  (forall f, frame_le f (g f)) ->
  step_ok h (modify a g st.1, st.2).
Proof.
  intros (Hgood & Hle & Hinv) Hg Hfle.
  destruct (modify_ok st.1 a g Hg Hfle Hgood) as (Hgood' & Hle').
  split; [assumption|]. split; [now apply heap_le_trans with st.1|].
  apply stack_inv_le with st.1; [assumption|]. now destruct st.
Qed.

Lemma step_ok_push (h : Heap) (st : State) (f : Frame) :
  Forall good st.1 ->
  heap_le h st.1 ->
  containers st.1 st.2 ->
  good f ->
  step_ok h (push f st).
Proof.
  intros Hgood Hle C Hf. unfold step_ok, push. cbn [fst snd]. split; [|split].
  - apply Forall_app. split; [assumption|]. now constructor.
  - apply heap_le_trans with st.1; [assumption | apply heap_le_app].
  - unfold stack_inv. cbn [fst snd]. split.
    + exists f. rewrite lookup_app_r by lia. now rewrite Nat.sub_diag.
    + apply containers_le with st.1; [apply heap_le_app | assumption].
Qed.

Lemma step_ok_same (h : Heap) (stack : list addr) :
  Forall good h -> stack_inv (h, stack) -> step_ok h (h, stack).
Proof. intros Hgood Hinv. split; [assumption|]. split; [apply heap_le_refl | assumption]. Qed.

Lemma ending_ok_sub (e : str) :
  forallb (fun c => char_in c (lit "},]:")) e = true -> ending_ok e.
Proof.
  intros H c Hc. apply char_in_In.
  now apply (proj1 (forallb_forall _ e) H).
Qed.

Lemma fresh_good (ending : str) (f : Frame) :
  ending_ok ending -> fresh_frame ending f -> good f.
Proof.
  intros He [(a & ->) | [(s & ->) | [(b & ->) | (m & ->)]]]; cbn; auto.
  split; [assumption|]. unfold Number_ok. cbn. auto.
Qed.

Lemma get_parser_good (root : JsonSchemaObject) (vs : option JsonSchemaObject)
    (ending : str) (f : Frame) :
  ending_ok ending -> get_parser root vs ending = Ok f -> good f.
Proof.
  intros He Hg. apply fresh_good with ending; [assumption|].
  now apply get_parser_fresh with root vs.
Qed.

Section Steps.

Variable root : JsonSchemaObject.
Variable parent : Heap -> ascii -> Result State.
Variable self : addr.
Variable rest : list addr.
Variable h : Heap.

Hypothesis Hgood : Forall good h.
Hypothesis Hrest : containers h rest.

Lemma finish_parser_None (h' : Heap) :
  finish_parser parent rest h' None = Ok (h', rest).
Proof. unfold finish_parser. now destruct rest. Qed.

Lemma step_same (f : Frame) :
  h !! self = Some f -> step_ok h (h, self :: rest).
Proof.
  intros E. apply step_ok_same; [assumption|]. split; [now exists f | assumption].
Qed.

Lemma step_insert (f g : Frame) :
  h !! self = Some f -> good g -> frame_le f g ->
  step_ok h (<[self := g]> h, self :: rest).
Proof.
  intros E Hg Hle. pose proof (heap_le_insert h self f g E Hle) as L.
  split; [now apply Forall_insert|]. split; [assumption|].
  apply stack_inv_le with h; [assumption|]. split; [now exists f | assumption].
Qed.

Lemma step_pop (f g : Frame) :
  h !! self = Some f -> good g -> frame_le f g ->
  step_ok h (<[self := g]> h, rest).
Proof.
  intros E Hg Hle. pose proof (heap_le_insert h self f g E Hle) as L.
  split; [now apply Forall_insert|]. split; [assumption|].
  apply stack_inv_le with h; [assumption|]. now apply stack_inv_containers.
Qed.

Lemma step_push (f g item : Frame) :
  h !! self = Some f -> is_container f -> good g -> frame_le f g -> good item ->
  step_ok h (push item (<[self := g]> h, self :: rest)).
Proof.
  intros E Hc Hg Hle Hitem. pose proof (heap_le_insert h self f g E Hle) as L.
  apply step_ok_push; cbn [fst snd]; try assumption.
  - now apply Forall_insert.
  - apply containers_le with h; [assumption|].
    intros a [<- | Ha]; [now exists f | now apply Hrest].
Qed.

Lemma Object_step (o : ObjectParsingState) (c : ascii) (st : State) :
  h !! self = Some (ObjectFrame o) ->
  Object_add_character root parent self rest h o c = Ok st ->
  step_ok h st.
Proof.
  intros E. unfold Object_add_character.
  assert (forall o', finish_parser parent rest (<[self := ObjectFrame o']> h) None = Ok st ->
                     step_ok h st) as Hleave.
  { intros o'. rewrite finish_parser_None. intros [= <-].
    now apply step_pop with (ObjectFrame o). }
  assert (forall o', Ok (<[self := ObjectFrame o']> h, self :: rest) = Ok st -> step_ok h st)
    as Hstay.
  { intros o' [= <-]. now apply step_insert with (ObjectFrame o). }
  assert (Ok (h, self :: rest) = Ok st -> step_ok h st) as Hsame.
  { intros [= <-]. now apply step_same with (ObjectFrame o). }
  assert (forall o' item, good item ->
            Ok (push item (<[self := ObjectFrame o']> h, self :: rest)) = Ok st ->
            step_ok h st) as Hpush.
  { intros o' item Hitem [= <-]. now apply step_push with (ObjectFrame o). }
  destruct (is_py_space c); [exact Hsame|].
  destruct (current_stage o).
  - destruct (Ascii.eqb c "{"); [apply Hstay | exact Hsame].
  - destruct (Ascii.eqb c "}"); [apply Hleave|].
    destruct (Ascii.eqb c dquote).
    { apply Hpush. cbn. apply ending_ok_sub. reflexivity. }
    destruct (Ascii.eqb c ":"); [|exact Hsame].
    destruct (current_key_parser o) as [a|]; [|discriminate].
    destruct (h !! a) as [f|]; [|discriminate].
    destruct (base f) as [b|]; [|discriminate]. cbn [bind].
    destruct (properties (schema_object o)) as [p|].
    + destruct (dict_get p (parsed_string b)) as [v|]; [|discriminate]. cbn [bind fst snd].
      destruct (get_parser root (Some v) _) as [item|] eqn:Hg; [|discriminate]. cbn [bind].
      apply Hpush. apply get_parser_good in Hg; [assumption|].
      apply ending_ok_sub. now destruct (negb _).
    + cbn [bind fst snd].
      destruct (get_parser root _ _) as [item|] eqn:Hg; [|discriminate]. cbn [bind].
      apply Hpush. apply get_parser_good in Hg; [assumption|].
      apply ending_ok_sub. reflexivity.
  - destruct (Ascii.eqb c dquote); [apply Hstay|].
    destruct (Ascii.eqb c ","); [apply Hstay|].
    destruct (Ascii.eqb c "}"); [apply Hleave | exact Hsame].
  - destruct (Ascii.eqb c ","); [apply Hstay|].
    destruct (Ascii.eqb c "}"); [apply Hleave | exact Hsame].
  - exact Hsame.
Qed.

End Steps.

Lemma step_ok_push_on (h : Heap) (st : State) (f : Frame) :
  step_ok h st -> containers h st.2 -> good f -> step_ok h (push f st).
Proof.
  intros (Hgood & Hle & _) C Hf. apply step_ok_push; try assumption.
  now apply containers_le with h.
Qed.

Lemma good_set_seen_list_opener (f : Frame) : good f -> good (set_seen_list_opener f).
Proof. now destruct f. Qed.

Lemma good_set_seen_list_closer (f : Frame) : good f -> good (set_seen_list_closer f).
Proof. now destruct f. Qed.

Lemma frame_le_set_seen_list_opener (f : Frame) : frame_le f (set_seen_list_opener f).
Proof. destruct f; cbn; auto. Qed.

Lemma frame_le_set_seen_list_closer (f : Frame) : frame_le f (set_seen_list_closer f).
Proof. destruct f; cbn; auto. Qed.

Lemma frame_le_set_parsed_string (g : str -> str) (f : Frame) :
  frame_le f (set_parsed_string g f).
Proof. destruct f; cbn; auto. Qed.

Lemma ending_not_opener (e : str) (c : ascii) :
  ending_ok e -> char_in c e = true -> Ascii.eqb c "[" = false.
Proof.
  intros He Hc. apply char_in_In, He in Hc. cbn in Hc.
  destruct Hc as [<- | [<- | [<- | [<- | []]]]]; reflexivity.
Qed.

Section PrimitiveSteps.

Variable root : JsonSchemaObject.
Variable parent : Heap -> ascii -> Result State.
Variable self : addr.
Variable rest : list addr.
Variable h : Heap.

Hypothesis Hgood : Forall good h.
Hypothesis Hrest : containers h rest.
Hypothesis Hparent : forall c st, parent h c = Ok st -> step_ok h st.

Lemma finish_parser_Some_step (c : ascii) (st : State) :
  finish_parser parent rest h (Some c) = Ok st -> step_ok h st.
Proof.
  unfold finish_parser. destruct rest as [|a r] eqn:Er.
  - intros [= <-]. now apply step_ok_same.
  - apply Hparent.
Qed.

Lemma List_step (l : ListParsingState) (c : ascii) (st : State) :
  h !! self = Some (ListFrame l) ->
  List_add_character root parent self rest h l c = Ok st ->
  step_ok h st.
Proof.
  intros E. pose proof (Forall_good_lookup h self _ Hgood E) as Hending. cbn in Hending.
  assert (containers h (self :: rest)) as Hstack.
  { intros a [<- | Ha]; [now exists (ListFrame l) | now apply Hrest]. }
  assert (forall st0 : State,
            step_ok h st0 -> st0.2 = self :: rest ->
            (try item := get_parser root
                           (list_member_type
                              match st0.1 !! self with
                              | Some (ListFrame l') => l'
                              | _ => l
                              end) ["]"; ","] in
             Ok (push item (modify self set_seen_list_opener st0.1, st0.2))) = Ok st ->
            step_ok h st) as Hopen.
  { intros st0 H0 Hs. destruct (get_parser _ _ _) as [item|] eqn:Hg; [|discriminate].
    cbn [bind]. intros [= <-]. apply step_ok_push_on.
    - apply step_ok_modify; [assumption | |apply frame_le_set_seen_list_opener].
      intros f _. apply good_set_seen_list_opener.
    - cbn [snd]. now rewrite Hs.
    - apply get_parser_good in Hg; [assumption|]. apply ending_ok_sub. reflexivity. }
  assert (forall st0 : State,
            step_ok h st0 ->
            Ok (modify self set_seen_list_closer st0.1, st0.2) = Ok st -> step_ok h st)
    as Hclose.
  { intros st0 H0 [= <-].
    apply step_ok_modify; [assumption | |apply frame_le_set_seen_list_closer].
    intros f _. apply good_set_seen_list_closer. }
  unfold List_add_character. destruct (seen_list_closer l) eqn:Hcl.
  - (* the closer was seen: the base method runs first *)
    assert (forall st0 : State,
              step_ok h st0 ->
              seen_list_closer match st0.1 !! self with
                               | Some (ListFrame l') => l'
                               | _ => l
                               end = true) as Hnow.
    { intros st0 (_ & Hle & _). destruct (Hle self _ E) as (f' & -> & Hf').
      destruct f'; cbn in Hf'; try contradiction. auto. }
    unfold Primitive_add_character, can_end, List_can_end. rewrite Hcl. cbn [andb].
    destruct (char_in c (ending_characters (list_base l))) eqn:Hin.
    + destruct (finish_parser parent rest h (Some c)) as [st0|] eqn:Hf; [|discriminate].
      cbn [bind]. apply finish_parser_Some_step in Hf.
      rewrite (ending_not_opener _ _ Hending Hin).
      destruct (Ascii.eqb c "]"); [now apply Hclose|].
      rewrite (Hnow st0 Hf). cbn [negb].
      now destruct (Ascii.eqb c ","); intros [= <-].
    + cbn [bind].
      assert (step_ok h (modify self (set_parsed_string (fun s => s ++ [c])) h, self :: rest))
        as H0.
      { apply (step_ok_modify h (h, self :: rest));
          [now apply step_same with (ListFrame l) | |apply frame_le_set_parsed_string].
        cbn [fst]. intros f Ef _. rewrite E in Ef. injection Ef as <-. exact Hending. }
      destruct (Ascii.eqb c "["); [now apply Hopen|].
      destruct (Ascii.eqb c "]"); [now apply Hclose|].
      rewrite (Hnow _ H0). cbn [negb].
      now destruct (Ascii.eqb c ","); intros [= <-].
  - (* the list is open *)
    cbn [bind fst snd].
    pose proof (step_same self rest h Hgood Hrest _ E) as H0.
    destruct (Ascii.eqb c "["); [now apply (Hopen (h, self :: rest))|].
    destruct (Ascii.eqb c "]"); [now apply (Hclose (h, self :: rest))|].
    destruct (Ascii.eqb c ","); [|now intros [= <-]].
    rewrite E, Hcl. cbn [negb].
    destruct (get_parser _ _ _) as [item|] eqn:Hg; [|discriminate].
    cbn [bind]. intros [= <-]. apply step_ok_push_on; [assumption | assumption |].
    apply get_parser_good in Hg; [assumption|]. apply ending_ok_sub. reflexivity.
Qed.

End PrimitiveSteps.

(** A character delivered to a stack of object and list frames. *)
Lemma container_step (root : JsonSchemaObject) (stack : list addr) :
  forall (h : Heap) (c : ascii) (st : State),
    Forall good h ->
    containers h stack ->
    Frame_add_character root stack h c = Ok st ->
    step_ok h st.
Proof.
  induction stack as [|self rest IH]; intros h c st Hgood C; [discriminate|].
  cbn [Frame_add_character].
  destruct (C self (or_introl eq_refl)) as (f & E & Hf). rewrite E.
  assert (containers h rest) as Hrest by (intros a Ha; apply C; now right).
  destruct f as [o| | |l]; try contradiction.
  - now apply Object_step.
  - apply List_step; try assumption. intros c' st'. now apply IH.
Qed.

(** *** The number frame on top of the stack *)

Lemma number_shape_app (s : str) (c : ascii) :
  number_shape s = true ->
  (is_digit c || Ascii.eqb c ".") = true \/ (s = [] /\ c = "-") ->
  number_shape (s ++ [c]) = true.
Proof.
  destruct s as [|a s]; cbn [number_shape app].
  - intros _ [H | [_ ->]]; [|reflexivity].
    rewrite andb_true_r. apply orb_true_iff in H as [-> | ->]; [reflexivity|].
    apply orb_true_r.
  - intros H [Hc | [Hs _]]; [|discriminate].
    apply andb_true_iff in H as [-> H]. rewrite forallb_app, H.
    cbn [forallb andb]. now rewrite Hc.
Qed.

Lemma decimal_points_app (s : str) (c : ascii) :
  decimal_points (s ++ [c]) = decimal_points s + (if Ascii.eqb c "." then 1 else 0).
Proof.
  unfold decimal_points. rewrite List.filter_app, length_app. f_equal.
  cbn [List.filter]. rewrite (Ascii.eqb_sym "." c). now destruct (Ascii.eqb c ".").
Qed.

Lemma digit_not_point (c : ascii) :
  In c digits -> is_digit c = true /\ Ascii.eqb c "." = false.
Proof.
  intros H. split; [now apply char_in_In|].
  cbn in H. repeat (destruct H as [<- | H]; [reflexivity|]). contradiction.
Qed.

Lemma number_after_good (n : NumberParsingState) (c : ascii) :
  good (NumberFrame n) ->
  In c (Number_get_allowed_primitive_characters n) ->
  good (NumberFrame (number_after n c)).
Proof.
  intros [He (Hshape & Hle & Hseen & Hfp)] Hc. split; [exact He|].
  unfold Number_ok, number_after. cbn [number_base parsed_string allow_floating_point
    seen_decimal_point]. rewrite decimal_points_app.
  unfold Number_get_allowed_primitive_characters in Hc.
  apply in_app_iff in Hc as [Hc | Hc]; [|apply in_app_iff in Hc as [Hc | Hc]].
  - (* a digit *)
    apply digit_not_point in Hc as [Hd Hp]. rewrite Hp.
    rewrite Nat.add_0_r. repeat split; try assumption.
    apply number_shape_app; [assumption|]. left. now rewrite Hd.
  - (* the minus sign of an empty string *)
    destruct (parsed_string (number_base n)) eqn:Es; [|contradiction].
    destruct Hc as [<- | []]. cbn. repeat split; auto.
  - (* the first decimal point *)
    destruct (allow_floating_point n) eqn:Ea; [|contradiction].
    destruct (seen_decimal_point n) eqn:Ess; [contradiction|].
    destruct Hc as [<- | []]. change (Ascii.eqb "." ".") with true.
    rewrite (Hseen eq_refl). repeat split; try (cbn; lia); try discriminate.
    apply number_shape_app; [assumption|]. now left.
Qed.

Section TopSteps.

Variable parent : Heap -> ascii -> Result State.
Variable self : addr.
Variable rest : list addr.
Variable h : Heap.

Hypothesis Hgood : Forall good h.
Hypothesis Hrest : containers h rest.
Hypothesis Hparent : forall c st, parent h c = Ok st -> step_ok h st.

Lemma Number_step (n : NumberParsingState) (c : ascii) (st : State) :
  h !! self = Some (NumberFrame n) ->
  In c (Frame_get_allowed_characters (NumberFrame n)) ->
  Number_add_character parent self rest h n c = Ok st ->
  step_ok h st.
Proof.
  intros E Hin. pose proof (Forall_good_lookup h self _ Hgood E) as Hn.
  unfold Number_add_character, Primitive_add_character. cbn [can_end].
  destruct (Number_can_end n && char_in c (ending_characters (number_base n))) eqn:Hcond.
  - destruct (finish_parser parent rest h (Some c)) as [st0|] eqn:Hf; [|discriminate].
    cbn [bind]. apply (finish_parser_Some_step parent rest h Hgood Hrest Hparent) in Hf.
    destruct (Ascii.eqb c "."); [|now intros [= <-]].
    intros [= <-]. apply step_ok_modify; [assumption | |].
    + intros [o|n'|s|l] _; cbn; auto.
      intros [He (Hshape & Hle & _ & Hfp)]. split; [assumption|].
      repeat split; try assumption. discriminate.
    + intros [o|n'|s|l]; cbn; auto.
  - cbn [bind fst snd].
    assert (In c (Number_get_allowed_primitive_characters n)) as Hprim.
    { unfold Frame_get_allowed_characters, Primitive_get_allowed_characters in Hin.
      cbn [base can_end] in Hin. apply in_app_iff in Hin as [Hin | Hin]; [assumption|].
      destruct (Number_can_end n); [|contradiction].
      apply char_in_In in Hin. rewrite Hin in Hcond. discriminate. }
    pose proof (number_after_good n c Hn Hprim) as Hafter.
    unfold number_after in Hafter.
    destruct (Ascii.eqb c "."); intros [= <-]; cbn [fst snd].
    + rewrite (modify_modify _ _ _ _ _ E).
      apply step_insert with (NumberFrame n); [assumption.. | exact I].
    + rewrite (modify_lookup _ _ _ _ E).
      apply step_insert with (NumberFrame n); [assumption.. | exact I].
Qed.

Lemma String_step (s : StringParsingState) (c : ascii) (st : State) :
  h !! self = Some (StringFrame s) ->
  String_add_character parent self rest h s c = Ok st ->
  step_ok h st.
Proof.
  intros E. pose proof (Forall_good_lookup h self _ Hgood E) as Hs. cbn in Hs.
  unfold String_add_character.
  assert (forall st0, Primitive_add_character parent self rest h (StringFrame s)
                        (string_base s) c = Ok st0 -> step_ok h st0) as Hbase.
  { intros st0. unfold Primitive_add_character.
    destruct (can_end (StringFrame s) && char_in c (ending_characters (string_base s))).
    - apply (finish_parser_Some_step parent rest h Hgood Hrest Hparent).
    - intros [= <-]. apply (step_ok_modify h (h, self :: rest));
        [now apply step_same with (StringFrame s) | |apply frame_le_set_parsed_string].
      cbn [fst]. intros f Ef _. rewrite E in Ef. injection Ef as <-. exact Hs. }
  destruct (Primitive_add_character _ _ _ _ _ _ _) as [st0|]; [|discriminate].
  cbn [bind]. specialize (Hbase st0 eq_refl).
  destruct (Ascii.eqb c dquote); [|now intros [= <-]].
  intros [= <-]. apply step_ok_modify; [assumption | |].
  - intros [o|n'|s'|l] _; cbn; auto. now destruct (negb (seen_opening_quote s')).
  - intros [o|n'|s'|l]; cbn; auto. now destruct (negb (seen_opening_quote s')).
Qed.

End TopSteps.

(** A character the caller may feed keeps the invariant. *)
Lemma Inv_step (p p' : JsonSchemaParser) (c : ascii) :
  Inv p ->
  In c (get_allowed_characters p) ->
  add_character p c = Ok p' ->
  Inv p'.
Proof.
  destruct p as [root h stack]. unfold Inv, get_allowed_characters, add_character, deepcopy.
  cbn [heap object_stack model_class]. intros [Hgood Hinv] Hin.
  destruct stack as [|self rest]; [contradiction|].
  destruct Hinv as [(f & E) Hrest]. cbn [fst snd] in E, Hrest. rewrite E in Hin.
  cbn [heap object_stack model_class].
  destruct (Frame_add_character root (self :: rest) h c) as [st|] eqn:Hst;
    cbn [bind]; [|discriminate].
  intros [= <-]. cbn [heap object_stack].
  enough (step_ok h st) as (H1 & _ & H2) by (split; [assumption | now destruct st]).
  assert (forall c' st', Frame_add_character root rest h c' = Ok st' -> step_ok h st')
    as Hparent by (intros c' st'; now apply container_step).
  destruct f as [o|n|s|l].
  - apply container_step with root (self :: rest) c; try assumption.
    intros a [<- | Ha]; [now exists (ObjectFrame o) | now apply Hrest].
  - cbn [Frame_add_character] in Hst. rewrite E in Hst.
    now apply Number_step with (Frame_add_character root rest) self rest n c.
  - cbn [Frame_add_character] in Hst. rewrite E in Hst.
    now apply String_step with (Frame_add_character root rest) self rest s c.
  - apply container_step with root (self :: rest) c; try assumption.
    intros a [<- | Ha]; [now exists (ListFrame l) | now apply Hrest].
Qed.

Lemma reachable_Inv (schema : JsonSchemaObject) (p : JsonSchemaParser) :
  reachable schema p -> Inv p.
Proof.
  induction 1 as [|p c p' _ IH Hin Hstep].
  - split.
    + repeat constructor.
    + cbn. split; [now eexists | intros a []].
  - now apply Inv_step with p c.
Qed.

Lemma drive_reachable (schema : JsonSchemaObject) (s : str) :
  forall p p', reachable schema p -> drive p s = Some p' -> reachable schema p'.
Proof.
  induction s as [|c s IH]; intros p p' Hp; cbn [drive].
  - now intros [= <-].
  - destruct (char_in c (get_allowed_characters p)) eqn:Hc; [|discriminate].
    destruct (add_character p c) as [q|] eqn:Hq; [|discriminate].
    apply IH. apply reachable_step with p c; [assumption | now apply char_in_In | assumption].
Qed.

(** ** The string of a number frame *)

Lemma JsonNumber_run_Dead (t : str) : JsonNumber.run JsonNumber.Dead t = JsonNumber.Dead.
Proof. induction t as [|c t IH]; [reflexivity | exact IH]. Qed.

(** C6, as the spec states it, fails: leading zeros are not refused.
    With the integer property [n], the caller may feed [0] twice; the
    number frame then holds [00], which begins no JSON number
    literal. *)
Lemma number_prefix_counterexample :
  ~ (forall schema p a n,
       reachable schema p ->
       In a (object_stack p) ->
       heap p !! a = Some (NumberFrame n) ->
       parsed_string (number_base n) <> [] ->
       JsonNumber.valid_prefix (parsed_string (number_base n))
       /\ decimal_points (parsed_string (number_base n)) <= 1
       /\ (allow_floating_point n = false ->
           decimal_points (parsed_string (number_base n)) = 0)).
Proof.
  intros H.
  destruct (H schema_n (after schema_n "{'n':00") 2
              (mkNumber (mkPrimitive (lit "00") (lit "}")) false false))
    as ((t & Ht) & _).
  - apply drive_reachable with (json "{'n':00") (JsonSchemaParser_init schema_n);
      [constructor | vm_compute; reflexivity].
  - vm_compute. tauto.
  - vm_compute. reflexivity.
  - discriminate.
  - unfold JsonNumber.literal, JsonNumber.run in Ht. cbn [parsed_string number_base] in Ht.
    rewrite fold_left_app in Ht.
    change (fold_left JsonNumber.step (lit "00") JsonNumber.Start) with JsonNumber.Dead in Ht.
    change (fold_left JsonNumber.step t JsonNumber.Dead)
      with (JsonNumber.run JsonNumber.Dead t) in Ht.
    rewrite JsonNumber_run_Dead in Ht. discriminate.
Qed.

(** C6 (amended). For every number frame of a parser reached by
    feeding allowed characters only, [parsed_string] is an optional
    leading minus sign followed by digits and decimal points, it holds
    at most one decimal point, and it holds none unless
    [allow_floating_point] is true. *)
Theorem number_frame_invariant (schema : JsonSchemaObject) (p : JsonSchemaParser)
    (a : addr) (n : NumberParsingState) :
  reachable schema p ->
  heap p !! a = Some (NumberFrame n) ->
  number_shape (parsed_string (number_base n)) = true
  /\ decimal_points (parsed_string (number_base n)) <= 1
  /\ (allow_floating_point n = false ->
      decimal_points (parsed_string (number_base n)) = 0).
Proof.
  intros Hp E. apply reachable_Inv in Hp as [Hgood _].
  destruct (Forall_good_lookup _ _ _ Hgood E) as [_ (Hshape & Hle & _ & Hfp)].
  auto.
Qed.

Lemma number_frame_invariant_witness :
  exists n,
    heap (after schema_n "{'n':42") !! 2 = Some (NumberFrame n)
    /\ parsed_string (number_base n) = lit "42"
    /\ number_shape (parsed_string (number_base n)) = true
    /\ decimal_points (parsed_string (number_base n)) <= 1
    /\ (allow_floating_point n = false ->
        decimal_points (parsed_string (number_base n)) = 0).
Proof.
  eexists. split; [vm_compute; reflexivity|]. split; [reflexivity|].
  apply (number_frame_invariant schema_n (after schema_n "{'n':42") 2).
  - apply drive_reachable with (json "{'n':42") (JsonSchemaParser_init schema_n);
      [constructor | vm_compute; reflexivity].
  - vm_compute. reflexivity.
Defined.

(** ** How a string frame leaves the stack *)

(** C5, as the spec states it, fails: after the closing quote of the
    string value [yes] the string frame is still on top of the stack. *)
Lemma string_frame_stays_counterexample :
  ~ (forall p,
       feed (JsonSchemaParser_init schema_flag) (json "{'flag':'yes'") = Ok p ->
       forall a s, In a (object_stack p) -> heap p !! a <> Some (StringFrame s)).
Proof.
  intros H.
  pose proof (H (after schema_flag "{'flag':'yes'")) as H'.
  eapply H' with (a := 2).
  - vm_compute. reflexivity.
  - vm_compute. tauto.
  - vm_compute. reflexivity.
Qed.

(** C5 (amended). A string frame whose opening quote was seen stays on
    the stack when it takes its closing quote: it sets
    [seen_closing_quote] and keeps [parsed_string].  Once closed it
    leaves the stack on a character of its [ending_characters], and
    that character goes to the frame below; a number frame that can
    end and a list frame whose closer was seen leave the stack in the
    same way (the list frame, on a stack of object and list frames
    of a heap of good frames, only sets its [seen_list_closer] again
    when the character is the closing bracket). *)
Theorem string_frame_pops_on_terminator
    (root : JsonSchemaObject) (self : addr) (rest : list addr) (h : Heap) :
  (forall s,
     h !! self = Some (StringFrame s) ->
     seen_opening_quote s = true ->
     seen_closing_quote s = false ->
     Frame_add_character root (self :: rest) h dquote
     = Ok (<[self := StringFrame (mkString (string_base s) (allowed_strings s) true true)]> h,
           self :: rest))
  /\ (forall s c,
        h !! self = Some (StringFrame s) ->
        seen_closing_quote s = true ->
        In c (ending_characters (string_base s)) ->
        c <> dquote ->
        Frame_add_character root (self :: rest) h c
        = match rest with
          | [] => Ok (h, [])
          | _ :: _ => Frame_add_character root rest h c
          end)
  /\ (forall n c,
        h !! self = Some (NumberFrame n) ->
        Number_can_end n = true ->
        In c (ending_characters (number_base n)) ->
        c <> "." ->
        Frame_add_character root (self :: rest) h c
        = match rest with
          | [] => Ok (h, [])
          | _ :: _ => Frame_add_character root rest h c
          end)
  /\ (forall l c,
        Forall good h ->
        containers h rest ->
        h !! self = Some (ListFrame l) ->
        seen_list_closer l = true ->
        In c (ending_characters (list_base l)) ->
        Frame_add_character root (self :: rest) h c
        = try st := match rest with
                    | [] => Ok (h, [])
                    | _ :: _ => Frame_add_character root rest h c
                    end in
          Ok (if Ascii.eqb c "]" then modify self set_seen_list_closer st.1 else st.1,
              st.2)).
Proof.
  split; [|split; [|split]].
  - intros s E Ho Hc. cbn [Frame_add_character]. rewrite E.
    unfold String_add_character, Primitive_add_character.
    cbn [can_end]. unfold String_can_end. rewrite Hc. cbn [andb bind].
    replace (Ascii.eqb dquote dquote) with true by reflexivity.
    cbn [fst snd]. rewrite (modify_modify _ _ _ _ _ E).
    do 3 f_equal. destruct s as [[parsed ending] allowed closing opening].
    cbn in *. subst. cbn. now rewrite removelast_last.
  - intros s c E Hc Hin Hq. cbn [Frame_add_character]. rewrite E.
    unfold String_add_character, Primitive_add_character.
    cbn [can_end]. unfold String_can_end. rewrite Hc.
    apply char_in_In in Hin. rewrite Hin. cbn [andb].
    apply Ascii.eqb_neq in Hq. rewrite Hq.
    unfold finish_parser. destruct rest; [reflexivity|]. apply bind_Ok.
  - intros n c E Hc Hin Hq. cbn [Frame_add_character]. rewrite E.
    unfold Number_add_character, Primitive_add_character.
    cbn [can_end]. rewrite Hc.
    apply char_in_In in Hin. rewrite Hin. cbn [andb].
    apply Ascii.eqb_neq in Hq. rewrite Hq.
    unfold finish_parser. destruct rest; [reflexivity|]. apply bind_Ok.
  - intros l c Hgood Hrest E Hcl Hin. cbn [Frame_add_character]. rewrite E.
    pose proof (Forall_good_lookup h self _ Hgood E) as Hending. cbn in Hending.
    apply char_in_In in Hin.
    unfold List_add_character, Primitive_add_character, can_end, List_can_end.
    rewrite Hcl, Hin. cbn [andb].
    replace (finish_parser (Frame_add_character root rest) rest h (Some c))
      with (match rest with
            | [] => Ok (h, [])
            | _ :: _ => Frame_add_character root rest h c
            end) by (unfold finish_parser; now destruct rest).
    destruct (match rest with [] => Ok (h, []) | _ :: _ => _ end) as [st0|e] eqn:Hst0;
      [|reflexivity].
    cbn [bind]. rewrite (ending_not_opener _ _ Hending Hin).
    destruct (Ascii.eqb c "]"); [reflexivity|].
    assert (heap_le h st0.1) as Hle.
    { destruct rest as [|a r].
      - injection Hst0 as <-. apply heap_le_refl.
      - now apply (container_step root (a :: r) h c st0 Hgood Hrest). }
    destruct (Hle self _ E) as (f' & -> & Hf').
    destruct f' as [| | |l']; cbn in Hf'; try contradiction.
    rewrite (Hf' Hcl). cbn [negb]. destruct st0.
    now destruct (Ascii.eqb c ",").
Qed.

Lemma string_frame_pops_on_terminator_witness :
  (exists s,
     heap (after schema_flag "{'flag':'yes") !! 2 = Some (StringFrame s)
     /\ seen_opening_quote s = true
     /\ seen_closing_quote s = false
     /\ Frame_add_character schema_flag [2; 0] (heap (after schema_flag "{'flag':'yes")) dquote
        = Ok (<[2 := StringFrame (mkString (string_base s) (allowed_strings s) true true)]>
                (heap (after schema_flag "{'flag':'yes")), [2; 0]))
  /\ (exists s,
        heap (after schema_flag "{'flag':'yes'") !! 2 = Some (StringFrame s)
        /\ seen_closing_quote s = true
        /\ In "}" (ending_characters (string_base s))
        /\ "}" <> dquote
        /\ Frame_add_character schema_flag [2; 0] (heap (after schema_flag "{'flag':'yes'")) "}"
           = Frame_add_character schema_flag [0] (heap (after schema_flag "{'flag':'yes'")) "}")
  /\ (exists n,
        heap (after schema_n "{'n':42") !! 2 = Some (NumberFrame n)
        /\ Number_can_end n = true
        /\ In "}" (ending_characters (number_base n))
        /\ "}" <> "."
        /\ Frame_add_character schema_n [2; 0] (heap (after schema_n "{'n':42")) "}"
           = Frame_add_character schema_n [0] (heap (after schema_n "{'n':42")) "}")
  /\ (exists l,
        heap (after schema_a "{'a':[1]") !! 2 = Some (ListFrame l)
        /\ seen_list_closer l = true
        /\ In "}" (ending_characters (list_base l))
        /\ Frame_add_character schema_a [2; 0] (heap (after schema_a "{'a':[1]")) "}"
           = try st := Frame_add_character schema_a [0]
                         (heap (after schema_a "{'a':[1]")) "}" in
             Ok (st.1, st.2)).
Proof.
  split; [|split; [|split]].
  - eexists. split; [vm_compute; reflexivity|].
    split; [reflexivity|]. split; [reflexivity|].
    eapply (proj1 (string_frame_pops_on_terminator schema_flag 2 [0]
                    (heap (after schema_flag "{'flag':'yes"))));
      [vm_compute; reflexivity | reflexivity | reflexivity].
  - eexists. split; [vm_compute; reflexivity|].
    split; [reflexivity|]. split; [left; reflexivity|]. split; [discriminate|].
    eapply (proj1 (proj2 (string_frame_pops_on_terminator schema_flag 2 [0]
                    (heap (after schema_flag "{'flag':'yes'")))));
      [vm_compute; reflexivity | reflexivity | left; reflexivity | discriminate].
  - eexists. split; [vm_compute; reflexivity|].
    split; [reflexivity|]. split; [left; reflexivity|]. split; [discriminate|].
    eapply (proj1 (proj2 (proj2 (string_frame_pops_on_terminator schema_n 2 [0]
                    (heap (after schema_n "{'n':42"))))));
      [vm_compute; reflexivity | reflexivity | left; reflexivity | discriminate].
  - eexists. split; [vm_compute; reflexivity|].
    split; [reflexivity|]. split; [left; reflexivity|].
    eapply (proj2 (proj2 (proj2 (string_frame_pops_on_terminator schema_a 2 [0]
                    (heap (after schema_a "{'a':[1]")))))).
    + apply (reachable_Inv schema_a).
      apply drive_reachable with (json "{'a':[1]") (JsonSchemaParser_init schema_a);
        [constructor | vm_compute; reflexivity].
    + intros a [<- | []]. eexists. split; [vm_compute; reflexivity | exact I].
    + vm_compute. reflexivity.
    + reflexivity.
    + left. reflexivity.
Defined.

(* ================================================================= *)
(** * Further properties of the parser

    ** What a step changes *)

Lemma updates_once (f g : Frame) : frame_update f g -> frame_updates f g.
Proof. intros H. apply updates_step with f; [constructor | assumption]. Qed.

Lemma updates_trans (f g k : Frame) :
  frame_updates f g -> frame_updates g k -> frame_updates f k.
Proof.
  intros Hfg Hgk. induction Hgk as [|g k1 k2 _ IH Hstep]; [assumption|].
  apply updates_step with k1; [now apply IH | assumption].
Qed.

Lemma updates_opener (f : Frame) : frame_updates f (set_seen_list_opener f).
Proof. destruct f; try constructor. apply updates_once. constructor. Qed.

Lemma updates_closer (f : Frame) : frame_updates f (set_seen_list_closer f).
Proof. destruct f; try constructor. apply updates_once. constructor. Qed.

Lemma heap_evolves_refl (h : Heap) : heap_evolves h h.
Proof. intros a f E. left. exists f. split; [assumption | constructor]. Qed.

Lemma heap_evolves_trans (h1 h2 h3 : Heap) :
  length h1 <= length h2 ->
  heap_evolves h1 h2 -> heap_evolves h2 h3 -> heap_evolves h1 h3.
Proof.
  intros Hlen H12 H23 a f3 E3.
  destruct (H23 a f3 E3) as [(f2 & E2 & U23) | (Hnew & f0 & Hf0 & U)].
  - destruct (H12 a f2 E2) as [(f1 & E1 & U12) | (Hnew & f0 & Hf0 & U)].
    + left. exists f1. split; [assumption | now apply updates_trans with f2].
    + right. split; [assumption|]. exists f0. split; [assumption|].
      now apply updates_trans with f2.
  - right. split; [lia|]. now exists f0.
Qed.

Lemma heap_evolves_insert (h : Heap) (a : addr) (f g : Frame) :
  h !! a = Some f -> frame_updates f g -> heap_evolves h (<[a := g]> h).
Proof.
  intros E U b k Eb. left. destruct (decide (a = b)) as [<- | Hne].
  - rewrite list_lookup_insert_eq in Eb by now apply lookup_lt_Some in E.
    injection Eb as <-. now exists f.
  - rewrite list_lookup_insert_ne in Eb by assumption. exists k.
    split; [assumption | constructor].
Qed.

Lemma heap_evolves_modify (h : Heap) (a : addr) (g : Frame -> Frame) :
  (forall f, frame_updates f (g f)) -> heap_evolves h (modify a g h).
Proof.
  intros Hg. unfold modify. destruct (h !! a) as [f|] eqn:E.
  - now apply heap_evolves_insert with f.
  - apply heap_evolves_refl.
Qed.

Lemma length_modify (h : Heap) (a : addr) (g : Frame -> Frame) :
  length (modify a g h) = length h.
Proof. unfold modify. destruct (h !! a); [apply length_insert | reflexivity]. Qed.

Lemma heap_evolves_app (h : Heap) (f : Frame) : initial f -> heap_evolves h (h ++ [f]).
Proof.
  intros Hf a k E. destruct (decide (a < length h)) as [Hlt | Hge].
  - left. exists k. rewrite lookup_app_l in E by assumption. split; [assumption | constructor].
  - right. split; [lia|]. exists f. split; [assumption|].
    rewrite lookup_app_r in E by lia.
    destruct (a - length h) as [|n]; [injection E as <-; constructor | discriminate].
Qed.

Lemma footprint_heap (h h' : Heap) (stack stack' : list addr) :
  heap_evolves h h' -> length h' = length h -> stack' `suffix_of` stack ->
  footprint h stack (h', stack').
Proof.
  intros He Hl Hs. split; [assumption|]. cbn [fst snd]. split; [lia | now left].
Qed.

Lemma footprint_modify (h : Heap) (stack : list addr) (st : State) (a : addr)
    (g : Frame -> Frame) :
  footprint h stack st ->
  (forall f, frame_updates f (g f)) ->
  footprint h stack (modify a g st.1, st.2).
Proof.
  intros (He & Hl & Hs) Hg. split; [|split; [|assumption]]; cbn [fst].
  - apply heap_evolves_trans with st.1; [lia | assumption | now apply heap_evolves_modify].
  - now rewrite length_modify.
Qed.

Lemma footprint_push (h : Heap) (stack : list addr) (st : State) (f : Frame) :
  heap_evolves h st.1 ->
  length st.1 = length h ->
  st.2 `suffix_of` stack ->
  initial f ->
  footprint h stack (push f st).
Proof.
  intros He Hl Hs Hf. unfold footprint, push. cbn [fst snd]. split; [|split].
  - apply heap_evolves_trans with st.1; [lia | assumption | now apply heap_evolves_app].
  - rewrite length_app. cbn. lia.
  - right. now exists (length st.1), st.2.
Qed.

Lemma footprint_below (h : Heap) (self : addr) (rest : list addr) (st : State) :
  footprint h rest st -> footprint h (self :: rest) st.
Proof.
  intros (He & Hl & Hs). split; [assumption|]. split; [assumption|].
  destruct Hs as [Hs | (a & tl & E & Hs)].
  - left. now apply suffix_cons_r.
  - right. exists a, tl. split; [assumption | now apply suffix_cons_r].
Qed.

Lemma dict_get_keys {V} (d : list (str * V)) (k : str) (v : V) :
  dict_get d k = Some v -> In k (keys d).
Proof.
  induction d as [|[k' v'] d IH]; [discriminate|]. cbn [dict_get keys List.map fst].
  destruct (str_eqb k k') eqn:E.
  - intros _. left. symmetry. now apply str_eqb_eq.
  - intros H. right. now apply IH.
Qed.

Lemma initial_get_parser (root : JsonSchemaObject) (vs : option JsonSchemaObject)
    (ending : str) (f : Frame) :
  In ending [["}"]; ["}"; ","]; ["]"; ","]] ->
  get_parser root vs ending = Ok f -> initial f.
Proof.
  intros He Hg. right. exists ending. split; [assumption|].
  now apply get_parser_fresh with root vs.
Qed.

Section Footprints.

Variable root : JsonSchemaObject.
Variable parent : Heap -> ascii -> Result State.
Variable self : addr.
Variable rest : list addr.
Variable h : Heap.

Hypothesis Hgood : Forall good h.
Hypothesis Hrest : containers h rest.
Hypothesis Hparent : forall c st, parent h c = Ok st -> step_ok h st.
Hypothesis Hparent_footprint : forall c st, parent h c = Ok st -> footprint h rest st.

Lemma footprint_insert (f g : Frame) (stack' : list addr) :
  h !! self = Some f -> frame_update f g -> stack' `suffix_of` self :: rest ->
  footprint h (self :: rest) (<[self := g]> h, stack').
Proof.
  intros E U Hs. apply footprint_heap; [|apply length_insert | assumption].
  apply heap_evolves_insert with f; [assumption | now apply updates_once].
Qed.

Lemma footprint_insert_push (f g item : Frame) :
  h !! self = Some f -> frame_update f g -> initial item ->
  footprint h (self :: rest) (push item (<[self := g]> h, self :: rest)).
Proof.
  intros E U Hitem. apply footprint_push; cbn [fst snd]; try assumption.
  - apply heap_evolves_insert with f; [assumption | now apply updates_once].
  - apply length_insert.
  - reflexivity.
Qed.

Lemma footprint_finish (c : ascii) (st : State) :
  finish_parser parent rest h (Some c) = Ok st -> footprint h (self :: rest) st.
Proof.
  unfold finish_parser. destruct rest as [|a r] eqn:Er.
  - intros [= <-]. apply footprint_heap;
      [apply heap_evolves_refl | reflexivity | apply suffix_nil].
  - intros H. apply Hparent_footprint in H. destruct H as (He & Hl & Hs).
    split; [assumption|]. split; [assumption|].
    destruct Hs as [Hs | (b & tl & E & Hs)].
    + left. now apply suffix_cons_r.
    + right. exists b, tl. split; [assumption | now apply suffix_cons_r].
Qed.

Lemma Object_footprint (o : ObjectParsingState) (c : ascii) (st : State) :
  h !! self = Some (ObjectFrame o) ->
  Object_add_character root parent self rest h o c = Ok st ->
  footprint h (self :: rest) st.
Proof.
  intros E. unfold Object_add_character.
  assert (Ok (h, self :: rest) = Ok st -> footprint h (self :: rest) st) as Hsame.
  { intros [= <-]. now apply footprint_heap; [apply heap_evolves_refl | |]. }
  assert (forall stage, stage_step (current_stage o) stage ->
            Ok (<[self := ObjectFrame (set_current_stage stage o)]> h, self :: rest) = Ok st ->
            footprint h (self :: rest) st) as Hstay.
  { intros stage Hstage [= <-].
    apply footprint_insert with (ObjectFrame o); [assumption | now constructor | reflexivity]. }
  assert (stage_step (current_stage o) END_OBJECT ->
          finish_parser parent rest (<[self := ObjectFrame (set_current_stage END_OBJECT o)]> h)
            None = Ok st ->
          footprint h (self :: rest) st) as Hleave.
  { intros Hstage.
    replace (finish_parser parent rest
               (<[self := ObjectFrame (set_current_stage END_OBJECT o)]> h) None)
      with (Ok (<[self := ObjectFrame (set_current_stage END_OBJECT o)]> h, rest))
      by (unfold finish_parser; now destruct rest).
    intros [= <-].
    apply footprint_insert with (ObjectFrame o);
      [assumption | now constructor | apply suffix_cons_r; reflexivity]. }
  destruct (is_py_space c); [exact Hsame|].
  destruct (current_stage o) eqn:Hstage.
  - destruct (Ascii.eqb c "{"); [apply Hstay; constructor | exact Hsame].
  - destruct (Ascii.eqb c "}"); [apply Hleave; constructor|].
    destruct (Ascii.eqb c dquote).
    { intros [= <-]. apply footprint_insert_push with (ObjectFrame o); [assumption | |].
      - now apply update_key_parser.
      - left. now eexists. }
    destruct (Ascii.eqb c ":"); [|exact Hsame].
    destruct (current_key_parser o) as [a|]; [|discriminate].
    destruct (h !! a) as [f|]; [|discriminate].
    destruct (base f) as [b|]; [|discriminate]. cbn [bind].
    destruct (properties (schema_object o)) as [p|] eqn:Hp.
    + destruct (dict_get p (parsed_string b)) as [v|] eqn:Hv; [|discriminate].
      cbn [bind fst snd].
      destruct (get_parser root (Some v) _) as [item|] eqn:Hg; [|discriminate]. cbn [bind].
      intros [= <-]. apply footprint_insert_push with (ObjectFrame o); [assumption | |].
      * apply update_value; [assumption|]. intros p' Hp'. rewrite Hp in Hp'.
        injection Hp' as <-. now apply dict_get_keys with v.
      * apply initial_get_parser in Hg; [assumption|].
        destruct (negb _); cbn; auto.
    + cbn [bind fst snd].
      destruct (get_parser root _ _) as [item|] eqn:Hg; [|discriminate]. cbn [bind].
      intros [= <-]. apply footprint_insert_push with (ObjectFrame o); [assumption | |].
      * apply update_value; [assumption|]. intros p' Hp'. rewrite Hp in Hp'. discriminate.
      * apply initial_get_parser in Hg; [assumption|]. cbn. auto.
  - destruct (Ascii.eqb c dquote); [apply Hstay; constructor|].
    destruct (Ascii.eqb c ","); [apply Hstay; constructor|].
    destruct (Ascii.eqb c "}"); [apply Hleave; constructor | exact Hsame].
  - destruct (Ascii.eqb c ","); [apply Hstay; constructor|].
    destruct (Ascii.eqb c "}"); [apply Hleave; constructor | exact Hsame].
  - exact Hsame.
Qed.

Lemma List_footprint (l : ListParsingState) (c : ascii) (st : State) :
  h !! self = Some (ListFrame l) ->
  List_add_character root parent self rest h l c = Ok st ->
  footprint h (self :: rest) st.
Proof.
  intros E. pose proof (Forall_good_lookup h self _ Hgood E) as Hending. cbn in Hending.
  assert (forall st0 : State,
            footprint h (self :: rest) st0 -> length st0.1 = length h ->
            st0.2 `suffix_of` self :: rest ->
            (try item := get_parser root
                           (list_member_type
                              match st0.1 !! self with
                              | Some (ListFrame l') => l'
                              | _ => l
                              end) ["]"; ","] in
             Ok (push item (modify self set_seen_list_opener st0.1, st0.2))) = Ok st ->
            footprint h (self :: rest) st) as Hopen.
  { intros st0 (He & _) Hl Hs. destruct (get_parser _ _ _) as [item|] eqn:Hg; [|discriminate].
    cbn [bind]. intros [= <-]. apply footprint_push; cbn [fst snd].
    - apply heap_evolves_trans with st0.1; [lia | assumption|].
      apply heap_evolves_modify, updates_opener.
    - now rewrite length_modify.
    - assumption.
    - apply initial_get_parser in Hg; [assumption|]. cbn. auto. }
  assert (forall st0 : State,
            footprint h (self :: rest) st0 ->
            Ok (modify self set_seen_list_closer st0.1, st0.2) = Ok st ->
            footprint h (self :: rest) st) as Hclose.
  { intros st0 H0 [= <-]. apply footprint_modify; [assumption | apply updates_closer]. }
  assert (footprint h (self :: rest) (h, self :: rest)) as Hsame.
  { now apply footprint_heap; [apply heap_evolves_refl | |]. }
  unfold List_add_character. destruct (seen_list_closer l) eqn:Hcl.
  - assert (forall st0 : State,
              step_ok h st0 ->
              seen_list_closer match st0.1 !! self with
                               | Some (ListFrame l') => l'
                               | _ => l
                               end = true) as Hnow.
    { intros st0 (_ & Hle & _). destruct (Hle self _ E) as (f' & -> & Hf').
      destruct f'; cbn in Hf'; try contradiction. auto. }
    unfold Primitive_add_character, can_end, List_can_end. rewrite Hcl. cbn [andb].
    destruct (char_in c (ending_characters (list_base l))) eqn:Hin.
    + destruct (finish_parser parent rest h (Some c)) as [st0|] eqn:Hf; [|discriminate].
      cbn [bind]. pose proof (footprint_finish _ _ Hf) as H0.
      apply (finish_parser_Some_step parent rest h Hgood Hrest Hparent) in Hf.
      rewrite (ending_not_opener _ _ Hending Hin).
      destruct (Ascii.eqb c "]"); [now apply Hclose|].
      rewrite (Hnow st0 Hf). cbn [negb].
      now destruct (Ascii.eqb c ","); intros [= <-].
    + cbn [bind]. rewrite (modify_lookup _ _ _ _ E).
      assert (footprint h (self :: rest)
                (<[self := set_parsed_string (fun s => s ++ [c]) (ListFrame l)]> h,
                 self :: rest)) as H0.
      { apply footprint_insert with (ListFrame l); [assumption | constructor | reflexivity]. }
      assert (step_ok h (<[self := set_parsed_string (fun s => s ++ [c]) (ListFrame l)]> h,
                         self :: rest)) as H1.
      { now apply step_insert with (ListFrame l). }
      destruct (Ascii.eqb c "[").
      { apply Hopen; [assumption | apply length_insert | reflexivity]. }
      destruct (Ascii.eqb c "]"); [now apply Hclose|].
      rewrite (Hnow _ H1). cbn [negb].
      now destruct (Ascii.eqb c ","); intros [= <-].
  - cbn [bind fst snd].
    destruct (Ascii.eqb c "["); [now apply (Hopen (h, self :: rest))|].
    destruct (Ascii.eqb c "]"); [now apply (Hclose (h, self :: rest))|].
    destruct (Ascii.eqb c ","); [|now intros [= <-]].
    rewrite E, Hcl. cbn [negb].
    destruct (get_parser _ _ _) as [item|] eqn:Hg; [|discriminate].
    cbn [bind]. intros [= <-]. apply footprint_push; cbn [fst snd];
      [apply heap_evolves_refl | reflexivity | reflexivity |].
    apply initial_get_parser in Hg; [assumption|]. cbn. auto.
Qed.

End Footprints.

Lemma container_footprint (root : JsonSchemaObject) (stack : list addr) :
  forall (h : Heap) (c : ascii) (st : State),
    Forall good h ->
    containers h stack ->
    Frame_add_character root stack h c = Ok st ->
    footprint h stack st.
Proof.
  induction stack as [|self rest IH]; intros h c st Hgood C; [discriminate|].
  cbn [Frame_add_character].
  destruct (C self (or_introl eq_refl)) as (f & E & Hf). rewrite E.
  assert (containers h rest) as Hrest by (intros a Ha; apply C; now right).
  destruct f as [o| | |l]; try contradiction.
  - apply Object_footprint; try assumption. intros c' st'. now apply IH.
  - apply List_footprint; try assumption.
    + intros c' st'. now apply container_step.
    + intros c' st'. now apply IH.
Qed.

Lemma ending_not_content (e : str) (c : ascii) :
  ending_ok e -> char_in c e = true ->
  Ascii.eqb c "." = false /\ Ascii.eqb c dquote = false.
Proof.
  intros He Hc. apply char_in_In, He in Hc. cbn in Hc.
  destruct Hc as [<- | [<- | [<- | [<- | []]]]]; split; reflexivity.
Qed.

Lemma allowed_primitive (f : Frame) (b : PrimitiveParsingState) (c : ascii) :
  In c (Primitive_get_allowed_characters f b) ->
  can_end f && char_in c (ending_characters b) = false ->
  In c match f with
       | ObjectFrame _ => []
       | NumberFrame n => Number_get_allowed_primitive_characters n
       | StringFrame s => String_get_allowed_primitive_characters s
       | ListFrame l => List_get_allowed_primitive_characters l
       end.
Proof.
  unfold Primitive_get_allowed_characters. intros Hin Hcond.
  apply in_app_iff in Hin as [Hin | Hin]; [assumption|].
  destruct (can_end f); [|contradiction].
  apply char_in_In in Hin. rewrite Hin in Hcond. discriminate.
Qed.

(** A character the caller may feed: what it leaves of the heap and
    of the stack. *)
Lemma step_footprint (p p' : JsonSchemaParser) (c : ascii) :
  Inv p ->
  In c (get_allowed_characters p) ->
  add_character p c = Ok p' ->
  footprint (heap p) (object_stack p) (heap p', object_stack p').
Proof.
  destruct p as [root h stack]. unfold Inv, get_allowed_characters, add_character, deepcopy.
  cbn [heap object_stack model_class]. intros [Hgood Hinv] Hin.
  destruct stack as [|self rest]; [contradiction|].
  destruct Hinv as [(f & E) Hrest]. cbn [fst snd] in E, Hrest. rewrite E in Hin.
  cbn [heap object_stack model_class].
  destruct (Frame_add_character root (self :: rest) h c) as [st|] eqn:Hst;
    cbn [bind]; [|discriminate].
  intros [= <-]. cbn [heap object_stack].
  enough (footprint h (self :: rest) st) by now destruct st.
  pose proof (Forall_good_lookup h self f Hgood E) as Hf.
  assert (forall c' st', Frame_add_character root rest h c' = Ok st' -> footprint h rest st')
    as Hparent by (intros c' st'; now apply container_footprint).
  assert (forall c' st', finish_parser (Frame_add_character root rest) rest h (Some c') = Ok st' ->
                         footprint h (self :: rest) st') as Hfinish.
  { intros c' st'. now apply footprint_finish. }
  destruct f as [o|n|s|l].
  - apply container_footprint with root c; try assumption.
    intros a [<- | Ha]; [now exists (ObjectFrame o) | now apply Hrest].
  - cbn [Frame_add_character] in Hst. rewrite E in Hst.
    unfold Number_add_character, Primitive_add_character in Hst. destruct Hf as [He _].
    destruct (can_end (NumberFrame n) && char_in c (ending_characters (number_base n)))
      eqn:Hcond.
    + apply andb_true_iff in Hcond as [_ Hc].
      destruct (ending_not_content _ _ He Hc) as [Hdot _]. rewrite Hdot in Hst.
      rewrite bind_Ok in Hst. now apply Hfinish with c.
    + cbn [bind fst snd] in Hst.
      pose proof (update_number n c
                    (allowed_primitive (NumberFrame n) (number_base n) c Hin Hcond)) as Hu.
      unfold number_after in Hu.
      destruct (Ascii.eqb c "."); injection Hst as <-.
      * rewrite (modify_modify _ _ _ _ _ E).
        now apply footprint_insert with (NumberFrame n).
      * rewrite (modify_lookup _ _ _ _ E).
        now apply footprint_insert with (NumberFrame n).
  - cbn [Frame_add_character] in Hst. rewrite E in Hst.
    unfold String_add_character, Primitive_add_character in Hst. cbn in Hf.
    destruct (can_end (StringFrame s) && char_in c (ending_characters (string_base s)))
      eqn:Hcond.
    + apply andb_true_iff in Hcond as [_ Hc].
      destruct (ending_not_content _ _ Hf Hc) as [_ Hq]. rewrite Hq in Hst.
      rewrite bind_Ok in Hst. now apply Hfinish with c.
    + cbn [bind fst snd] in Hst.
      pose proof (update_string s c
                    (allowed_primitive (StringFrame s) (string_base s) c Hin Hcond)) as Hu.
      unfold string_after in Hu.
      destruct (Ascii.eqb c dquote); injection Hst as <-.
      * rewrite (modify_modify _ _ _ _ _ E).
        apply footprint_insert with (StringFrame s); [assumption | | reflexivity].
        cbn [set_parsed_string set_base string_base seen_opening_quote allowed_strings
             seen_closing_quote parsed_string ending_characters].
        now destruct (negb (seen_opening_quote s)).
      * rewrite (modify_lookup _ _ _ _ E).
        now apply footprint_insert with (StringFrame s).
  - apply container_footprint with root c; try assumption.
    intros a [<- | Ha]; [now exists (ListFrame l) | now apply Hrest].
Qed.

(** An invariant of the frames: what holds of every constructed frame
    and is kept by every update holds of every frame of a parser the
    caller can reach. *)
Lemma reachable_frames (Q : Frame -> Prop) :
  (forall f, initial f -> Q f) ->
  (forall f g, Q f -> frame_update f g -> Q g) ->
  forall schema p, reachable schema p -> Forall Q (heap p).
Proof.
  intros Hinit Hstep schema p Hp.
  assert (forall f g, frame_updates f g -> Q f -> Q g) as Hsteps.
  { intros f g U. induction U as [|f g k _ IH Hu]; [trivial|].
    intros Hf. apply Hstep with g; [now apply IH | assumption]. }
  induction Hp as [|p c p' Hp IH Hin Hadd].
  - repeat constructor. apply Hinit. right. exists ["}"]. split; [now left|].
    right. left. now eexists.
  - apply Forall_lookup. intros a f' E.
    destruct (step_footprint p p' c (reachable_Inv _ _ Hp) Hin Hadd) as (He & _).
    destruct (He a f' E) as [(f & Ef & U) | (_ & f & Hf & U)].
    + apply Hsteps with f; [assumption|]. now apply (proj1 (Forall_lookup Q (heap p)) IH a).
    + apply Hsteps with f; [assumption | now apply Hinit].
Qed.

(** ** The shape of the stack *)

(** X1. In every parser the caller can reach, the top of the stack is
    a frame of the heap and every frame below the top is an object
    frame or a list frame. *)
Theorem stack_structure (schema : JsonSchemaObject) (p : JsonSchemaParser)
    (top : addr) (rest : list addr) :
  reachable schema p ->
  object_stack p = top :: rest ->
  (exists f, heap p !! top = Some f)
  /\ forall a, In a rest -> exists f, heap p !! a = Some f /\ is_container f.
Proof.
  intros Hp E. apply reachable_Inv in Hp as [_ Hinv].
  unfold stack_inv in Hinv. cbn [fst snd] in Hinv. now rewrite E in Hinv.
Qed.

Lemma stack_structure_witness :
  (exists f, heap (after schema_a "{'a':[1") !! 3 = Some f)
  /\ forall a, In a [2; 0] ->
       exists f, heap (after schema_a "{'a':[1") !! a = Some f /\ is_container f.
Proof.
  apply (stack_structure schema_a (after schema_a "{'a':[1") 3 [2; 0]).
  - apply drive_reachable with (json "{'a':[1") (JsonSchemaParser_init schema_a);
      [constructor | vm_compute; reflexivity].
  - vm_compute. reflexivity.
Defined.

(** X2. A character the caller may feed pushes at most one frame: the
    new stack is a suffix of the old one, or one frame on top of such
    a suffix; and the heap gains at most one frame. *)
Theorem step_pushes_at_most_one (schema : JsonSchemaObject) (p p' : JsonSchemaParser)
    (c : ascii) :
  reachable schema p ->
  In c (get_allowed_characters p) ->
  add_character p c = Ok p' ->
  (object_stack p' `suffix_of` object_stack p
   \/ exists a tl, object_stack p' = a :: tl /\ tl `suffix_of` object_stack p)
  /\ length (heap p) <= length (heap p') <= S (length (heap p)).
Proof.
  intros Hp Hin Hadd.
  destruct (step_footprint p p' c (reachable_Inv _ _ Hp) Hin Hadd) as (_ & Hl & Hs).
  split; assumption.
Qed.

Lemma step_pushes_at_most_one_witness :
  exists p',
    add_character (after schema_a "{'a':[1") "," = Ok p'
    /\ ((object_stack p' `suffix_of` object_stack (after schema_a "{'a':[1")
         \/ exists a tl, object_stack p' = a :: tl
                         /\ tl `suffix_of` object_stack (after schema_a "{'a':[1"))
        /\ length (heap (after schema_a "{'a':[1")) <= length (heap p')
           <= S (length (heap (after schema_a "{'a':[1")))).
Proof.
  eexists. split; [vm_compute; reflexivity|].
  apply (step_pushes_at_most_one schema_a (after schema_a "{'a':[1") _ ",").
  - apply drive_reachable with (json "{'a':[1") (JsonSchemaParser_init schema_a);
      [constructor | vm_compute; reflexivity].
  - apply char_in_In. vm_compute. reflexivity.
  - vm_compute. reflexivity.
Defined.

(** ** Ending characters *)

Lemma frame_update_base (f g : Frame) (b : PrimitiveParsingState) :
  frame_update f g -> base f = Some b ->
  exists b', base g = Some b' /\ ending_characters b' = ending_characters b.
Proof.
  intros U. destruct U; cbn; try discriminate; intros [= <-]; try (eexists; split; reflexivity).
  unfold string_after. destruct (Ascii.eqb c dquote); [destruct (negb _)|];
    eexists; split; reflexivity.
Qed.

Lemma ending_known_inv (schema : JsonSchemaObject) (p : JsonSchemaParser) :
  reachable schema p -> Forall ending_known (heap p).
Proof.
  apply reachable_frames.
  - intros f [(k & ->) | (e & He & Hf)]; [cbn; auto|].
    assert (In e endings) by (right; exact He).
    destruct Hf as [(a & ->) | [(s & ->) | [(b & ->) | (m & ->)]]]; cbn; auto.
  - intros f g Hf U. unfold ending_known in *.
    destruct (base f) as [b|] eqn:Eb.
    + destruct (frame_update_base f g b U Eb) as (b' & -> & ->). exact Hf.
    + destruct U; cbn in *; try discriminate; exact I.
Qed.

(** X3. The ending characters of every number, string and list frame
    of a reachable parser are the colon (a key), the closing brace
    with or without the comma (a value of an object), or the closing
    bracket and the comma (an item of a list). *)
Theorem ending_characters_of_frames (schema : JsonSchemaObject) (p : JsonSchemaParser)
    (a : addr) (f : Frame) (b : PrimitiveParsingState) :
  reachable schema p ->
  heap p !! a = Some f ->
  base f = Some b ->
  ending_characters b = [":"]
  \/ ending_characters b = ["}"]
  \/ ending_characters b = ["}"; ","]
  \/ ending_characters b = ["]"; ","].
Proof.
  intros Hp E Eb. apply ending_known_inv in Hp.
  pose proof (proj1 (Forall_lookup ending_known (heap p)) Hp a f E) as H.
  unfold ending_known in H. rewrite Eb in H. cbn in H. intuition.
Qed.

Lemma ending_characters_of_frames_witness :
  ending_characters (mkPrimitive (lit "1") ["]"; ","]) = [":"]
  \/ ending_characters (mkPrimitive (lit "1") ["]"; ","]) = ["}"]
  \/ ending_characters (mkPrimitive (lit "1") ["]"; ","]) = ["}"; ","]
  \/ ending_characters (mkPrimitive (lit "1") ["]"; ","]) = ["]"; ","].
Proof.
  apply (ending_characters_of_frames schema_a (after schema_a "{'a':[1") 3
           (NumberFrame (mkNumber (mkPrimitive (lit "1") ["]"; ","]) true false))).
  - apply drive_reachable with (json "{'a':[1") (JsonSchemaParser_init schema_a);
      [constructor | vm_compute; reflexivity].
  - vm_compute. reflexivity.
  - reflexivity.
Defined.

(** ** The keys of an object frame *)

Lemma keys_known_inv (schema : JsonSchemaObject) (p : JsonSchemaParser) :
  reachable schema p -> Forall keys_known (heap p).
Proof.
  apply reachable_frames.
  - intros f [(k & ->) | (e & He & Hf)]; [exact I|].
    destruct Hf as [(a & ->) | [(s & ->) | [(b & ->) | (m & ->)]]]; cbn; auto.
    intros _ _ k [].
  - intros f g Hf U. destruct U; cbn in *; auto.
    intros p' Hp' k Hk. apply in_app_iff in Hk as [Hk | [<- | []]]; [exact (Hf p' Hp' k Hk) | eauto].
Qed.

(** X4. In every reachable parser, the keys recorded in
    [existing_keys] of an object frame with a properties map are names
    of that map: a key that names no property is never recorded. *)
Theorem existing_keys_are_properties (schema : JsonSchemaObject) (p : JsonSchemaParser)
    (a : addr) (o : ObjectParsingState) (props : list (str * JsonSchemaObject)) (k : str) :
  reachable schema p ->
  heap p !! a = Some (ObjectFrame o) ->
  properties (schema_object o) = Some props ->
  In k (existing_keys o) ->
  In k (keys props).
Proof.
  intros Hp E Hprops Hk. apply keys_known_inv in Hp.
  pose proof (proj1 (Forall_lookup keys_known (heap p)) Hp a _ E) as H.
  now apply (H props).
Qed.

Lemma existing_keys_are_properties_witness :
  In (lit "n") (keys [(lit "n", schema_of_type "integer")]).
Proof.
  apply (existing_keys_are_properties schema_n (after schema_n "{'n':4") 0
           (mkObject schema_n PARSING_VALUE [lit "n"] (Some (lit "n")) None)).
  - apply drive_reachable with (json "{'n':4") (JsonSchemaParser_init schema_n);
      [constructor | vm_compute; reflexivity].
  - vm_compute. reflexivity.
  - reflexivity.
  - left. reflexivity.
Defined.

Lemma issuperset_spec (l m : list str) :
  issuperset l m = true <-> forall k, In k m -> In k l.
Proof.
  unfold issuperset. rewrite forallb_forall. split.
  - intros H k Hk. apply str_in_In. now apply H.
  - intros H k Hk. apply str_in_In. now apply H.
Qed.

(** X5. In every reachable parser whose top frame is an object frame,
    the allowed characters depend on the stage of the frame alone:
    the space, and the opening brace at the start, the closing brace
    and the quote where a key may start, the closing brace and the
    comma after a value.  The keys already seen never remove the quote
    or the comma. *)
Theorem object_allowed_by_stage (schema : JsonSchemaObject) (p : JsonSchemaParser)
    (o : ObjectParsingState) :
  reachable schema p ->
  top_frame p = Some (ObjectFrame o) ->
  get_allowed_characters p =
  " " :: match current_stage o with
         | START_OBJECT => ["{"]
         | PARSING_KEY_OR_END => ["}"; dquote]
         | PARSING_VALUE | PARSING_SEPARATOR_OR_END => ["}"; ","]
         | END_OBJECT => []
         end.
Proof.
  intros Hp E. unfold top_frame in E. unfold get_allowed_characters.
  destruct (object_stack p) as [|top rest]; [discriminate|]. rewrite E.
  apply keys_known_inv in Hp.
  pose proof (proj1 (Forall_lookup keys_known (heap p)) Hp top _ E) as Hk. cbn in Hk.
  unfold Frame_get_allowed_characters, Object_get_allowed_characters, is_dictionary.
  destruct (properties (schema_object o)) as [props|].
  - replace (issuperset (keys props) (existing_keys o)) with true.
    + now destruct (current_stage o).
    + symmetry. apply issuperset_spec. now apply Hk.
  - now destruct (current_stage o).
Qed.

Lemma object_allowed_by_stage_witness :
  get_allowed_characters (after schema_o "{'o':{},") = [" "; "}"; dquote].
Proof.
  apply (object_allowed_by_stage schema_o (after schema_o "{'o':{},")
           (mkObject schema_o PARSING_KEY_OR_END [lit "o"] (Some (lit "o")) None)).
  - apply drive_reachable with (json "{'o':{},") (JsonSchemaParser_init schema_o);
      [constructor | vm_compute; reflexivity].
  - vm_compute. reflexivity.
Defined.

(** ** The string of a number frame and of a string frame *)

Lemma point_seen_inv (schema : JsonSchemaObject) (p : JsonSchemaParser) :
  reachable schema p -> Forall point_seen (heap p).
Proof.
  apply reachable_frames.
  - intros f [(k & ->) | (e & He & Hf)]; [exact I|].
    destruct Hf as [(a & ->) | [(s & ->) | [(b & ->) | (m & ->)]]]; cbn; auto.
    discriminate.
  - intros f g Hf U. destruct U; cbn in *; auto.
    intros Hs. apply in_app_iff. destruct (Ascii.eqb c ".") eqn:Ec.
    + right. left. symmetry. now apply Ascii.eqb_eq.
    + left. now apply Hf.
Qed.

Lemma decimal_points_In (s : str) : decimal_points s = 0 -> ~ In "." s.
Proof.
  unfold decimal_points. intros H Hin.
  assert (In "." (List.filter (Ascii.eqb ".") s)) as Hf
    by (apply filter_In; split; [assumption | reflexivity]).
  destruct (List.filter (Ascii.eqb ".") s); [contradiction | discriminate].
Qed.

(** X6. In every reachable parser, [seen_decimal_point] of a number
    frame is true exactly when [parsed_string] holds a decimal
    point. *)
Theorem seen_decimal_point_iff (schema : JsonSchemaObject) (p : JsonSchemaParser)
    (a : addr) (n : NumberParsingState) :
  reachable schema p ->
  heap p !! a = Some (NumberFrame n) ->
  seen_decimal_point n = true <-> In "." (parsed_string (number_base n)).
Proof.
  intros Hp E. split.
  - apply point_seen_inv in Hp.
    now apply (proj1 (Forall_lookup point_seen (heap p)) Hp a _ E).
  - intros Hin. apply reachable_Inv in Hp as [Hgood _].
    destruct (Forall_good_lookup _ _ _ Hgood E) as [_ (_ & _ & Hseen & _)].
    destruct (seen_decimal_point n); [reflexivity|].
    exfalso. now apply (decimal_points_In _ (Hseen eq_refl)).
Qed.

Lemma seen_decimal_point_iff_witness :
  seen_decimal_point (mkNumber (mkPrimitive (lit "1.") ["]"; ","]) true true) = true
  <-> In "." (lit "1.").
Proof.
  apply (seen_decimal_point_iff schema_a (after schema_a "{'a':[1.") 3
           (mkNumber (mkPrimitive (lit "1.") ["]"; ","]) true true)).
  - apply drive_reachable with (json "{'a':[1.") (JsonSchemaParser_init schema_a);
      [constructor | vm_compute; reflexivity].
  - vm_compute. reflexivity.
Defined.

(** The characters a string frame allows by itself, case by case. *)
Lemma string_allowed_cases (s : StringParsingState) (c : ascii) :
  In c (String_get_allowed_primitive_characters s) ->
  (seen_opening_quote s = false /\ c = dquote)
  \/ (seen_opening_quote s = true /\ seen_closing_quote s = false
      /\ ((exists members, allowed_strings s = Some members /\ members <> []
                           /\ enum_next members (parsed_string (string_base s)) c)
          \/ (truthy (allowed_strings s) = false /\ In c free_form_characters))).
Proof.
  unfold String_get_allowed_primitive_characters.
  destruct (seen_opening_quote s); cbn [negb].
  2: { intros [<- | []]. now left. }
  destruct (seen_closing_quote s); [intros []|].
  intros Hin. right. split; [reflexivity|]. split; [reflexivity|].
  destruct (allowed_strings s) as [[|m0 members]|]; cbn [truthy] in *; try (right; now split).
  left. exists (m0 :: members). split; [reflexivity|]. split; [discriminate|].
  unfold id in Hin. cbn [from_option] in Hin.
  apply in_app_iff in Hin as [Hin | Hin].
  - left. now apply enum_characters_In, (py_set_In _ _ _ Ascii.eqb_eq).
  - right. destruct (str_in _ _) eqn:Hm; [|contradiction].
    destruct Hin as [<- | []]. split; [reflexivity | now apply str_in_In].
Qed.

Lemma string_after_quote (s : StringParsingState) :
  seen_opening_quote s = true ->
  string_after s dquote
  = mkString (string_base s) (allowed_strings s) true true.
Proof.
  intros Ho. unfold string_after. change (Ascii.eqb dquote dquote) with true.
  rewrite Ho. cbn [negb]. rewrite removelast_last. now destruct s as [[] ? ? ?].
Qed.

Lemma string_after_opening (s : StringParsingState) :
  seen_opening_quote s = false ->
  string_after s dquote
  = mkString (mkPrimitive [] (ending_characters (string_base s))) (allowed_strings s)
             (seen_closing_quote s) true.
Proof.
  intros Ho. unfold string_after. change (Ascii.eqb dquote dquote) with true.
  now rewrite Ho.
Qed.

Lemma string_after_content (s : StringParsingState) (c : ascii) :
  c <> dquote ->
  string_after s c
  = mkString (mkPrimitive (parsed_string (string_base s) ++ [c])
                          (ending_characters (string_base s)))
             (allowed_strings s) (seen_closing_quote s) (seen_opening_quote s).
Proof.
  intros Hc. unfold string_after. apply Ascii.eqb_neq in Hc. now rewrite Hc.
Qed.

(** The three ways a string frame takes an allowed character. *)
Lemma string_update_cases (s : StringParsingState) (c : ascii) (P : StringParsingState -> Prop) :
  In c (String_get_allowed_primitive_characters s) ->
  (seen_opening_quote s = false -> c = dquote ->
   P (mkString (mkPrimitive [] (ending_characters (string_base s))) (allowed_strings s)
               (seen_closing_quote s) true)) ->
  (seen_opening_quote s = true -> seen_closing_quote s = false -> c = dquote ->
   P (mkString (string_base s) (allowed_strings s) true true)) ->
  (seen_opening_quote s = true -> seen_closing_quote s = false -> c <> dquote ->
   P (mkString (mkPrimitive (parsed_string (string_base s) ++ [c])
                            (ending_characters (string_base s)))
               (allowed_strings s) false true)) ->
  P (string_after s c).
Proof.
  intros Hin H1 H2 H3.
  destruct (string_allowed_cases s c Hin) as [[Ho ->] | (Ho & Hc & _)].
  - rewrite (string_after_opening s Ho). now apply H1.
  - destruct (ascii_dec c dquote) as [-> | Hne].
    + rewrite (string_after_quote s Ho). now apply H2.
    + rewrite (string_after_content s c Hne), Ho, Hc. now apply H3.
Qed.

Lemma quote_free_inv (schema : JsonSchemaObject) (p : JsonSchemaParser) :
  reachable schema p -> Forall quote_free (heap p).
Proof.
  apply reachable_frames.
  - intros f [(k & ->) | (e & He & Hf)]; [cbn; auto|].
    destruct Hf as [(a & ->) | [(s & ->) | [(b & ->) | (m & ->)]]]; cbn; auto.
  - intros f g Hf U. destruct U as [| | | | | | |s c Hin]; cbn in *; auto.
    destruct Hf as [Hq He].
    apply (string_update_cases s c); [assumption | | |]; cbn.
    + auto.
    + intros _ _ _. split; [assumption | discriminate].
    + intros _ _ Hne. split; [|discriminate].
      intros H. apply in_app_iff in H as [H | [H | []]]; [now apply Hq | now apply Hne].
Qed.

(** X7. In every reachable parser, [parsed_string] of a string frame
    holds no double quote, and is empty as long as the opening quote
    has not been seen: neither quote of a string is part of its
    value. *)
Theorem parsed_string_has_no_quote (schema : JsonSchemaObject) (p : JsonSchemaParser)
    (a : addr) (s : StringParsingState) :
  reachable schema p ->
  heap p !! a = Some (StringFrame s) ->
  ~ In dquote (parsed_string (string_base s))
  /\ (seen_opening_quote s = false -> parsed_string (string_base s) = []).
Proof.
  intros Hp E. apply quote_free_inv in Hp.
  exact (proj1 (Forall_lookup quote_free (heap p)) Hp a _ E).
Qed.

Lemma parsed_string_has_no_quote_witness :
  exists s,
    heap (after schema_flag "{'flag':'yes'") !! 2 = Some (StringFrame s)
    /\ parsed_string (string_base s) = lit "yes"
    /\ ~ In dquote (parsed_string (string_base s))
    /\ (seen_opening_quote s = false -> parsed_string (string_base s) = []).
Proof.
  eexists. split; [vm_compute; reflexivity|]. split; [reflexivity|].
  apply (parsed_string_has_no_quote schema_flag (after schema_flag "{'flag':'yes'") 2).
  - apply drive_reachable with (json "{'flag':'yes'") (JsonSchemaParser_init schema_flag);
      [constructor | vm_compute; reflexivity].
  - vm_compute. reflexivity.
Defined.

(** ** Enumerations *)

Lemma enum_next_content (s : StringParsingState) (c : ascii) (members : list str) :
  In c (String_get_allowed_primitive_characters s) ->
  allowed_strings s = Some members ->
  members <> [] ->
  seen_opening_quote s = true ->
  enum_next members (parsed_string (string_base s)) c.
Proof.
  intros Hin Ha Hne Ho.
  destruct (string_allowed_cases s c Hin) as [[Ho' _] | (_ & _ & [H | [Ht _]])].
  - congruence.
  - destruct H as (members' & Ha' & _ & H). congruence.
  - rewrite Ha in Ht. destruct members; [congruence | discriminate].
Qed.

Lemma enum_prefix_inv (schema : JsonSchemaObject) (p : JsonSchemaParser) :
  reachable schema p -> Forall enum_prefix (heap p).
Proof.
  apply reachable_frames.
  - assert (forall e a r, enum_prefix (StringFrame (StringParsingState_init e a r))) as Hs.
    { intros e a r. split; [reflexivity|]. intros [|m members] _ Hne _ _; [congruence|].
      exists m, m. split; [now left | reflexivity]. }
    intros f [(k & ->) | (e & He & Hf)]; [apply Hs|].
    destruct Hf as [(a & ->) | [(s & ->) | [(b & ->) | (m & ->)]]];
      [apply Hs | exact I | exact I | exact I].
  - intros f g Hf U. destruct U as [| | | | | | |s c Hin]; cbn in *; auto.
    destruct Hf as [Hoc Hpre].
    apply (string_update_cases s c); [assumption | | |]; cbn.
    + intros Ho _. split; [discriminate|]. intros [|m members] _ Hne _ _; [congruence|].
      exists m, m. split; [now left | reflexivity].
    + intros _ _ _. split; [discriminate|]. intros members _ _ _. discriminate.
    + intros Ho Hc Hne. split; [discriminate|]. intros members Ha Hm _ _.
      destruct (enum_next_content s c members Hin Ha Hm Ho) as [(m & tail & Hin' & ->) | [-> _]];
        [|contradiction].
      exists (parsed_string (string_base s) ++ c :: tail), tail.
      split; [assumption|]. now rewrite <- app_assoc.
Qed.

(** X8. In every reachable parser, a string frame with a non-empty
    enumeration that is between its quotes holds in [parsed_string]
    the beginning of a member of the enumeration. *)
Theorem enum_string_is_prefix (schema : JsonSchemaObject) (p : JsonSchemaParser)
    (a : addr) (s : StringParsingState) (members : list str) :
  reachable schema p ->
  heap p !! a = Some (StringFrame s) ->
  allowed_strings s = Some members ->
  members <> [] ->
  seen_opening_quote s = true ->
  seen_closing_quote s = false ->
  exists m tail, In m members /\ m = parsed_string (string_base s) ++ tail.
Proof.
  intros Hp E Ha Hne Ho Hc. apply enum_prefix_inv in Hp.
  destruct (proj1 (Forall_lookup enum_prefix (heap p)) Hp a _ E) as [_ H].
  now apply H.
Qed.

Lemma enum_string_is_prefix_witness :
  exists m tail, In m [lit "yes"; lit "no"] /\ m = lit "ye" ++ tail.
Proof.
  apply (enum_string_is_prefix schema_flag (after schema_flag "{'flag':'ye") 2
           (mkString (mkPrimitive (lit "ye") ["}"]) (Some [lit "yes"; lit "no"]) false true)).
  - apply drive_reachable with (json "{'flag':'ye") (JsonSchemaParser_init schema_flag);
      [constructor | vm_compute; reflexivity].
  - vm_compute. reflexivity.
  - reflexivity.
  - discriminate.
  - reflexivity.
  - reflexivity.
Defined.

Lemma enum_member_inv (schema : JsonSchemaObject) (p : JsonSchemaParser) :
  reachable schema p -> Forall enum_member (heap p).
Proof.
  apply reachable_frames.
  - assert (forall e a r, enum_member (StringFrame (StringParsingState_init e a r))) as Hs.
    { intros e a r. split; [reflexivity|]. intros members _ _ _. discriminate. }
    intros f [(k & ->) | (e & He & Hf)]; [apply Hs|].
    destruct Hf as [(a & ->) | [(s & ->) | [(b & ->) | (m & ->)]]];
      [apply Hs | exact I | exact I | exact I].
  - intros f g Hf U. destruct U as [| | | | | | |s c Hin]; cbn in *; auto.
    destruct Hf as [Hoc Hmem].
    apply (string_update_cases s c); [assumption | | |]; cbn.
    + intros Ho _. split; [discriminate|]. intros members _ _ _ Hc.
      rewrite (Hoc Ho) in Hc. discriminate.
    + intros Ho Hc ->. split; [discriminate|]. intros members Ha Hm Hq _.
      destruct (enum_next_content s dquote members Hin Ha Hm Ho)
        as [(m & tail & Hin' & ->) | [_ H]]; [|assumption].
      exfalso. apply (Hq _ Hin'). apply in_app_iff. right. now left.
    + intros _ _ _. split; [discriminate|]. intros members _ _ _. discriminate.
Qed.

(** X9. In every reachable parser, a string frame with a non-empty
    enumeration whose members hold no double quote, once it has seen
    its closing quote, holds a member of the enumeration in
    [parsed_string]. *)
Theorem enum_string_closed_is_member (schema : JsonSchemaObject) (p : JsonSchemaParser)
    (a : addr) (s : StringParsingState) (members : list str) :
  reachable schema p ->
  heap p !! a = Some (StringFrame s) ->
  allowed_strings s = Some members ->
  members <> [] ->
  (forall m, In m members -> ~ In dquote m) ->
  seen_closing_quote s = true ->
  In (parsed_string (string_base s)) members.
Proof.
  intros Hp E Ha Hne Hq Hc. apply enum_member_inv in Hp.
  destruct (proj1 (Forall_lookup enum_member (heap p)) Hp a _ E) as [_ H].
  now apply H.
Qed.

Lemma enum_string_closed_is_member_witness :
  In (lit "yes") [lit "yes"; lit "no"].
Proof.
  apply (enum_string_closed_is_member schema_flag (after schema_flag "{'flag':'yes'") 2
           (mkString (mkPrimitive (lit "yes") ["}"]) (Some [lit "yes"; lit "no"]) true true)).
  - apply drive_reachable with (json "{'flag':'yes'") (JsonSchemaParser_init schema_flag);
      [constructor | vm_compute; reflexivity].
  - vm_compute. reflexivity.
  - reflexivity.
  - discriminate.
  - intros m [<- | [<- | []]]; vm_compute; intuition discriminate.
  - reflexivity.
Defined.

(** ** No dead end *)

(** X10. In every reachable parser, [get_allowed_characters()] is
    empty exactly when the stack is empty: as long as the document is
    not complete the parser offers at least one character. *)
Theorem allowed_empty_iff_complete (schema : JsonSchemaObject) (p : JsonSchemaParser) :
  reachable schema p ->
  get_allowed_characters p = [] <-> JsonSchemaParser_can_end p = true.
Proof.
  intros Hp. unfold get_allowed_characters, JsonSchemaParser_can_end.
  pose proof (reachable_Inv _ _ Hp) as [_ Hinv].
  unfold stack_inv in Hinv. cbn [fst snd] in Hinv.
  destruct (object_stack p) as [|top rest]; [tauto|].
  destruct Hinv as [(f & E) _]. rewrite E. split; [|discriminate]. intros Hempty. exfalso.
  pose proof (proj1 (Forall_lookup ending_known (heap p)) (ending_known_inv _ _ Hp) top f E)
    as Hend.
  pose proof (proj1 (Forall_lookup enum_prefix (heap p)) (enum_prefix_inv _ _ Hp) top f E)
    as Hpre.
  assert (forall b, base f = Some b -> ending_characters b <> []) as Hne.
  { intros b Hb. unfold ending_known in Hend. rewrite Hb in Hend. cbn in Hend.
    destruct Hend as [<- | [<- | [<- | [<- | []]]]]; discriminate. }
  destruct f as [o|n|s|l].
  - discriminate Hempty.
  - discriminate Hempty.
  - unfold Frame_get_allowed_characters, Primitive_get_allowed_characters in Hempty.
    cbn [base can_end] in Hempty. apply app_eq_nil in Hempty as [H1 H2].
    unfold String_can_end in H2. unfold String_get_allowed_primitive_characters in H1.
    destruct (seen_opening_quote s) eqn:Ho; [|discriminate]. cbn [negb] in H1.
    destruct (seen_closing_quote s) eqn:Hc; [now apply (Hne _ eq_refl)|].
    destruct (allowed_strings s) as [[|m0 members]|] eqn:Ha; try discriminate.
    cbn [truthy from_option] in H1. unfold id in H1.
    destruct Hpre as [_ Hpre].
    destruct (Hpre (m0 :: members) Ha ltac:(discriminate) Ho Hc)
      as (m & tail & Hm & Htail).
    apply app_eq_nil in H1 as [Hnext Hquote]. destruct tail as [|c tail].
    + rewrite app_nil_r in Htail. subst m. apply str_in_In in Hm.
      rewrite Hm in Hquote. discriminate.
    + assert (In c (py_set Ascii.eqb
                      (flat_map (fun k : str => match k with [] => [] | d :: _ => [d] end)
                         (List.map (drop (length (parsed_string (string_base s))))
                            (List.filter
                               (fun m => startswith m (parsed_string (string_base s)))
                               (m0 :: members)))))) as Hin.
      { apply (py_set_In _ _ _ Ascii.eqb_eq), enum_characters_In. now exists m, tail. }
      rewrite Hnext in Hin. contradiction.
  - unfold Frame_get_allowed_characters, Primitive_get_allowed_characters in Hempty.
    cbn [base can_end] in Hempty. apply app_eq_nil in Hempty as [H1 H2].
    unfold List_can_end in H2. unfold List_get_allowed_primitive_characters in H1.
    destruct (seen_list_opener l); [|discriminate]. cbn [negb] in H1.
    destruct (seen_list_closer l); [now apply (Hne _ eq_refl) | discriminate].
Qed.

Lemma allowed_empty_iff_complete_witness :
  get_allowed_characters (after schema_n "{'n':42}") = []
  <-> JsonSchemaParser_can_end (after schema_n "{'n':42}") = true.
Proof.
  apply (allowed_empty_iff_complete schema_n).
  apply drive_reachable with (json "{'n':42}") (JsonSchemaParser_init schema_n);
    [constructor | vm_compute; reflexivity].
Defined.

(** ** Errors of the dispatcher and of the object frame *)

Lemma str_eqb_neq (s t : str) : s <> t -> str_eqb s t = false.
Proof.
  intros H. destruct (str_eqb s t) eqn:E; [|reflexivity]. now apply str_eqb_eq in E.
Qed.

(** X11. The dispatcher raises the unsupported-type error for every
    schema whose type is none of string, object, integer, number and
    array (so for boolean and null), and for a schema without type
    and without a non-empty reference; a missing schema raises an
    attribute error. *)
Theorem get_parser_unsupported (root : JsonSchemaObject) (ending : str) :
  (forall vs t,
     type vs = Some t -> ~ In t supported_types ->
     get_parser root (Some vs) ending = Raise UnsupportedType)
  /\ (forall vs,
        type vs = None -> truthy (ref vs) = false ->
        get_parser root (Some vs) ending = Raise UnsupportedType)
  /\ get_parser root None ending = Raise AttributeError.
Proof.
  split; [|split; [|reflexivity]].
  - intros vs t Ht Hno. unfold get_parser, type_is. rewrite Ht.
    assert (forall name, In (lit name) supported_types -> str_eqb t (lit name) = false) as H.
    { intros name Hin. apply str_eqb_neq. intros ->. now apply Hno. }
    rewrite !H; [reflexivity | ..]; cbn; auto 10.
  - intros vs Ht Hr. unfold get_parser, type_is. now rewrite Ht, Hr.
Qed.

Lemma get_parser_unsupported_witness :
  get_parser schema_n (Some (schema_of_type "boolean")) ["}"] = Raise UnsupportedType
  /\ get_parser schema_n
       (Some (mkSchema None None None None None None [])) ["}"] = Raise UnsupportedType.
Proof.
  split.
  - apply (proj1 (get_parser_unsupported schema_n ["}"]) _ (lit "boolean")); [reflexivity|].
    cbn. intuition discriminate.
  - apply (proj1 (proj2 (get_parser_unsupported schema_n ["}"]))); reflexivity.
Defined.

(** X12. When the key that was just closed names no property of an
    object frame with a properties map, the colon is an allowed
    character and feeding it raises a key error: the lookup of the
    value schema fails. *)
Theorem missing_property_raises (p : JsonSchemaParser) (key self : addr) (rest : list addr)
    (s : StringParsingState) (o : ObjectParsingState) (props : list (str * JsonSchemaObject)) :
  object_stack p = key :: self :: rest ->
  heap p !! key = Some (StringFrame s) ->
  seen_opening_quote s = true ->
  seen_closing_quote s = true ->
  ending_characters (string_base s) = [":"] ->
  heap p !! self = Some (ObjectFrame o) ->
  current_stage o = PARSING_KEY_OR_END ->
  current_key_parser o = Some key ->
  properties (schema_object o) = Some props ->
  dict_get props (parsed_string (string_base s)) = None ->
  get_allowed_characters p = [":"]
  /\ add_character p ":" = Raise KeyError.
Proof.
  intros Hstack Ekey Ho Hc Hend Eself Hstage Hparser Hprops Hget.
  destruct p as [root h stack]. cbn in Hstack, Ekey, Eself. subst stack. split.
  - unfold get_allowed_characters. cbn [object_stack heap]. rewrite Ekey.
    unfold Frame_get_allowed_characters, Primitive_get_allowed_characters.
    cbn [base can_end]. unfold String_can_end, String_get_allowed_primitive_characters.
    now rewrite Ho, Hc, Hend.
  - unfold add_character, deepcopy. cbn [object_stack heap model_class Frame_add_character].
    rewrite Ekey. unfold String_add_character, Primitive_add_character.
    cbn [can_end]. unfold String_can_end. rewrite Hc, Hend.
    change (char_in ":" [":"]) with true. cbn [andb finish_parser Frame_add_character].
    rewrite Eself. unfold Object_add_character.
    change (is_py_space ":") with false. rewrite Hstage.
    change (Ascii.eqb ":" "}") with false. change (Ascii.eqb ":" dquote) with false.
    change (Ascii.eqb ":" ":") with true. cbn iota.
    rewrite Hparser, Ekey. cbn [base bind]. rewrite Hprops, Hget. reflexivity.
Qed.

Lemma missing_property_raises_witness :
  drive (JsonSchemaParser_init schema_empty) (json "{'x'")
  = Some (after schema_empty "{'x'")
  /\ get_allowed_characters (after schema_empty "{'x'") = [":"]
  /\ add_character (after schema_empty "{'x'") ":" = Raise KeyError.
Proof.
  split; [vm_compute; reflexivity|].
  eapply (missing_property_raises (after schema_empty "{'x'") 1 0 []).
  - vm_compute. reflexivity.
  - vm_compute. reflexivity.
  - reflexivity.
  - reflexivity.
  - reflexivity.
  - vm_compute. reflexivity.
  - reflexivity.
  - reflexivity.
  - reflexivity.
  - reflexivity.
Defined.

(** X13. A list frame whose item schema is missing raises an attribute
    error on the opening bracket, which is the one character it
    allows. *)
Theorem list_without_items_raises (p : JsonSchemaParser) (self : addr) (rest : list addr)
    (l : ListParsingState) :
  object_stack p = self :: rest ->
  heap p !! self = Some (ListFrame l) ->
  list_member_type l = None ->
  seen_list_opener l = false ->
  seen_list_closer l = false ->
  get_allowed_characters p = ["["]
  /\ add_character p "[" = Raise AttributeError.
Proof.
  intros Hstack E Hm Ho Hc. destruct p as [root h stack]. cbn in Hstack, E. subst stack. split.
  - unfold get_allowed_characters. cbn [object_stack heap]. rewrite E.
    unfold Frame_get_allowed_characters, Primitive_get_allowed_characters.
    cbn [base can_end]. unfold List_can_end, List_get_allowed_primitive_characters.
    now rewrite Ho, Hc.
  - unfold add_character, deepcopy. cbn [object_stack heap model_class Frame_add_character].
    rewrite E. unfold List_add_character. rewrite Hc. cbn [bind fst snd]. rewrite E.
    change (Ascii.eqb "[" "[") with true. cbn iota. now rewrite Hm.
Qed.

Lemma list_without_items_raises_witness :
  drive (JsonSchemaParser_init schema_array_without_items) (json "{'a':")
  = Some (after schema_array_without_items "{'a':")
  /\ get_allowed_characters (after schema_array_without_items "{'a':") = ["["]
  /\ add_character (after schema_array_without_items "{'a':") "[" = Raise AttributeError.
Proof.
  split; [vm_compute; reflexivity|].
  eapply (list_without_items_raises (after schema_array_without_items "{'a':") 2 [0]).
  - vm_compute. reflexivity.
  - vm_compute. reflexivity.
  - reflexivity.
  - reflexivity.
  - reflexivity.
Defined.

(** ** Whitespace in object scope *)

(** X14. When the top frame is an object frame, a whitespace character
    leaves the parser as it is, and the space is always allowed: any
    number of spaces can be fed and nothing changes. *)
Theorem object_skips_whitespace (p : JsonSchemaParser) (o : ObjectParsingState) :
  top_frame p = Some (ObjectFrame o) ->
  (forall c, is_py_space c = true -> add_character p c = Ok p)
  /\ forall k, drive p (repeat " " k) = Some p.
Proof.
  intros E.
  assert (forall c, is_py_space c = true -> add_character p c = Ok p) as Hskip.
  { intros c Hc. destruct p as [root h stack]. unfold top_frame in E. cbn in E.
    destruct stack as [|self rest]; [discriminate|].
    unfold add_character, deepcopy. cbn [object_stack heap model_class Frame_add_character].
    rewrite E. unfold Object_add_character. now rewrite Hc. }
  split; [assumption|].
  induction k as [|k IH]; [reflexivity|]. cbn [repeat drive].
  replace (char_in " " (get_allowed_characters p)) with true.
  - rewrite (Hskip " " eq_refl). exact IH.
  - unfold top_frame in E. unfold get_allowed_characters.
    destruct (object_stack p); [discriminate|]. now rewrite E.
Qed.

Lemma object_skips_whitespace_witness :
  (forall c, is_py_space c = true ->
     add_character (after schema_n "{") c = Ok (after schema_n "{"))
  /\ forall k, drive (after schema_n "{") (repeat " " k) = Some (after schema_n "{").
Proof.
  apply (object_skips_whitespace (after schema_n "{")
           (mkObject schema_n PARSING_KEY_OR_END [] None None)).
  vm_compute. reflexivity.
Defined.

(** ** Keys *)

Lemma py_set_NoDup {A} (eqb : A -> A -> bool) (l : list A) :
  (forall x y, eqb x y = true <-> x = y) -> List.NoDup (py_set eqb l).
Proof.
  intros Heq. induction l as [|x l IH]; cbn [py_set]; constructor.
  - intros H. apply filter_In in H as [_ H].
    rewrite (proj2 (Heq x x) eq_refl) in H. discriminate.
  - now apply List.NoDup_filter.
Qed.

Lemma set_difference_spec (l m : list str) :
  List.NoDup (set_difference l m)
  /\ forall k, In k (set_difference l m) <-> In k l /\ ~ In k m.
Proof.
  unfold set_difference. split.
  - apply List.NoDup_filter, py_set_NoDup, str_eqb_eq.
  - intros k. rewrite filter_In, (py_set_In _ _ _ str_eqb_eq). split.
    + intros [H1 H2]. split; [assumption|]. intros Hm. apply str_in_In in Hm.
      rewrite Hm in H2. discriminate.
    + intros [H1 H2]. split; [assumption|].
      destruct (str_in k m) eqn:Hm; [|reflexivity]. apply str_in_In in Hm. contradiction.
Qed.

(** X15. An object frame with a properties map that takes the quote
    where a key may start pushes a string frame that needs no opening
    quote, ends on the colon, and has for enumeration the property
    names not yet in [existing_keys], each once. *)
Theorem key_parser_enumeration (p : JsonSchemaParser) (self : addr) (rest : list addr)
    (o : ObjectParsingState) (props : list (str * JsonSchemaObject)) :
  object_stack p = self :: rest ->
  heap p !! self = Some (ObjectFrame o) ->
  current_stage o = PARSING_KEY_OR_END ->
  properties (schema_object o) = Some props ->
  exists p' members,
    add_character p dquote = Ok p'
    /\ object_stack p' = length (heap p) :: self :: rest
    /\ top_frame p' = Some (StringFrame (StringParsingState_init [":"] (Some members) false))
    /\ List.NoDup members
    /\ (forall k, In k members <-> In k (keys props) /\ ~ In k (existing_keys o))
    /\ heap p' !! self
       = Some (ObjectFrame (mkObject (schema_object o) PARSING_KEY_OR_END (existing_keys o)
                                     (current_key o) (Some (length (heap p))))).
Proof.
  intros Hstack E Hstage Hprops. destruct p as [root h stack]. cbn in Hstack, E. subst stack.
  pose proof (lookup_lt_Some _ _ _ E) as Hlt.
  unfold add_character, deepcopy. cbn [object_stack heap model_class Frame_add_character].
  rewrite E. unfold Object_add_character.
  change (is_py_space dquote) with false. rewrite Hstage.
  change (Ascii.eqb dquote "}") with false. change (Ascii.eqb dquote dquote) with true.
  cbn iota. rewrite Hprops. cbn [bind push fst snd].
  eexists. exists (set_difference (keys props) (existing_keys o)).
  split; [reflexivity|]. cbn [object_stack heap]. rewrite length_insert.
  split; [reflexivity|]. split.
  { unfold top_frame. cbn [object_stack heap].
    rewrite lookup_app_r; rewrite length_insert; [|lia]. now rewrite Nat.sub_diag. }
  split; [apply set_difference_spec|]. split; [apply set_difference_spec|].
  rewrite lookup_app_l by (rewrite length_insert; lia).
  now rewrite list_lookup_insert_eq by lia.
Qed.

Lemma key_parser_enumeration_witness :
  exists p' members,
    add_character (after schema_flag "{") dquote = Ok p'
    /\ top_frame p' = Some (StringFrame (StringParsingState_init [":"] (Some members) false))
    /\ (forall k, In k members <-> In k [lit "flag"] /\ ~ In k []).
Proof.
  destruct (key_parser_enumeration (after schema_flag "{") 0 []
              (mkObject schema_flag PARSING_KEY_OR_END [] None None)
              [(lit "flag",
                mkSchema (Some (lit "string")) None None None
                         (Some [lit "yes"; lit "no"]) None [])])
    as (p' & members & H1 & _ & H2 & _ & H3 & _).
  - vm_compute. reflexivity.
  - vm_compute. reflexivity.
  - reflexivity.
  - reflexivity.
  - exists p', members. split; [exact H1|]. split; [exact H2 | exact H3].
Defined.

(** X16. Completing a key: when the closed key parser receives the
    colon, it leaves the stack and the object frame records the key,
    enters the value stage, forgets the key parser and pushes the
    frame of the dispatcher for the schema of the property.  The
    ending characters given to that frame hold the closing brace, and
    hold the comma exactly when some property name is not yet among
    the keys recorded. *)
Theorem key_completion (p p' : JsonSchemaParser) (key self : addr) (rest : list addr)
    (s : StringParsingState) (o : ObjectParsingState)
    (props : list (str * JsonSchemaObject)) (v : JsonSchemaObject) :
  object_stack p = key :: self :: rest ->
  heap p !! key = Some (StringFrame s) ->
  seen_closing_quote s = true ->
  ending_characters (string_base s) = [":"] ->
  heap p !! self = Some (ObjectFrame o) ->
  current_stage o = PARSING_KEY_OR_END ->
  current_key_parser o = Some key ->
  properties (schema_object o) = Some props ->
  dict_get props (parsed_string (string_base s)) = Some v ->
  add_character p ":" = Ok p' ->
  exists ending item,
    get_parser (model_class p) (Some v) ending = Ok item
    /\ In "}" ending
    /\ (In "," ending <->
        exists k, In k (keys props)
                  /\ ~ In k (existing_keys o ++ [parsed_string (string_base s)]))
    /\ object_stack p' = length (heap p) :: self :: rest
    /\ top_frame p' = Some item
    /\ heap p' !! self
       = Some (ObjectFrame (mkObject (schema_object o) PARSING_VALUE
                              (existing_keys o ++ [parsed_string (string_base s)])
                              (Some (parsed_string (string_base s))) None)).
Proof.
  intros Hstack Ekey Hc Hend Eself Hstage Hparser Hprops Hget.
  destruct p as [root h stack]. cbn in Hstack, Ekey, Eself. subst stack.
  pose proof (lookup_lt_Some _ _ _ Eself) as Hlt.
  unfold add_character, deepcopy. cbn [object_stack heap model_class Frame_add_character].
  rewrite Ekey. unfold String_add_character, Primitive_add_character.
  cbn [can_end]. unfold String_can_end. rewrite Hc, Hend.
  change (char_in ":" [":"]) with true. cbn [andb finish_parser Frame_add_character].
  rewrite Eself. unfold Object_add_character.
  change (is_py_space ":") with false. rewrite Hstage.
  change (Ascii.eqb ":" "}") with false. change (Ascii.eqb ":" dquote) with false.
  change (Ascii.eqb ":" ":") with true. cbn iota.
  rewrite Hparser, Ekey. cbn [base bind]. rewrite Hprops, Hget. cbn [bind fst snd].
  set (key_string := parsed_string (string_base s)).
  set (remaining := set_difference (keys props) (existing_keys o ++ [key_string])).
  destruct (get_parser root (Some v) _) as [item|e] eqn:Hg; cbn [bind]; [|discriminate].
  intros [= <-]. eexists. exists item. split; [exact Hg|]. split; [now left|].
  cbn [object_stack heap push fst snd]. rewrite length_insert. split; [|split; [|split]].
  - destruct (set_difference_spec (keys props) (existing_keys o ++ [key_string]))
      as [_ Hspec]. fold remaining in Hspec. split.
    + intros [H | H]; [discriminate H|].
      destruct remaining as [|k r]; [contradiction|].
      exists k. apply Hspec. now left.
    + intros (k & Hk). apply Hspec in Hk. right.
      destruct remaining as [|k' r]; [contradiction|]. now left.
  - reflexivity.
  - unfold top_frame. cbn [object_stack heap].
    rewrite lookup_app_r; rewrite length_insert; [|lia]. now rewrite Nat.sub_diag.
  - rewrite lookup_app_l by (rewrite length_insert; lia).
    now rewrite list_lookup_insert_eq by lia.
Qed.

Lemma key_completion_witness :
  exists p' ending item,
    add_character (after schema_n "{'n'") ":" = Ok p'
    /\ get_parser schema_n (Some (schema_of_type "integer")) ending = Ok item
    /\ In "}" ending
    /\ (In "," ending <->
        exists k, In k [lit "n"] /\ ~ In k ([] ++ [lit "n"]))
    /\ top_frame p' = Some item.
Proof.
  eexists.
  edestruct key_completion
    with (p := after schema_n "{'n'") (key := 1) (self := 0) (rest := @nil nat)
         (props := [(lit "n", schema_of_type "integer")])
    as (ending & item & H1 & H2 & H3 & _ & H4 & _).
  - vm_compute. reflexivity.
  - vm_compute. reflexivity.
  - reflexivity.
  - reflexivity.
  - vm_compute. reflexivity.
  - reflexivity.
  - reflexivity.
  - reflexivity.
  - reflexivity.
  - vm_compute. reflexivity.
  - exists ending, item. split; [vm_compute; reflexivity|].
    split; [exact H1|]. split; [exact H2|]. split; [exact H3 | exact H4].
Defined.

(** ** References *)

Lemma split_no_separator (sep : ascii) (s : str) :
  ~ In sep s -> split sep s = [s].
Proof.
  induction s as [|c s IH]; [reflexivity|]. intros H. cbn [split].
  destruct (Ascii.eqb c sep) eqn:E.
  - apply Ascii.eqb_eq in E. exfalso. apply H. now left.
  - rewrite IH; [reflexivity|]. intros Hin. apply H. now right.
Qed.

Lemma split_last_segment (sep : ascii) (pre name : str) :
  ~ In sep name ->
  List.last (split sep (pre ++ sep :: name)) [] = name.
Proof.
  intros Hname.
  assert (exists w ws, split sep (pre ++ sep :: name) = w :: ws
                       /\ ws <> [] /\ List.last ws [] = name) as (w & ws & -> & Hne & Hl).
  { induction pre as [|c pre (w & ws & E & Hne & Hl)]; cbn [app split].
    - rewrite Ascii.eqb_refl, (split_no_separator sep name Hname).
      exists [], [name]. now repeat split.
    - rewrite E. destruct (Ascii.eqb c sep).
      + exists [], (w :: ws). split; [reflexivity|]. split; [discriminate|].
        destruct ws; [congruence | exact Hl].
      + exists (c :: w), ws. now repeat split. }
  destruct ws; [congruence | exact Hl].
Qed.

(** X17. A reference is resolved by its last path segment alone: for a
    schema without type whose reference ends in a slash followed by a
    name without slash, the dispatcher builds the object frame of the
    entry of that name in [definitions] of the root schema, whatever
    comes before the last slash. *)
Theorem ref_resolves_by_last_segment (root vs class_dict : JsonSchemaObject)
    (pre name ending : str) (definitions : list (str * JsonSchemaObject)) :
  type vs = None ->
  ref vs = Some (pre ++ "/" :: name) ->
  ~ In "/" name ->
  dict_get (extras root) (lit "definitions") = Some definitions ->
  dict_get definitions name = Some class_dict ->
  get_parser root (Some vs) ending = Ok (ObjectFrame (ObjectParsingState_init class_dict)).
Proof.
  intros Ht Hr Hname Hd Hc. unfold get_parser, type_is. rewrite Ht, Hr.
  replace (truthy (Some (pre ++ "/" :: name))) with true by now destruct pre.
  cbn [from_option]. unfold id. rewrite (split_last_segment "/" pre name Hname), Hd.
  cbn [bind]. now rewrite Hc.
Qed.

Lemma ref_resolves_by_last_segment_witness :
  get_parser schema_with_definitions
    (Some (mkSchema None None None None None (Some (lit "anywhere/else/Inner")) []))
    ["}"]
  = Ok (ObjectFrame (ObjectParsingState_init
                       (object_schema [(lit "x", schema_of_type "integer")]))).
Proof.
  apply (ref_resolves_by_last_segment schema_with_definitions _ _
           (lit "anywhere/else") (lit "Inner") ["}"]
           [(lit "Inner", object_schema [(lit "x", schema_of_type "integer")])]).
  - reflexivity.
  - reflexivity.
  - cbn. intuition discriminate.
  - reflexivity.
  - reflexivity.
Defined.

(** ** Frames that cannot end *)

(** X18. A number frame whose string does not end in a digit, and a
    string frame that has not seen its closing quote, stay on top of
    the stack whatever character is fed: [add_character] succeeds, the
    stack is the same, and the one change of the heap is in that
    frame.  The number frame appends the character to [parsed_string],
    even an ending character, and records a decimal point; the string
    frame appends it too, unless it is the quote: the first quote is
    the opening quote (it empties [parsed_string] and sets
    [seen_opening_quote]), a later one the closing quote (it sets
    [seen_closing_quote] and leaves [parsed_string] as it was). *)
Theorem primitive_stays_until_it_can_end (p : JsonSchemaParser) (c : ascii)
    (top : addr) (rest : list addr) :
  object_stack p = top :: rest ->
  (forall n,
     heap p !! top = Some (NumberFrame n) ->
     Number_can_end n = false ->
     add_character p c
     = Ok (mkParser (model_class p)
                    (<[top := NumberFrame (number_after n c)]> (heap p))
                    (top :: rest))
     /\ parsed_string (number_base (number_after n c))
        = parsed_string (number_base n) ++ [c]
     /\ seen_decimal_point (number_after n c)
        = (if Ascii.eqb c "." then true else seen_decimal_point n))
  /\ (forall s,
        heap p !! top = Some (StringFrame s) ->
        seen_closing_quote s = false ->
        add_character p c
        = Ok (mkParser (model_class p)
                       (<[top := StringFrame (string_after s c)]> (heap p))
                       (top :: rest))
        /\ (c <> dquote ->
            string_after s c
            = mkString (mkPrimitive (parsed_string (string_base s) ++ [c])
                                    (ending_characters (string_base s)))
                       (allowed_strings s) false (seen_opening_quote s))
        /\ (c = dquote ->
            seen_opening_quote s = false ->
            string_after s c
            = mkString (mkPrimitive [] (ending_characters (string_base s)))
                       (allowed_strings s) false true)
        /\ (c = dquote ->
            seen_opening_quote s = true ->
            string_after s c
            = mkString (string_base s) (allowed_strings s) true true)).
Proof.
  intros Hstack. destruct p as [root h stack]. cbn in Hstack. subst stack.
  unfold add_character, deepcopy. cbn [object_stack heap model_class Frame_add_character].
  split.
  - intros n E Hc. rewrite E. split; [|split; reflexivity].
    unfold Number_add_character, Primitive_add_character. cbn [can_end]. rewrite Hc.
    cbn [andb bind fst snd]. unfold number_after.
    destruct (Ascii.eqb c ".").
    + now rewrite (modify_modify _ _ _ _ _ E).
    + now rewrite (modify_lookup _ _ _ _ E).
  - intros s E Hc. rewrite E. split.
    + unfold String_add_character, Primitive_add_character. cbn [can_end].
      unfold String_can_end. rewrite Hc. cbn [andb bind fst snd]. unfold string_after.
      destruct (Ascii.eqb c dquote).
      * rewrite (modify_modify _ _ _ _ _ E).
        cbn [set_parsed_string set_base string_base seen_opening_quote allowed_strings
             seen_closing_quote parsed_string ending_characters].
        now destruct (negb (seen_opening_quote s)).
      * now rewrite (modify_lookup _ _ _ _ E).
    + split; [|split].
      * intros Hne. now rewrite (string_after_content s c Hne), Hc.
      * intros -> Ho. now rewrite (string_after_opening s Ho), Hc.
      * intros -> Ho. apply (string_after_quote s Ho).
Qed.

Lemma primitive_stays_until_it_can_end_witness :
  add_character (after schema_n "{'n':-") "}"
  = Ok (mkParser schema_n
          (<[2 := NumberFrame (number_after (mkNumber (mkPrimitive (lit "-") ["}"]) false false)
                                 "}")]>
             (heap (after schema_n "{'n':-")))
          [2; 0])
  /\ parsed_string (number_base (number_after
                                   (mkNumber (mkPrimitive (lit "-") ["}"]) false false) "}"))
     = lit "-" ++ ["}"]
  /\ seen_decimal_point (number_after (mkNumber (mkPrimitive (lit "-") ["}"]) false false) "}")
     = (if Ascii.eqb "}" "." then true else false).
Proof.
  apply (proj1 (primitive_stays_until_it_can_end (after schema_n "{'n':-") "}" 2 [0]
                  ltac:(vm_compute; reflexivity))).
  - vm_compute. reflexivity.
  - reflexivity.
Defined.

(** ** Values and items that end *)

(** X19. A number item that can end, in an open list: on the comma it
    leaves the stack and the list frame pushes the frame of the
    dispatcher for the next item; on the closing bracket it leaves the
    stack and the list frame, now on top, has seen its closer and
    allows its own ending characters only. *)
Theorem list_item_completion (p : JsonSchemaParser) (item self : addr) (rest : list addr)
    (n : NumberParsingState) (l : ListParsingState) :
  object_stack p = item :: self :: rest ->
  heap p !! item = Some (NumberFrame n) ->
  Number_can_end n = true ->
  ending_characters (number_base n) = ["]"; ","] ->
  heap p !! self = Some (ListFrame l) ->
  seen_list_opener l = true ->
  seen_list_closer l = false ->
  (forall p',
     add_character p "," = Ok p' ->
     exists next,
       get_parser (model_class p) (list_member_type l) ["]"; ","] = Ok next
       /\ object_stack p' = length (heap p) :: self :: rest
       /\ top_frame p' = Some next)
  /\ exists p',
       add_character p "]" = Ok p'
       /\ object_stack p' = self :: rest
       /\ top_frame p'
          = Some (ListFrame (mkList (list_base l) (list_member_type l) true true))
       /\ get_allowed_characters p' = ending_characters (list_base l).
Proof.
  intros Hstack Eitem Hend Hending Eself Ho Hc.
  destruct p as [root h stack]. cbn in Hstack, Eitem, Eself. subst stack.
  pose proof (lookup_lt_Some _ _ _ Eself) as Hlt.
  unfold add_character, deepcopy. cbn [object_stack heap model_class Frame_add_character].
  rewrite Eitem. unfold Number_add_character, Primitive_add_character.
  cbn [can_end]. rewrite Hend, Hending. split.
  - change (char_in "," ["]"; ","]) with true. cbn [andb finish_parser Frame_add_character].
    rewrite Eself. unfold List_add_character. rewrite Hc. cbn [bind fst snd]. rewrite Eself.
    change (Ascii.eqb "," "[") with false. change (Ascii.eqb "," "]") with false.
    change (Ascii.eqb "," ",") with true. cbn iota. rewrite Hc. cbn [negb].
    destruct (get_parser root (list_member_type l) ["]"; ","]) as [next|e]; cbn [bind];
      [|discriminate].
    change (Ascii.eqb "," ".") with false. cbn iota. intros p' [= <-].
    exists next. split; [reflexivity|]. cbn [object_stack heap push fst snd].
    split; [reflexivity|]. unfold top_frame. cbn [object_stack heap].
    rewrite lookup_app_r by lia. now rewrite Nat.sub_diag.
  - change (char_in "]" ["]"; ","]) with true. cbn [andb finish_parser Frame_add_character].
    rewrite Eself. unfold List_add_character. rewrite Hc. cbn [bind fst snd].
    change (Ascii.eqb "]" "[") with false. change (Ascii.eqb "]" "]") with true.
    cbn iota. cbn [bind fst snd]. change (Ascii.eqb "]" ".") with false. cbn iota.
    eexists. split; [reflexivity|]. cbn [object_stack heap].
    rewrite (modify_lookup _ _ _ _ Eself). split; [reflexivity|].
    unfold top_frame, get_allowed_characters. cbn [object_stack heap fst snd].
    rewrite list_lookup_insert_eq by lia. cbn [set_seen_list_closer]. rewrite Ho.
    split; [reflexivity|].
    unfold Frame_get_allowed_characters, Primitive_get_allowed_characters.
    reflexivity.
Qed.

Lemma list_item_completion_witness :
  (forall p',
     add_character (after schema_a "{'a':[1") "," = Ok p' ->
     exists next,
       get_parser schema_a (Some (schema_of_type "number")) ["]"; ","] = Ok next
       /\ top_frame p' = Some next)
  /\ exists p',
       add_character (after schema_a "{'a':[1") "]" = Ok p'
       /\ object_stack p' = [2; 0]
       /\ get_allowed_characters p' = ["}"].
Proof.
  edestruct list_item_completion
    with (p := after schema_a "{'a':[1") (item := 3) (self := 2) (rest := [0])
    as (H1 & p' & H2 & H3 & _ & H4).
  - vm_compute. reflexivity.
  - vm_compute. reflexivity.
  - reflexivity.
  - reflexivity.
  - vm_compute. reflexivity.
  - reflexivity.
  - reflexivity.
  - split.
    + intros q Hq. destruct (H1 q Hq) as (next & Hn & _ & Ht). now exists next.
    + exists p'. split; [exact H2|]. split; [exact H3 | exact H4].
Defined.

(** X20. A number value that can end, in an object frame that waits
    for its value to end: on the closing brace both the number frame
    and the object frame leave the stack; on the comma the number
    frame leaves and the object frame, now on top, waits for a key. *)
Theorem number_value_completion (p : JsonSchemaParser) (value self : addr)
    (rest : list addr) (n : NumberParsingState) (o : ObjectParsingState) :
  object_stack p = value :: self :: rest ->
  heap p !! value = Some (NumberFrame n) ->
  Number_can_end n = true ->
  heap p !! self = Some (ObjectFrame o) ->
  current_stage o = PARSING_VALUE ->
  (In "}" (ending_characters (number_base n)) ->
   exists p',
     add_character p "}" = Ok p'
     /\ object_stack p' = rest
     /\ heap p' !! self = Some (ObjectFrame (set_current_stage END_OBJECT o)))
  /\ (In "," (ending_characters (number_base n)) ->
      exists p',
        add_character p "," = Ok p'
        /\ object_stack p' = self :: rest
        /\ top_frame p' = Some (ObjectFrame (set_current_stage PARSING_KEY_OR_END o))).
Proof.
  intros Hstack Evalue Hend Eself Hstage.
  destruct p as [root h stack]. cbn in Hstack, Evalue, Eself. subst stack.
  pose proof (lookup_lt_Some _ _ _ Eself) as Hlt.
  unfold add_character, deepcopy. cbn [object_stack heap model_class Frame_add_character].
  rewrite Evalue. unfold Number_add_character, Primitive_add_character.
  cbn [can_end]. rewrite Hend. split; intros Hin; apply char_in_In in Hin; rewrite Hin;
    cbn [andb finish_parser Frame_add_character]; rewrite Eself;
    unfold Object_add_character; rewrite Hstage.
  - change (is_py_space "}") with false. change (Ascii.eqb "}" dquote) with false.
    change (Ascii.eqb "}" ",") with false. change (Ascii.eqb "}" "}") with true.
    cbn iota.
    replace (finish_parser (Frame_add_character root rest) rest
               (<[self := ObjectFrame (set_current_stage END_OBJECT o)]> h) None)
      with (Ok (<[self := ObjectFrame (set_current_stage END_OBJECT o)]> h, rest))
      by (unfold finish_parser; now destruct rest).
    cbn [bind]. change (Ascii.eqb "}" ".") with false. cbn iota.
    eexists. split; [reflexivity|]. cbn [object_stack heap fst snd].
    split; [reflexivity|]. now rewrite list_lookup_insert_eq by lia.
  - change (is_py_space ",") with false. change (Ascii.eqb "," dquote) with false.
    change (Ascii.eqb "," ",") with true. cbn iota. cbn [bind].
    change (Ascii.eqb "," ".") with false. cbn iota.
    eexists. split; [reflexivity|]. cbn [object_stack heap fst snd].
    split; [reflexivity|]. unfold top_frame. cbn [object_stack heap].
    now rewrite list_lookup_insert_eq by lia.
Qed.

Lemma number_value_completion_witness :
  exists p',
    add_character (after schema_n "{'n':42") "}" = Ok p'
    /\ object_stack p' = [].
Proof.
  edestruct number_value_completion
    with (p := after schema_n "{'n':42") (value := 2) (self := 0) (rest := @nil nat)
    as ((p' & H1 & H2 & _) & _).
  - vm_compute. reflexivity.
  - vm_compute. reflexivity.
  - reflexivity.
  - vm_compute. reflexivity.
  - reflexivity.
  - left. reflexivity.
  - exists p'. split; [exact H1 | exact H2].
Defined.

(** X21. An object frame on top of the stack that takes the closing
    brace where a key may start or after a value leaves the stack and
    forwards nothing: the frame below receives no character, and the
    only change of the heap is the stage of the frame that left. *)
Theorem object_close_pops_only_itself (p : JsonSchemaParser) (self : addr)
    (rest : list addr) (o : ObjectParsingState) :
  object_stack p = self :: rest ->
  heap p !! self = Some (ObjectFrame o) ->
  current_stage o = PARSING_KEY_OR_END
  \/ current_stage o = PARSING_VALUE
  \/ current_stage o = PARSING_SEPARATOR_OR_END ->
  add_character p "}"
  = Ok (mkParser (model_class p)
                 (<[self := ObjectFrame (set_current_stage END_OBJECT o)]> (heap p))
                 rest).
Proof.
  intros Hstack E Hstage. destruct p as [root h stack]. cbn in Hstack, E. subst stack.
  unfold add_character, deepcopy. cbn [object_stack heap model_class Frame_add_character].
  rewrite E. unfold Object_add_character. change (is_py_space "}") with false.
  replace (finish_parser (Frame_add_character root rest) rest
             (<[self := ObjectFrame (set_current_stage END_OBJECT o)]> h) None)
    with (Ok (<[self := ObjectFrame (set_current_stage END_OBJECT o)]> h, rest))
    by (unfold finish_parser; now destruct rest).
  change (Ascii.eqb "}" "}") with true. change (Ascii.eqb "}" dquote) with false.
  change (Ascii.eqb "}" ",") with false.
  destruct Hstage as [-> | [-> | ->]]; reflexivity.
Qed.

Lemma object_close_pops_only_itself_witness :
  add_character (after schema_o "{'o':{") "}"
  = Ok (mkParser schema_o
          (<[2 := ObjectFrame (set_current_stage END_OBJECT
                                 (mkObject (object_schema []) PARSING_KEY_OR_END [] None None))]>
             (heap (after schema_o "{'o':{")))
          [0]).
Proof.
  apply (object_close_pops_only_itself (after schema_o "{'o':{") 2 [0]
           (mkObject (object_schema []) PARSING_KEY_OR_END [] None None)).
  - vm_compute. reflexivity.
  - vm_compute. reflexivity.
  - left. reflexivity.
Defined.

(** ** Dictionary schemas *)

(** X22. An object frame without properties map (a dictionary) that
    takes the quote where a key may start pushes a key parser without
    enumeration: the allowed characters are then the free-form
    characters, whatever keys were seen before. *)
Theorem dictionary_key_is_free_form (p : JsonSchemaParser) (self : addr) (rest : list addr)
    (o : ObjectParsingState) :
  object_stack p = self :: rest ->
  heap p !! self = Some (ObjectFrame o) ->
  current_stage o = PARSING_KEY_OR_END ->
  properties (schema_object o) = None ->
  exists p',
    add_character p dquote = Ok p'
    /\ object_stack p' = length (heap p) :: self :: rest
    /\ top_frame p' = Some (StringFrame (StringParsingState_init [":"] None false))
    /\ get_allowed_characters p' = free_form_characters.
Proof.
  intros Hstack E Hstage Hprops. destruct p as [root h stack]. cbn in Hstack, E. subst stack.
  pose proof (lookup_lt_Some _ _ _ E) as Hlt.
  unfold add_character, deepcopy. cbn [object_stack heap model_class Frame_add_character].
  rewrite E. unfold Object_add_character.
  change (is_py_space dquote) with false. rewrite Hstage.
  change (Ascii.eqb dquote "}") with false. change (Ascii.eqb dquote dquote) with true.
  cbn iota. rewrite Hprops. cbn [bind push fst snd].
  eexists. split; [reflexivity|]. cbn [object_stack heap]. rewrite length_insert.
  split; [reflexivity|].
  assert ((<[self := ObjectFrame
                       (mkObject (schema_object o) PARSING_KEY_OR_END (existing_keys o)
                                 (current_key o) (Some (length h)))]> h
           ++ [StringFrame (StringParsingState_init [":"] None false)]) !! length h
          = Some (StringFrame (StringParsingState_init [":"] None false))) as Htop.
  { rewrite lookup_app_r; rewrite length_insert; [|lia]. now rewrite Nat.sub_diag. }
  unfold top_frame, get_allowed_characters. cbn [object_stack heap]. rewrite Htop.
  split; reflexivity.
Qed.

Lemma dictionary_key_is_free_form_witness :
  exists p',
    add_character (after schema_dictionary "{") dquote = Ok p'
    /\ get_allowed_characters p' = free_form_characters.
Proof.
  edestruct dictionary_key_is_free_form
    with (p := after schema_dictionary "{") (self := 0) (rest := @nil nat)
    as (p' & H1 & _ & _ & H2).
  - vm_compute. reflexivity.
  - vm_compute. reflexivity.
  - reflexivity.
  - reflexivity.
  - exists p'. split; [exact H1 | exact H2].
Defined.

(** X23. Completing a key of a dictionary: the object frame records
    the key, whatever it is, and pushes the frame of the dispatcher
    for [additionalProperties], with the closing brace and the comma
    as ending characters: a further key is always possible. *)
Theorem dictionary_key_completion (p p' : JsonSchemaParser) (key self : addr)
    (rest : list addr) (s : StringParsingState) (o : ObjectParsingState) :
  object_stack p = key :: self :: rest ->
  heap p !! key = Some (StringFrame s) ->
  seen_closing_quote s = true ->
  ending_characters (string_base s) = [":"] ->
  heap p !! self = Some (ObjectFrame o) ->
  current_stage o = PARSING_KEY_OR_END ->
  current_key_parser o = Some key ->
  properties (schema_object o) = None ->
  add_character p ":" = Ok p' ->
  exists item,
    get_parser (model_class p) (additionalProperties (schema_object o)) ["}"; ","] = Ok item
    /\ object_stack p' = length (heap p) :: self :: rest
    /\ top_frame p' = Some item
    /\ heap p' !! self
       = Some (ObjectFrame (mkObject (schema_object o) PARSING_VALUE
                              (existing_keys o ++ [parsed_string (string_base s)])
                              (Some (parsed_string (string_base s))) None)).
Proof.
  intros Hstack Ekey Hc Hend Eself Hstage Hparser Hprops.
  destruct p as [root h stack]. cbn in Hstack, Ekey, Eself. subst stack.
  pose proof (lookup_lt_Some _ _ _ Eself) as Hlt.
  unfold add_character, deepcopy. cbn [object_stack heap model_class Frame_add_character].
  rewrite Ekey. unfold String_add_character, Primitive_add_character.
  cbn [can_end]. unfold String_can_end. rewrite Hc, Hend.
  change (char_in ":" [":"]) with true. cbn [andb finish_parser Frame_add_character].
  rewrite Eself. unfold Object_add_character.
  change (is_py_space ":") with false. rewrite Hstage.
  change (Ascii.eqb ":" "}") with false. change (Ascii.eqb ":" dquote) with false.
  change (Ascii.eqb ":" ":") with true. cbn iota.
  rewrite Hparser, Ekey. cbn [base bind]. rewrite Hprops. cbn [bind fst snd app].
  destruct (get_parser root _ _) as [item|e]; cbn [bind]; [|discriminate].
  intros [= <-]. exists item. split; [reflexivity|].
  cbn [object_stack heap push fst snd]. rewrite length_insert. split; [reflexivity|]. split.
  - unfold top_frame. cbn [object_stack heap].
    rewrite lookup_app_r; rewrite length_insert; [|lia]. now rewrite Nat.sub_diag.
  - rewrite lookup_app_l by (rewrite length_insert; lia).
    now rewrite list_lookup_insert_eq by lia.
Qed.

Lemma dictionary_key_completion_witness :
  exists p' item,
    add_character (after schema_dictionary "{'any key'") ":" = Ok p'
    /\ get_parser schema_dictionary (Some (schema_of_type "string")) ["}"; ","] = Ok item
    /\ top_frame p' = Some item.
Proof.
  eexists.
  edestruct dictionary_key_completion
    with (p := after schema_dictionary "{'any key'") (key := 1) (self := 0)
         (rest := @nil nat)
    as (item & H1 & _ & H2 & _).
  - vm_compute. reflexivity.
  - vm_compute. reflexivity.
  - reflexivity.
  - reflexivity.
  - vm_compute. reflexivity.
  - reflexivity.
  - reflexivity.
  - reflexivity.
  - vm_compute. reflexivity.
  - exists item. split; [vm_compute; reflexivity|]. split; [exact H1 | exact H2].
Defined.

(* ================================================================= *)
(** * The list frame and its items

    ** What a step keeps of the lists *)

Lemma built_as_refl (f : Frame) : built_as f f.
Proof. destruct f; cbn; auto. Qed.

Lemma built_as_ended_class (f g : Frame) :
  built_as f g ->
  match f, g with
  | ObjectFrame _, ObjectFrame _ | NumberFrame _, NumberFrame _
  | StringFrame _, StringFrame _ | ListFrame _, ListFrame _ => True
  | _, _ => False
  end.
Proof. destruct f, g; cbn; auto. Qed.

Lemma flags_ok_leave (root : JsonSchemaObject) (f g : Frame) (items : list Frame)
    (keep : bool) :
  built_as f g -> flags_ok root f g items keep -> keep = false -> ended g /\ items = [].
Proof.
  destruct f as [o|n|s|l], g as [o'|n'|s'|l']; cbn; try contradiction; auto.
  intros _ (_ & [(_ & Hc & _ & Hclosed & Hopen) | [H | H]]) ->.
  - destruct (seen_list_closer l) eqn:E.
    + destruct (Hclosed eq_refl) as [-> _]. now rewrite Hc.
    + now specialize (Hopen eq_refl).
  - now destruct H as (_ & _ & _ & _ & ? & _).
  - now destruct H as (_ & _ & _ & _ & ? & _).
Qed.

Lemma items_ok_after_step (root : JsonSchemaObject) (h : Heap) (a : addr)
    (below : list addr) (f g : Frame) (items : list Frame) (keep : bool) :
  items_ok root h (a :: below) ->
  h !! a = Some f ->
  (forall f0, built_as f0 f -> built_as f0 g) ->
  flags_ok root f g items keep ->
  (items = [] \/ exists item, items = [item] /\ unopened item) ->
  items_ok root (after_step h a below g items keep).1 (after_step h a below g items keep).2.
Proof.
  intros (Hd & Hv & He & Hl) E Hb Hf Hitems.
  pose proof (lookup_lt_Some _ _ _ E) as Hlt.
  pose proof (Hb f (built_as_refl f)) as Hclass.
  pose proof (flags_ok_leave _ _ _ _ _ Hclass Hf) as Hleave.
  destruct Hd as [Hbelow Hd].
  assert (~ In a below) as Hnotin by (intros Hin; apply Hbelow in Hin; lia).
  set (base := if keep then a :: below else below).
  assert (forall b, In b base -> In b (a :: below)) as Hbase.
  { intros b. unfold base. destruct keep; [auto | now right]. }
  assert (In a base -> keep = true) as Hkeep.
  { unfold base. destruct keep; [auto | contradiction]. }
  assert (descending base) as Hdbase.
  { unfold base. destruct keep; [now split | assumption]. }
  assert (forall b, b < length h -> b <> a ->
                    (<[a := g]> h ++ items) !! b = h !! b) as Hold.
  { intros b Hb1 Hb2. rewrite lookup_app_l by (rewrite length_insert; lia).
    now apply list_lookup_insert_ne. }
  assert ((<[a := g]> h ++ items) !! a = Some g) as Hself.
  { rewrite lookup_app_l by (rewrite length_insert; lia).
    now apply list_lookup_insert_eq. }
  assert (forall b x, (<[a := g]> h ++ items) !! b = Some x -> length h <= b ->
                      items = [x] /\ b = length h) as Hnew.
  { intros b x Hx Hb1. rewrite lookup_app_r in Hx by (rewrite length_insert; lia).
    rewrite length_insert in Hx.
    destruct Hitems as [-> | (item & -> & _)]; [now rewrite lookup_nil in Hx|].
    destruct (b - length h) as [|k] eqn:Hk; cbn in Hx; [|discriminate].
    injection Hx as ->. split; [reflexivity | lia]. }
  unfold after_step. cbn [fst snd]. fold base.
  assert (forall b, In b (match items with [] => [] | _ :: _ => [length h] end ++ base) ->
                    (b = length h /\ items <> []) \/ In b base) as Hstk.
  { intros b Hin. apply in_app_iff in Hin as [Hin | Hin]; [|now right].
    destruct items; [contradiction|]. destruct Hin as [<- | []]. now left. }
  assert (forall b, In b base ->
                    In b (match items with [] => [] | _ :: _ => [length h] end ++ base))
    as Hstk'.
  { intros b Hin. apply in_app_iff. now right. }
  split; [|split; [|split]].
  - (* descending *)
    destruct items as [|item tl]; cbn [app]; [assumption|].
    split; [|assumption]. intros b Hin. apply Hv. now apply Hbase.
  - (* addresses *)
    intros b Hin. rewrite length_app, length_insert.
    destruct (Hstk b Hin) as [[-> Hne] | Hin'].
    + destruct items; [contradiction | cbn; lia].
    + apply Hbase, Hv in Hin'. lia.
  - (* frames off the stack *)
    intros b x Hx Hnot.
    destruct (decide (b < length h)) as [Hb1 | Hb1].
    + destruct (decide (b = a)) as [-> | Hb2].
      * rewrite Hself in Hx. injection Hx as <-.
        apply Hleave. destruct keep; [|reflexivity].
        exfalso. apply Hnot, Hstk'. unfold base. now left.
      * rewrite (Hold b Hb1 Hb2) in Hx. apply He with b; [assumption|].
        intros [-> | Hin]; [contradiction|].
        apply Hnot, Hstk'. unfold base. destruct keep; [now right | assumption].
    + destruct (Hnew b x Hx ltac:(lia)) as [-> ->].
      exfalso. apply Hnot. cbn. now left.
  - (* list frames *)
    intros b lb Hx.
    destruct (decide (b < length h)) as [Hb1 | Hb1].
    + destruct (decide (b = a)) as [-> | Hb2].
      * rewrite Hself in Hx. injection Hx as ->.
        destruct f as [o|n|s|l]; cbn in Hclass; try contradiction.
        destruct (Hl a l E) as (L1 & L2 & L3).
        cbn [flags_ok] in Hf. destruct Hf as (Hm & Hf).
        destruct Hf as [(Ho & Hc & Hfresh & Hclosed & Hopen)
                       | [(Ho & Ho' & Hc & Hc' & Hk & item & -> & Hg)
                         | (Ho & Ho' & Hc & Hc' & Hk & ->)]].
        -- split; [|split].
           ++ rewrite Ho. intros Hof. destruct (L1 Hof) as (Hcf & HS & _).
              rewrite (Hfresh Hof), Hc. split; [assumption|].
              split; [now rewrite length_app, length_insert, Nat.add_0_r|].
              unfold base. rewrite (Hopen Hcf). cbn. eauto.
           ++ rewrite Ho, Hm. intros Hot. destruct (L2 Hot) as (f0 & item & Hg & Hi & Hbi).
              exists f0, item. split; [assumption|]. split; [|assumption].
              pose proof (lookup_lt_Some _ _ _ Hi). rewrite Hold; [assumption | lia | lia].
           ++ rewrite Hc, Ho. intros Hct. destruct (L3 Hct) as (Hot & HnS & _).
              destruct (Hclosed Hct) as [-> Hk]. split; [assumption|]. split.
              ** intros Hin. apply HnS. apply Hbase. now destruct (Hstk _ Hin) as [[_ []] | ?].
              ** intros Hin. destruct (Hstk _ Hin) as [[_ []] | Hin']; [reflexivity|].
                 apply Hkeep in Hin'. congruence.
        -- destruct (L1 Ho) as (_ & HS & _).
           split; [|split]; [congruence | | congruence].
           intros _. exists item, item. rewrite Hm. split; [assumption|].
           split; [|apply built_as_refl].
           rewrite HS, lookup_app_r by (rewrite length_insert; lia).
           now rewrite length_insert, Nat.sub_diag.
        -- destruct (L2 Ho) as (f0 & item & Hg & Hi & Hbi).
           pose proof (lookup_lt_Some _ _ _ Hi).
           split; [|split]; [congruence | |].
           ++ intros _. exists f0, item. rewrite Hm. split; [assumption|].
              split; [|assumption]. rewrite Hold; [assumption | lia | lia].
           ++ intros _. split; [assumption|]. unfold base. rewrite Hk. cbn [app].
              split; [|eauto]. intros [HS | Hin]; [lia|]. apply Hbelow in Hin. lia.
      * rewrite (Hold b Hb1 Hb2) in Hx. destruct (Hl b lb Hx) as (L1 & L2 & L3).
        split; [|split].
        -- intros Ho. destruct (L1 Ho) as (_ & _ & r & [= -> ->]). contradiction.
        -- intros Ho. destruct (L2 Ho) as (f0 & item & Hg & Hi & Hbi).
           pose proof (lookup_lt_Some _ _ _ Hi).
           destruct (decide (S b = a)) as [HS | HS].
           ++ exists f0, g. split; [assumption|]. rewrite HS, Hself. split; [reflexivity|].
              apply Hb. rewrite HS, E in Hi. now injection Hi as <-.
           ++ exists f0, item. split; [assumption|]. split; [|assumption].
              now rewrite Hold.
        -- intros Hc. destruct (L3 Hc) as (Ho & HnS & Htop).
           destruct (L2 Ho) as (_ & item & _ & Hi & _).
           pose proof (lookup_lt_Some _ _ _ Hi).
           split; [assumption|]. split.
           ++ intros Hin. destruct (Hstk _ Hin) as [[? _] | Hin']; [lia|].
              now apply HnS, Hbase.
           ++ intros Hin. destruct (Hstk _ Hin) as [[? _] | Hin']; [lia|].
              destruct (Htop (Hbase _ Hin')) as (r & [= -> ->]). contradiction.
    + destruct (Hnew b (ListFrame lb) Hx ltac:(lia)) as [-> ->].
      destruct Hitems as [[=] | (item & [= <-] & Hun)].
      destruct (Hun lb eq_refl) as [Ho Hc].
      split; [|split]; [|congruence | congruence].
      intros _. split; [assumption|]. split.
      * rewrite length_app, length_insert. cbn. lia.
      * cbn. eauto.
Qed.

Lemma items_after (root : JsonSchemaObject) (h : Heap) (a : addr) (below : list addr)
    (f g : Frame) (items : list Frame) (keep : bool) (st : State) :
  items_ok root h (a :: below) ->
  h !! a = Some f ->
  (forall f0, built_as f0 f -> built_as f0 g) ->
  flags_ok root f g items keep ->
  (items = [] \/ exists item, items = [item] /\ unopened item) ->
  st = after_step h a below g items keep ->
  items_ok root st.1 st.2
  /\ (forall b x, b <> a -> h !! b = Some x -> st.1 !! b = Some x).
Proof.
  intros Hok E Hb Hf Hi ->. split; [now apply items_ok_after_step with f|].
  intros b x Hne Hx. unfold after_step. cbn [fst]. pose proof (lookup_lt_Some _ _ _ Hx).
  rewrite lookup_app_l by (rewrite length_insert; lia). now rewrite list_lookup_insert_ne.
Qed.

Lemma items_update (root : JsonSchemaObject) (h : Heap) (a : addr) (below : list addr)
    (f g : Frame) (keep : bool) :
  items_ok root h (a :: below) ->
  h !! a = Some f ->
  (forall f0, built_as f0 f -> built_as f0 g) ->
  flags_ok root f g [] keep ->
  items_ok root (<[a := g]> h) (if keep then a :: below else below)
  /\ (forall b x, b <> a -> h !! b = Some x -> <[a := g]> h !! b = Some x).
Proof.
  intros Hok E Hb Hf.
  apply (items_after root h a below f g [] keep
           (<[a := g]> h, if keep then a :: below else below)); auto.
  unfold after_step. now rewrite app_nil_r.
Qed.

Lemma items_push (root : JsonSchemaObject) (h : Heap) (a : addr) (below : list addr)
    (f g item : Frame) :
  items_ok root h (a :: below) ->
  h !! a = Some f ->
  (forall f0, built_as f0 f -> built_as f0 g) ->
  flags_ok root f g [item] true ->
  unopened item ->
  items_ok root (push item (<[a := g]> h, a :: below)).1
                (push item (<[a := g]> h, a :: below)).2
  /\ (forall b x, b <> a -> h !! b = Some x ->
                  (push item (<[a := g]> h, a :: below)).1 !! b = Some x).
Proof.
  intros Hok E Hb Hf Hu.
  apply (items_after root h a below f g [item] true); eauto.
  unfold after_step, push. cbn [fst snd app]. now rewrite length_insert.
Qed.

Lemma fresh_unopened (ending : str) (f : Frame) : fresh_frame ending f -> unopened f.
Proof.
  intros [(x & ->) | [(x & ->) | [(x & ->) | (x & ->)]]] l; try discriminate.
  intros [= <-]. now split.
Qed.

Lemma get_parser_unopened (root : JsonSchemaObject) (vs : option JsonSchemaObject)
    (ending : str) (f : Frame) :
  get_parser root vs ending = Ok f -> unopened f.
Proof. intros H. apply fresh_unopened with ending. now apply get_parser_fresh with root vs. Qed.

(** The method of an object frame. *)
Lemma Object_items (root : JsonSchemaObject) (parent : Heap -> ascii -> Result State)
    (a : addr) (below : list addr) (h : Heap) (o : ObjectParsingState) (c : ascii)
    (st : State) :
  items_ok root h (a :: below) ->
  h !! a = Some (ObjectFrame o) ->
  Object_add_character root parent a below h o c = Ok st ->
  items_ok root st.1 st.2
  /\ (forall b x, b <> a -> h !! b = Some x -> st.1 !! b = Some x).
Proof.
  intros Hok E. unfold Object_add_character.
  assert (Ok (h, a :: below) = Ok st ->
          items_ok root st.1 st.2
          /\ (forall b x, b <> a -> h !! b = Some x -> st.1 !! b = Some x)) as Hsame.
  { intros [= <-]. now split. }
  assert (forall o' keep,
            schema_object o' = schema_object o ->
            (keep = false -> current_stage o' = END_OBJECT) ->
            Ok (<[a := ObjectFrame o']> h, if keep then a :: below else below) = Ok st ->
            items_ok root st.1 st.2
            /\ (forall b x, b <> a -> h !! b = Some x -> st.1 !! b = Some x)) as Hstay.
  { intros o' keep Hs Hk [= <-].
    apply items_update with (ObjectFrame o); try assumption.
    - intros [o0| | |]; cbn; try contradiction. congruence.
    - cbn. auto. }
  assert (forall o' item,
            schema_object o' = schema_object o ->
            unopened item ->
            Ok (push item (<[a := ObjectFrame o']> h, a :: below)) = Ok st ->
            items_ok root st.1 st.2
            /\ (forall b x, b <> a -> h !! b = Some x -> st.1 !! b = Some x)) as Hpush.
  { intros o' item Hs Hu [= <-].
    apply items_push with (ObjectFrame o); try assumption.
    - intros [o0| | |]; cbn; try contradiction. congruence.
    - cbn. discriminate. }
  assert (finish_parser parent below
            (<[a := ObjectFrame (set_current_stage END_OBJECT o)]> h) None = Ok st ->
          items_ok root st.1 st.2
          /\ (forall b x, b <> a -> h !! b = Some x -> st.1 !! b = Some x)) as Hleave.
  { replace (finish_parser parent below
               (<[a := ObjectFrame (set_current_stage END_OBJECT o)]> h) None)
      with (Ok (<[a := ObjectFrame (set_current_stage END_OBJECT o)]> h, below))
      by (unfold finish_parser; now destruct below).
    now apply (Hstay _ false). }
  destruct (is_py_space c); [exact Hsame|].
  destruct (current_stage o) eqn:Hstage.
  - destruct (Ascii.eqb c "{"); [now apply (Hstay _ true) | exact Hsame].
  - destruct (Ascii.eqb c "}"); [exact Hleave|].
    destruct (Ascii.eqb c dquote).
    { apply Hpush; [reflexivity|]. intros l. discriminate. }
    destruct (Ascii.eqb c ":"); [|exact Hsame].
    destruct (current_key_parser o) as [k|]; [|discriminate].
    destruct (h !! k) as [fk|]; [|discriminate].
    destruct (base fk) as [bk|]; [|discriminate]. cbn [bind].
    destruct (properties (schema_object o)) as [p|] eqn:Hp.
    + destruct (dict_get p (parsed_string bk)) as [v|] eqn:Hv; [|discriminate].
      cbn [bind fst snd].
      destruct (get_parser root (Some v) _) as [item|] eqn:Hg; [|discriminate]. cbn [bind].
      apply Hpush; [reflexivity|]. now apply get_parser_unopened in Hg.
    + cbn [bind fst snd].
      destruct (get_parser root _ _) as [item|] eqn:Hg; [|discriminate]. cbn [bind].
      apply Hpush; [reflexivity|]. now apply get_parser_unopened in Hg.
  - destruct (Ascii.eqb c dquote); [now apply (Hstay _ true)|].
    destruct (Ascii.eqb c ","); [now apply (Hstay _ true)|].
    destruct (Ascii.eqb c "}"); [exact Hleave | exact Hsame].
  - destruct (Ascii.eqb c ","); [now apply (Hstay _ true)|].
    destruct (Ascii.eqb c "}"); [exact Hleave | exact Hsame].
  - exact Hsame.
Qed.

(** The method of a list frame that has not seen its closer; before
    its opener the one character it is given is the opener. *)
Lemma List_items (root : JsonSchemaObject) (parent : Heap -> ascii -> Result State)
    (a : addr) (below : list addr) (h : Heap) (l : ListParsingState) (c : ascii)
    (st : State) :
  items_ok root h (a :: below) ->
  h !! a = Some (ListFrame l) ->
  seen_list_closer l = false ->
  (seen_list_opener l = false -> c = "[") ->
  List_add_character root parent a below h l c = Ok st ->
  items_ok root st.1 st.2
  /\ (forall b x, b <> a -> h !! b = Some x -> st.1 !! b = Some x).
Proof.
  intros Hok E Hc Hfresh. unfold List_add_character. rewrite Hc. cbn [bind fst snd].
  rewrite E, Hc. cbn [negb].
  destruct (Ascii.eqb c "[") eqn:Hopen.
  { destruct (get_parser root (list_member_type l) _) as [item|] eqn:Hg; [|discriminate].
    cbn [bind]. rewrite (modify_lookup _ _ _ _ E). intros [= <-].
    apply (items_push root h a below (ListFrame l) (set_seen_list_opener (ListFrame l)));
      try assumption.
    - intros [| | |l0]; cbn; try contradiction. auto.
    - cbn. split; [reflexivity|]. rewrite Hc.
      destruct (seen_list_opener l) eqn:Ho.
      + left. repeat split; auto; discriminate.
      + right. left. repeat split; auto. now exists item.
    - now apply get_parser_unopened in Hg. }
  assert (seen_list_opener l = true) as Ho.
  { destruct (seen_list_opener l); [reflexivity|].
    rewrite (Hfresh eq_refl) in Hopen. discriminate. }
  destruct (Ascii.eqb c "]").
  { rewrite (modify_lookup _ _ _ _ E). intros [= <-].
    apply (items_update root h a below (ListFrame l) _ true); try assumption.
    - intros [| | |l0]; cbn; try contradiction. auto.
    - cbn. split; [reflexivity|]. right. right. rewrite Ho, Hc. now repeat split. }
  destruct (Ascii.eqb c ","); [|intros [= <-]; now split].
  destruct (get_parser root (list_member_type l) _) as [item|] eqn:Hg; [|discriminate].
  cbn [bind]. intros [= <-].
  replace (push item (h, a :: below))
    with (push item (<[a := ListFrame l]> h, a :: below))
    by (now rewrite list_insert_id).
  apply (items_push root h a below (ListFrame l) (ListFrame l)); try assumption.
  - auto.
  - cbn. split; [reflexivity|]. left. rewrite Ho, Hc. repeat split; auto; discriminate.
  - now apply get_parser_unopened in Hg.
Qed.

(** A frame that has ended leaves the stack. *)
Lemma items_pop (root : JsonSchemaObject) (h : Heap) (a : addr) (rest : list addr)
    (f : Frame) :
  items_ok root h (a :: rest) -> h !! a = Some f -> ended f -> items_ok root h rest.
Proof.
  intros Hok E He.
  destruct (items_update root h a rest f f false Hok E) as [H _]; [auto | |].
  - destruct f as [o|n|s|l]; cbn; auto.
    split; [reflexivity|]. left. repeat split; auto. cbn in He. congruence.
  - now rewrite list_insert_id in H.
Qed.

(** The character an ended frame hands to the frame below. *)
Lemma forward_items (root : JsonSchemaObject) (h : Heap) (a : addr) (rest : list addr)
    (f : Frame) (c : ascii) (st : State) :
  containers h rest ->
  items_ok root h (a :: rest) ->
  h !! a = Some f ->
  ended f ->
  finish_parser (Frame_add_character root rest) rest h (Some c) = Ok st ->
  items_ok root st.1 st.2 /\ st.1 !! a = Some f.
Proof.
  intros C Hok E He. pose proof (items_pop _ _ _ _ _ Hok E He) as Hpop.
  unfold finish_parser. destruct rest as [|par below].
  - intros [= <-]. now split.
  - cbn [Frame_add_character].
    destruct (C par (or_introl eq_refl)) as (fp & Ep & Hcont). rewrite Ep.
    assert (a <> par) as Hne.
    { destruct Hok as ((Hlt & _) & _). specialize (Hlt par (or_introl eq_refl)). lia. }
    destruct fp as [o| | |l]; try contradiction.
    + intros H. destruct (Object_items _ _ _ _ _ _ _ _ Hpop Ep H) as [H1 H2].
      split; [assumption|]. now apply H2.
    + intros H. destruct Hok as (_ & _ & _ & Hl). destruct (Hl par l Ep) as (L1 & _ & L3).
      assert (seen_list_opener l = true) as Ho.
      { destruct (seen_list_opener l); [reflexivity|].
        destruct (L1 eq_refl) as (_ & _ & r & [= ? _]). congruence. }
      assert (seen_list_closer l = false) as Hc.
      { destruct (seen_list_closer l); [|reflexivity].
        destruct (L3 eq_refl) as (_ & _ & Htop).
        destruct Htop as (r & [= ? _]); [right; now left | congruence]. }
      assert (seen_list_opener l = false -> c = "[") as Hfresh
        by (rewrite Ho; discriminate).
      destruct (List_items _ _ _ _ _ _ _ _ Hpop Ep Hc Hfresh H) as [H1 H2].
      split; [assumption|]. now apply H2.
Qed.

Lemma closed_list_closer (l : ListParsingState) :
  seen_list_closer l = true -> set_seen_list_closer (ListFrame l) = ListFrame l.
Proof. destruct l. cbn. now intros ->. Qed.

(** A character the caller may feed keeps the lists and their items
    in order. *)
Lemma items_step (p p' : JsonSchemaParser) (c : ascii) :
  Inv p ->
  items_ok (model_class p) (heap p) (object_stack p) ->
  In c (get_allowed_characters p) ->
  add_character p c = Ok p' ->
  model_class p' = model_class p
  /\ items_ok (model_class p) (heap p') (object_stack p').
Proof.
  destruct p as [root h stack]. unfold Inv, get_allowed_characters, add_character, deepcopy.
  cbn [heap object_stack model_class]. intros [Hgood Hinv] Hok Hin.
  destruct stack as [|self rest]; [contradiction|].
  destruct Hinv as [(f & E) Hrest]. cbn [fst snd] in E, Hrest. rewrite E in Hin.
  cbn [heap object_stack model_class].
  destruct (Frame_add_character root (self :: rest) h c) as [st|] eqn:Hst;
    cbn [bind]; [|discriminate].
  intros [= <-]. cbn [heap object_stack model_class]. split; [reflexivity|].
  pose proof (Forall_good_lookup h self f Hgood E) as Hf.
  cbn [Frame_add_character] in Hst. rewrite E in Hst.
  destruct f as [o|n|s|l].
  - apply (proj1 (Object_items _ _ _ _ _ _ _ _ Hok E Hst)).
  - unfold Number_add_character, Primitive_add_character in Hst. destruct Hf as [He _].
    destruct (can_end (NumberFrame n) && char_in c (ending_characters (number_base n)))
      eqn:Hcond.
    + apply andb_true_iff in Hcond as [Hend Hc].
      destruct (ending_not_content _ _ He Hc) as [Hdot _]. rewrite Hdot in Hst.
      rewrite bind_Ok in Hst.
      now apply (forward_items root h self rest (NumberFrame n) c st).
    + cbn [bind fst snd] in Hst.
      destruct (Ascii.eqb c "."); injection Hst as <-.
      * rewrite (modify_modify _ _ _ _ _ E).
        apply (items_update root h self rest (NumberFrame n) _ true); try assumption.
        -- intros [|n0| |]; cbn; try contradiction. auto.
        -- cbn. discriminate.
      * rewrite (modify_lookup _ _ _ _ E).
        apply (items_update root h self rest (NumberFrame n) _ true); try assumption.
        -- intros [|n0| |]; cbn; try contradiction. auto.
        -- cbn. discriminate.
  - unfold String_add_character, Primitive_add_character in Hst. cbn in Hf.
    destruct (can_end (StringFrame s) && char_in c (ending_characters (string_base s)))
      eqn:Hcond.
    + apply andb_true_iff in Hcond as [Hend Hc].
      destruct (ending_not_content _ _ Hf Hc) as [_ Hq]. rewrite Hq in Hst.
      rewrite bind_Ok in Hst.
      now apply (forward_items root h self rest (StringFrame s) c st).
    + cbn [bind fst snd] in Hst.
      destruct (Ascii.eqb c dquote); injection Hst as <-.
      * rewrite (modify_modify _ _ _ _ _ E).
        apply (items_update root h self rest (StringFrame s) _ true); try assumption.
        -- intros [| |s0|]; cbn; try contradiction;
             destruct (negb (seen_opening_quote s)); cbn; auto.
        -- cbn. destruct (negb (seen_opening_quote s)); discriminate.
      * rewrite (modify_lookup _ _ _ _ E).
        apply (items_update root h self rest (StringFrame s) _ true); try assumption.
        -- intros [| |s0|]; cbn; try contradiction. auto.
        -- cbn. discriminate.
  - cbn in Hf. destruct (seen_list_closer l) eqn:Hcl.
    + pose proof Hok as (_ & _ & _ & Hl). destruct (Hl self l E) as (_ & _ & L3).
      destruct (L3 Hcl) as (Ho & _).
      assert (char_in c (ending_characters (list_base l)) = true) as Hc.
      { apply char_in_In. cbn in Hin.
        unfold Primitive_get_allowed_characters, List_get_allowed_primitive_characters,
          can_end, List_can_end in Hin.
        now rewrite Ho, Hcl in Hin. }
      unfold List_add_character, Primitive_add_character, can_end, List_can_end in Hst.
      rewrite Hcl, Hc in Hst. cbn [andb] in Hst.
      destruct (finish_parser (Frame_add_character root rest) rest h (Some c))
        as [st0|] eqn:Hfin; [|discriminate].
      cbn [bind] in Hst.
      destruct (forward_items root h self rest (ListFrame l) c st0) as [H1 H2];
        try assumption.
      rewrite H2, (ending_not_opener _ _ Hf Hc), Hcl in Hst. cbn [negb] in Hst.
      destruct (Ascii.eqb c "]").
      * injection Hst as <-. cbn [fst snd].
        rewrite (modify_lookup _ _ _ _ H2), (closed_list_closer l Hcl).
        now rewrite list_insert_id.
      * now destruct (Ascii.eqb c ","); injection Hst as <-.
    + refine (proj1 (List_items _ _ _ _ _ _ _ _ Hok E Hcl _ Hst)).
      intros Ho. cbn in Hin.
      unfold Primitive_get_allowed_characters, List_get_allowed_primitive_characters,
        can_end, List_can_end in Hin.
      rewrite Ho, Hcl in Hin. cbn in Hin. now destruct Hin as [<- | []].
Qed.

Lemma reachable_items (schema : JsonSchemaObject) (p : JsonSchemaParser) :
  reachable schema p ->
  model_class p = schema /\ items_ok schema (heap p) (object_stack p).
Proof.
  induction 1 as [|p c p' Hp [Hm IH] Hin Hstep].
  - split; [reflexivity|]. cbn [JsonSchemaParser_init heap object_stack].
    split; [|split; [|split]].
    + cbn. split; [intros b []| exact I].
    + intros a [<- | []]. cbn. lia.
    + intros [|a] f; [|discriminate]. intros _ Hnot. exfalso. apply Hnot. now left.
    + intros [|a] l; discriminate.
  - destruct (items_step p p' c (reachable_Inv _ _ Hp)) as [Hm' Hok]; try assumption.
    + now rewrite Hm.
    + rewrite Hm in Hok. split; [congruence | assumption].
Qed.

(** C10 as stated fails for an array whose items the dispatcher does
    not support: after the key of the property the new list frame is
    on top and the opening bracket is the allowed character, but no
    item frame is pushed for it: [add_character] raises. *)
Lemma list_opener_unsupported_item_counterexample :
  ~ (forall schema p top rest l,
       reachable schema p ->
       object_stack p = top :: rest ->
       heap p !! top = Some (ListFrame l) ->
       seen_list_opener l = false ->
       In "[" (get_allowed_characters p) ->
       exists p' item,
         add_character p "[" = Ok p'
         /\ object_stack p' = length (heap p) :: top :: rest
         /\ heap p' !! length (heap p) = Some item).
Proof.
  intros H.
  destruct (H schema_array_of_booleans (after schema_array_of_booleans "{'a':") 2 [0]
              (ListParsingState_init ["}"] (Some (schema_of_type "boolean"))))
    as (p' & item & Hadd & _).
  - apply drive_reachable with (json "{'a':") (JsonSchemaParser_init schema_array_of_booleans);
      [constructor | vm_compute; reflexivity].
  - vm_compute. reflexivity.
  - vm_compute. reflexivity.
  - reflexivity.
  - vm_compute. now left.
  - vm_compute in Hadd. discriminate.
Qed.

(** C10 (amended). In every parser the caller can reach:
    - a list frame that has not seen its opener, on top of the stack,
      allows the opening bracket only; when the dispatcher builds a
      frame for the item schema, [add_character] of the bracket marks
      the opener and pushes that new frame, so the allowed characters
      are then those of the new item frame: they are non-empty and the
      closing bracket is not among them, and the character fed next
      leaves the item frame on the stack; when the dispatcher raises,
      [add_character] raises the same error and nothing is pushed;
    - a list frame that has seen its closer has seen its opener;
    - a list frame that has seen its opener has its first item in the
      next frame of the heap, a frame of the class and with the fields
      the dispatcher gives for the item schema; once the list frame is
      back on top of the stack (the only place where it takes the
      closing bracket) or has seen its closer, that item has ended and
      is off the stack.
    So no list is closed without a first item that has ended. *)
Theorem list_never_empty (schema : JsonSchemaObject) (p : JsonSchemaParser) :
  reachable schema p ->
  (forall top rest l,
     object_stack p = top :: rest ->
     heap p !! top = Some (ListFrame l) ->
     seen_list_opener l = false ->
     get_allowed_characters p = ["["]
     /\ (forall e,
           get_parser schema (list_member_type l) ["]"; ","] = Raise e ->
           add_character p "[" = Raise e)
     /\ (forall item,
           get_parser schema (list_member_type l) ["]"; ","] = Ok item ->
           exists p',
             add_character p "[" = Ok p'
             /\ heap p'
                = <[top := ListFrame (mkList (list_base l) (list_member_type l) true false)]>
                    (heap p) ++ [item]
             /\ object_stack p' = length (heap p) :: top :: rest
             /\ fresh_frame ["]"; ","] item
             /\ get_allowed_characters p' = Frame_get_allowed_characters item
             /\ get_allowed_characters p' <> []
             /\ ~ In "]" (get_allowed_characters p')
             /\ (forall c p'',
                   add_character p' c = Ok p'' ->
                   object_stack p'' = object_stack p'
                   \/ exists a, object_stack p'' = a :: object_stack p')))
  /\ (forall a l,
        heap p !! a = Some (ListFrame l) ->
        (seen_list_closer l = true -> seen_list_opener l = true)
        /\ (seen_list_opener l = true ->
            exists f0 item,
              get_parser schema (list_member_type l) ["]"; ","] = Ok f0
              /\ heap p !! S a = Some item
              /\ built_as f0 item
              /\ (seen_list_closer l = true \/ (exists rest, object_stack p = a :: rest) ->
                  ended item /\ ~ In (S a) (object_stack p)))).
Proof.
  intros Hp. destruct (reachable_items schema p Hp) as [Hm (Hd & Hv & Hoff & Hl)].
  split.
  - intros top rest l Hstk E Ho. destruct (Hl top l E) as (L1 & _ & _).
    destruct (L1 Ho) as (Hc & _).
    destruct p as [root h stk]. cbn [heap object_stack model_class] in *. subst stk root.
    assert (get_allowed_characters (mkParser schema h (top :: rest)) = ["["]) as Hallowed.
    { unfold get_allowed_characters. cbn [object_stack heap]. rewrite E. cbn.
      unfold Primitive_get_allowed_characters, List_get_allowed_primitive_characters,
        can_end, List_can_end.
      now rewrite Ho, Hc. }
    assert (add_character (mkParser schema h (top :: rest)) "["
            = try item := get_parser schema (list_member_type l) ["]"; ","] in
              Ok (mkParser schema
                    (<[top := ListFrame (mkList (list_base l) (list_member_type l) true false)]>
                       h ++ [item])
                    (length h :: top :: rest))) as Hadd.
    { unfold add_character, deepcopy.
      cbn [object_stack model_class heap Frame_add_character].
      rewrite E. unfold List_add_character. rewrite Hc. cbn [bind fst snd]. rewrite E.
      replace (Ascii.eqb "[" "[") with true by reflexivity.
      destruct (get_parser schema (list_member_type l) ["]"; ","]) as [item|e];
        cbn [bind]; [|reflexivity].
      rewrite (modify_lookup _ _ _ _ E). unfold push. cbn [fst snd bind].
      rewrite length_insert. cbn [set_seen_list_opener]. now rewrite Hc. }
    split; [assumption|]. split.
    + intros e Hg. rewrite Hadd, Hg. reflexivity.
    + intros item Hg. rewrite Hadd, Hg. cbn [bind]. eexists. split; [reflexivity|].
      cbn [heap object_stack]. split; [reflexivity|]. split; [reflexivity|].
      pose proof (get_parser_fresh _ _ _ _ Hg) as Hfresh. split; [assumption|].
      assert ((<[top := ListFrame (mkList (list_base l) (list_member_type l) true false)]>
                 h ++ [item]) !! length h = Some item) as Hitem.
      { rewrite lookup_app_r; rewrite length_insert; [|lia]. now rewrite Nat.sub_diag. }
      assert (get_allowed_characters
                (mkParser schema
                   (<[top := ListFrame (mkList (list_base l) (list_member_type l) true false)]>
                      h ++ [item])
                   (length h :: top :: rest))
              = Frame_get_allowed_characters item) as ->.
      { unfold get_allowed_characters. cbn [object_stack heap]. now rewrite Hitem. }
      split; [reflexivity|].
      split; [apply (fresh_frame_allowed _ _ Hfresh)|].
      split; [apply (fresh_frame_allowed _ _ Hfresh)|].
      intros c p''. unfold add_character, deepcopy. cbn [object_stack model_class heap].
      destruct (Frame_add_character _ _ _ c) as [st|e] eqn:Hst; cbn [bind]; [|discriminate].
      intros [= <-]. cbn [object_stack].
      apply (fresh_frame_stays _ _ _ _ _ _ _ _ Hfresh Hitem Hst).
  - intros a l E. destruct (Hl a l E) as (_ & L2 & L3). split.
    + intros Hc. apply (L3 Hc).
    + intros Ho. destruct (L2 Ho) as (f0 & item & Hg & Hi & Hb).
      exists f0, item. split; [assumption|]. split; [assumption|]. split; [assumption|].
      intros Hback.
      assert (~ In (S a) (object_stack p)) as Hnot.
      { destruct Hback as [Hc | (rest & Hstk)]; [apply (L3 Hc)|].
        rewrite Hstk in Hd |- *. destruct Hd as [Hlt _].
        intros [HS | Hin]; [lia|]. apply Hlt in Hin. lia. }
      split; [|assumption]. now apply Hoff with (S a).
Qed.

Lemma list_never_empty_witness :
  (exists p',
     add_character (after schema_a "{'a':") "[" = Ok p'
     /\ get_allowed_characters p' <> []
     /\ ~ In "]" (get_allowed_characters p'))
  /\ (exists item,
        heap (after schema_a "{'a':[1]") !! 3 = Some item
        /\ ended item
        /\ ~ In 3 (object_stack (after schema_a "{'a':[1]"))).
Proof.
  split.
  - destruct (proj1 (list_never_empty schema_a (after schema_a "{'a':")
                       ltac:(apply drive_reachable
                               with (json "{'a':") (JsonSchemaParser_init schema_a);
                             [constructor | vm_compute; reflexivity]))
                    2 [0] (ListParsingState_init ["}"] (Some (schema_of_type "number"))))
      as (_ & _ & Hitem); [vm_compute; reflexivity | vm_compute; reflexivity | reflexivity |].
    destruct (Hitem (NumberFrame (NumberParsingState_init ["]"; ","] true)))
      as (p' & Hadd & _ & _ & _ & _ & Hne & Hnot & _); [vm_compute; reflexivity|].
    exists p'. now repeat split.
  - destruct (proj2 (list_never_empty schema_a (after schema_a "{'a':[1]")
                       ltac:(apply drive_reachable
                               with (json "{'a':[1]") (JsonSchemaParser_init schema_a);
                             [constructor | vm_compute; reflexivity]))
                    2 (mkList (mkPrimitive [] ["}"]) (Some (schema_of_type "number")) true true))
      as (_ & Hopened); [vm_compute; reflexivity|].
    destruct (Hopened eq_refl) as (f0 & item & _ & Hi & _ & Hended).
    exists item. split; [exact Hi|]. apply Hended. now left.
Defined.
